(** * libstored, client/ed2/stream2zmq.py

    A shallow embedding of [InfiniteStdoutBuffer] (the output buffer with
    its background worker thread) and of [Stream2Zmq] (the stream relay
    orchestrator), with the properties of the specification stated and
    proved over it.

    Python text ([str]) is a list of Unicode code points, [bytes] a list
    of numbers below 256.  Times and timeouts are Python floats, binary64
    numbers, as [time.time()] returns them, with the arithmetic and the
    comparisons of the machine; a timeout passed as an [int] stands for
    the float of its value. *)

From Stdlib Require Import Floats.
From Stdlib Require Import String Ascii Strings.Byte DecimalString.
From Stdlib Require Import ZArith Bool Lia Arith List.
Import ListNotations.

Set Warnings "-register-all".

Set Implicit Arguments.

Definition str := list Z.
Definition bytes := list byte.

(** The empty text, Python's [''] *)
Definition empty_str : str := [].

(** Exceptions the code meets. *)
Inductive exn :=
| AttributeError              (* attribute access on None *)
| ValueError                  (* task_done() called too many times *)
| StopIteration               (* next() on an exhausted iterator *)
| UnicodeDecodeError
| ZMQError (errno : Z)
| OtherError (tag : nat).     (* anything else a collaborator raises *)

(** ** InfiniteStdoutBuffer *)

Module InfiniteStdoutBuffer.

(** The wrapped file object [self.stdout]: what it was given, in order,
    and how often it was flushed. *)
Record Sink := { written : list str; flushes : nat }.

Definition sink_write (d : str) (k : Sink) : Sink :=
  {| written := written k ++ [d]; flushes := flushes k |}.

Definition sink_flush (k : Sink) : Sink :=
  {| written := written k; flushes := S (flushes k) |}.

(** [queue.Queue]: the items waiting, and the count of items put and not
    yet marked done, on which [join] waits. *)
Record Queue := { items : list str; unfinished_tasks : nat }.

Definition Queue_new : Queue := {| items := []; unfinished_tasks := 0 |}.

Definition Queue_put (d : str) (q : Queue) : Queue :=
  {| items := items q ++ [d]; unfinished_tasks := S (unfinished_tasks q) |}.

(** Where the thread running [_worker] stands. *)
Inductive Worker :=
| AtLoop                 (* at [while not self._closed] *)
| AtGet                  (* in [self._queue.get()], blocked on an empty queue *)
| AtWrite (d : str)      (* got [d], about to [self._write(d)] *)
| AtTaskDone             (* about to [self._queue.task_done()] *)
| Exited                 (* left the loop *)
| Died (e : exn).        (* ended by an exception *)

(** The two objects that [sys.stdout] is bound to in turn. *)
Inductive object :=
| the_wrapped_file       (* the file object the buffer holds as self.stdout *)
| the_buffer.            (* the buffer itself *)

(** A cleanup callback.  The one that [setInfiniteStdout] makes is
    [lambda: resetStdout(old_stdout)]; what it has captured is a
    reference to an object.  Any other callable is known by a token
    only. *)
Inductive callback :=
| lambda_resetStdout (old_stdout : object)
| callable (token : nat).

Record t := {
  stdout : Sink;
  _queue : option Queue;
  _closed : bool;
  _cleanup : option callback;
  _thread : Worker
}.

Definition set_stdout (k : Sink) (b : t) : t :=
  {| stdout := k; _queue := _queue b; _closed := _closed b;
     _cleanup := _cleanup b; _thread := _thread b |}.

Definition set_queue (q : option Queue) (b : t) : t :=
  {| stdout := stdout b; _queue := q; _closed := _closed b;
     _cleanup := _cleanup b; _thread := _thread b |}.

Definition set_closed (c : bool) (b : t) : t :=
  {| stdout := stdout b; _queue := _queue b; _closed := c;
     _cleanup := _cleanup b; _thread := _thread b |}.

Definition set_thread (w : Worker) (b : t) : t :=
  {| stdout := stdout b; _queue := _queue b; _closed := _closed b;
     _cleanup := _cleanup b; _thread := w |}.

(** [__init__]: the thread is started and stands at its loop test. *)
Definition __init__ (out : Sink) (cleanup : option callback) : t :=
  {| stdout := out; _queue := Some Queue_new; _closed := false;
     _cleanup := cleanup; _thread := AtLoop |}.

(** [_write]: [self.stdout.write(data)] *)
Definition _write (data : str) (b : t) : t :=
  set_stdout (sink_write data (stdout b)) b.

(** [self._queue.put(data)]; on a discarded queue the attribute access
    fails. *)
Definition queue_put (data : str) (b : t) : exn + t :=
  match _queue b with
  | None => inl AttributeError
  | Some q => inr (set_queue (Some (Queue_put data q)) b)
  end.

(** [write], as one uninterrupted call. *)
Definition write (data : str) (b : t) : exn + t :=
  if _closed b then inr (_write data b) else queue_put data b.

(** *** The methods as instruction sequences

    [flush] and [close] wait for the worker, so the caller's thread is
    run one instruction at a time beside it. *)

Inductive cond := Closed | HasCleanup.

Inductive instr :=
| If (c : cond) (then_ else_ : list instr)
| Return
| Stdout_write (d : str)     (* self.stdout.write(d) *)
| Put (d : str)              (* self._queue.put(d) *)
| Queue_join                 (* self._queue.join() *)
| Set_closed                 (* self._closed = True *)
| Thread_join                (* self._thread.join() *)
| Drop_queue                 (* self._queue = None *)
| Stdout_flush               (* self.stdout.flush() *)
| Call_cleanup.              (* self._cleanup() *)

Inductive method := m_write (d : str) | m_flush | m_close | m_del.

Definition write_body (data : str) : list instr :=
  [ If Closed [Stdout_write data] [Put data] ].

Definition flush : list instr := [ Queue_join ].

Definition close : list instr :=
  [ If Closed [Return] [] ]
  ++ flush
  ++ [ Set_closed;
       Put empty_str;
       Thread_join;
       Drop_queue;
       Stdout_flush;
       If HasCleanup [Call_cleanup] [] ].

Definition __del__ : list instr := close.

Definition body (m : method) : list instr :=
  match m with
  | m_write d => write_body d
  | m_flush => flush
  | m_close => close
  | m_del => __del__
  end.

Inductive tid := T_caller | T_worker.

Inductive event :=
| Wrote (by_ : tid) (d : str)   (* the sink was given d *)
| Enqueued (d : str)
| QueueJoined
| MarkedClosed
| WorkerJoined
| QueueDiscarded
| SinkFlushed
| CleanupCalled (c : callback).

(** The calling thread: the rest of the call under way, the calls still
    to make, and the exception that ended it, if any. *)
Record Caller := {
  frame : list instr;
  pending : list method;
  raised : option exn
}.

Record System := {
  buf : t;
  caller : Caller;
  trace : list event
}.

Definition start (b : t) (ms : list method) (tr : list event) : System :=
  {| buf := b;
     caller := {| frame := []; pending := ms; raised := None |};
     trace := tr |}.

Definition returned (s : System) : bool :=
  match frame (caller s), pending (caller s), raised (caller s) with
  | [], [], None => true
  | _, _, _ => false
  end.

Definition test (c : cond) (b : t) : bool :=
  match c with
  | Closed => _closed b
  | HasCleanup => match _cleanup b with Some _ => true | None => false end
  end.

Definition continue_ (k : list instr) (ms : list method) (b : t)
    (evs : list event) (s : System) : option System :=
  Some {| buf := b;
          caller := {| frame := k; pending := ms; raised := None |};
          trace := trace s ++ evs |}.

Definition throw (e : exn) (s : System) : option System :=
  Some {| buf := buf s;
          caller := {| frame := frame (caller s);
                       pending := pending (caller s);
                       raised := Some e |};
          trace := trace s |}.

(** One step of the calling thread; [None] when it waits or is done. *)
Definition step_caller (s : System) : option System :=
  let b := buf s in
  let ms := pending (caller s) in
  match raised (caller s) with
  | Some _ => None
  | None =>
    match frame (caller s) with
    | [] =>
        match ms with
        | [] => None
        | m :: ms' => continue_ (body m) ms' b [] s
        end
    | If c th el :: k =>
        continue_ ((if test c b then th else el) ++ k) ms b [] s
    | Return :: _ => continue_ [] ms b [] s
    | Stdout_write d :: k =>
        continue_ k ms (_write d b) [Wrote T_caller d] s
    | Put d :: k =>
        match queue_put d b with
        | inl e => throw e s
        | inr b' => continue_ k ms b' [Enqueued d] s
        end
    | Queue_join :: k =>
        match _queue b with
        | None => throw AttributeError s
        | Some q =>
            if unfinished_tasks q =? 0
            then continue_ k ms b [QueueJoined] s
            else None
        end
    | Set_closed :: k => continue_ k ms (set_closed true b) [MarkedClosed] s
    | Thread_join :: k =>
        match _thread b with
        | Exited | Died _ => continue_ k ms b [WorkerJoined] s
        | _ => None
        end
    | Drop_queue :: k => continue_ k ms (set_queue None b) [QueueDiscarded] s
    | Stdout_flush :: k =>
        continue_ k ms (set_stdout (sink_flush (stdout b)) b) [SinkFlushed] s
    | Call_cleanup :: k =>
        match _cleanup b with
        | Some c => continue_ k ms b [CleanupCalled c] s
        | None => throw (OtherError 0) s    (* calling None *)
        end
    end
  end.

Definition worker_goes (b : t) (evs : list event) (s : System) : option System :=
  Some {| buf := b; caller := caller s; trace := trace s ++ evs |}.

(** One step of [_worker]:
      while not self._closed:
          self._write(self._queue.get())
          self._queue.task_done() *)
Definition _worker (s : System) : option System :=
  let b := buf s in
  match _thread b with
  | AtLoop =>
      worker_goes (set_thread (if _closed b then Exited else AtGet) b) [] s
  | AtGet =>
      match _queue b with
      | None => worker_goes (set_thread (Died AttributeError) b) [] s
      | Some q =>
          match items q with
          | [] => None
          | d :: rest =>
              worker_goes
                (set_thread (AtWrite d)
                   (set_queue (Some {| items := rest;
                                       unfinished_tasks := unfinished_tasks q |}) b))
                [] s
          end
      end
  | AtWrite d =>
      worker_goes (set_thread AtTaskDone (_write d b)) [Wrote T_worker d] s
  | AtTaskDone =>
      match _queue b with
      | None => worker_goes (set_thread (Died AttributeError) b) [] s
      | Some q =>
          match unfinished_tasks q with
          | O => worker_goes (set_thread (Died ValueError) b) [] s
          | S n =>
              worker_goes
                (set_thread AtLoop
                   (set_queue (Some {| items := items q; unfinished_tasks := n |}) b))
                [] s
          end
      end
  | Exited | Died _ => None
  end.

Definition step (th : tid) (s : System) : option System :=
  match th with
  | T_caller => step_caller s
  | T_worker => _worker s
  end.

(** Running a schedule: the listed threads step in turn, each one able
    to step when its turn comes. *)
Fixpoint exec (sched : list tid) (s : System) : option System :=
  match sched with
  | [] => Some s
  | th :: rest =>
      match step th s with
      | Some s' => exec rest s'
      | None => None
      end
  end.

(** A scheduler that lets the caller go whenever it can. *)
Fixpoint run (fuel : nat) (s : System) : System :=
  match fuel with
  | O => s
  | S n =>
      match step_caller s with
      | Some s' => run n s'
      | None =>
          match _worker s with
          | Some s' => run n s'
          | None => s
          end
      end
  end.

(** The schedule that [run] follows. *)
Fixpoint picks (fuel : nat) (s : System) : list tid :=
  match fuel with
  | O => []
  | S n =>
      match step_caller s with
      | Some s' => T_caller :: picks n s'
      | None =>
          match _worker s with
          | Some s' => T_worker :: picks n s'
          | None => []
          end
      end
  end.

(** What an open buffer keeps true between the queue's counter and the
    worker's position. *)
Definition consistent (b : t) : bool :=
  match _queue b with
  | None => false
  | Some q =>
      match _thread b with
      | AtLoop | AtGet => unfinished_tasks q =? length (items q)
      | AtWrite _ | AtTaskDone => unfinished_tasks q =? S (length (items q))
      | Exited | Died _ => false
      end
  end.

(** The chunks accepted and not yet given to the sink. *)
Definition pending_chunks (b : t) : list str :=
  match _queue b with
  | None => []
  | Some q =>
      match _thread b with
      | AtWrite d => d :: items q
      | _ => items q
      end
  end.

Definition cleanup_events (c : option callback) : list event :=
  match c with
  | Some f => [CleanupCalled f]
  | None => []
  end.

(** Steps left, whatever the schedule. *)
Fixpoint cost (i : instr) : nat :=
  match i with
  | If _ th el => S (list_sum (map cost th) + list_sum (map cost el))
  | Put _ => 5
  | _ => 1
  end.

Definition cost_frame (k : list instr) : nat := list_sum (map cost k).

Definition cost_calls (ms : list method) : nat :=
  list_sum (map (fun m => S (cost_frame (body m))) ms).

Definition worker_rank (w : Worker) : nat :=
  match w with
  | AtWrite _ => 4
  | AtTaskDone => 3
  | AtLoop => 2
  | AtGet => 1
  | Exited | Died _ => 0
  end.

Definition queue_len (b : t) : nat :=
  match _queue b with
  | Some q => length (items q)
  | None => 0
  end.

Definition measure (s : System) : nat :=
  match raised (caller s) with
  | Some _ => 0
  | None => cost_frame (frame (caller s)) + cost_calls (pending (caller s))
  end
  + 4 * queue_len (buf s) + worker_rank (_thread (buf s)).

(** *** The states a first [close()] passes through

    [close_inv b0 t0] holds of every state that an execution of one
    [close()] reaches from the open buffer [b0] with trace [t0]. *)

Definition mk (wr : list str) (fl : nat) (q : option Queue) (cl : bool)
    (c : option callback) (w : Worker) (k : list instr) (ms : list method)
    (tr : list event) : System :=
  {| buf := {| stdout := {| written := wr; flushes := fl |};
               _queue := q; _closed := cl; _cleanup := c; _thread := w |};
     caller := {| frame := k; pending := ms; raised := None |};
     trace := tr |}.

Definition after_flush : list instr :=
  [ Set_closed; Put empty_str; Thread_join; Drop_queue; Stdout_flush;
    If HasCleanup [Call_cleanup] [] ].

Definition by_worker (ds : list str) : list event := map (Wrote T_worker) ds.

(** Whether the worker took the wakeup item to the sink before it left. *)
Definition sentinel_ok (sn : list str) (q : Queue) : Prop :=
  (sn = [] /\ q = {| items := [empty_str]; unfinished_tasks := 1 |})
  \/ (sn = [empty_str] /\ q = {| items := []; unfinished_tasks := 0 |}).

Section CloseInv.

Variable b0 : t.
Variable t0 : list event.

Definition drained_trace : list event :=
  t0 ++ by_worker (pending_chunks b0) ++ [QueueJoined].

Definition sent_trace (sn : list str) : list event :=
  drained_trace ++ [MarkedClosed; Enqueued empty_str] ++ by_worker sn.

Inductive close_inv : System -> Prop :=
| CI_drain (done : list str) (q : Queue) (w : Worker) k ms :
    (k = [] /\ ms = [m_close]) \/ (k = close /\ ms = [])
      \/ (k = flush ++ after_flush /\ ms = []) ->
    consistent (set_thread w (set_queue (Some q) b0)) = true ->
    pending_chunks b0
      = done ++ pending_chunks (set_thread w (set_queue (Some q) b0)) ->
    close_inv (mk (written (stdout b0) ++ done) (flushes (stdout b0))
                 (Some q) false (_cleanup b0) w k ms (t0 ++ by_worker done))
| CI_joined (w : Worker) :
    w = AtLoop \/ w = AtGet ->
    close_inv (mk (written (stdout b0) ++ pending_chunks b0) (flushes (stdout b0))
                 (Some Queue_new) false (_cleanup b0) w after_flush []
                 drained_trace)
| CI_marked (w : Worker) :
    w = AtLoop \/ w = AtGet \/ w = Exited ->
    close_inv (mk (written (stdout b0) ++ pending_chunks b0) (flushes (stdout b0))
                 (Some Queue_new) true (_cleanup b0) w (tl after_flush) []
                 (drained_trace ++ [MarkedClosed]))
| CI_put_waiting (w : Worker) :
    w = AtLoop \/ w = AtGet \/ w = Exited ->
    close_inv (mk (written (stdout b0) ++ pending_chunks b0) (flushes (stdout b0))
                 (Some {| items := [empty_str]; unfinished_tasks := 1 |})
                 true (_cleanup b0) w (skipn 2 after_flush) [] (sent_trace []))
| CI_put_taken :
    close_inv (mk (written (stdout b0) ++ pending_chunks b0) (flushes (stdout b0))
                 (Some {| items := []; unfinished_tasks := 1 |})
                 true (_cleanup b0) (AtWrite empty_str) (skipn 2 after_flush) []
                 (sent_trace []))
| CI_put_written :
    close_inv (mk (written (stdout b0) ++ pending_chunks b0 ++ [empty_str])
                 (flushes (stdout b0))
                 (Some {| items := []; unfinished_tasks := 1 |})
                 true (_cleanup b0) AtTaskDone (skipn 2 after_flush) []
                 (sent_trace [empty_str]))
| CI_put_done (w : Worker) :
    w = AtLoop \/ w = Exited ->
    close_inv (mk (written (stdout b0) ++ pending_chunks b0 ++ [empty_str])
                 (flushes (stdout b0))
                 (Some {| items := []; unfinished_tasks := 0 |})
                 true (_cleanup b0) w (skipn 2 after_flush) []
                 (sent_trace [empty_str]))
| CI_thread_joined (sn : list str) (q : Queue) :
    sentinel_ok sn q ->
    close_inv (mk (written (stdout b0) ++ pending_chunks b0 ++ sn)
                 (flushes (stdout b0)) (Some q) true (_cleanup b0) Exited
                 (skipn 3 after_flush) [] (sent_trace sn ++ [WorkerJoined]))
| CI_dropped (sn : list str) :
    sn = [] \/ sn = [empty_str] ->
    close_inv (mk (written (stdout b0) ++ pending_chunks b0 ++ sn)
                 (flushes (stdout b0)) None true (_cleanup b0) Exited
                 (skipn 4 after_flush) []
                 (sent_trace sn ++ [WorkerJoined; QueueDiscarded]))
| CI_flushed (sn : list str) :
    sn = [] \/ sn = [empty_str] ->
    close_inv (mk (written (stdout b0) ++ pending_chunks b0 ++ sn)
                 (S (flushes (stdout b0))) None true (_cleanup b0) Exited
                 (skipn 5 after_flush) []
                 (sent_trace sn ++ [WorkerJoined; QueueDiscarded; SinkFlushed]))
| CI_cleanup (sn : list str) (f : callback) :
    sn = [] \/ sn = [empty_str] ->
    _cleanup b0 = Some f ->
    close_inv (mk (written (stdout b0) ++ pending_chunks b0 ++ sn)
                 (S (flushes (stdout b0))) None true (_cleanup b0) Exited
                 [Call_cleanup] []
                 (sent_trace sn ++ [WorkerJoined; QueueDiscarded; SinkFlushed]))
| CI_returned (sn : list str) :
    sn = [] \/ sn = [empty_str] ->
    close_inv (mk (written (stdout b0) ++ pending_chunks b0 ++ sn)
                 (S (flushes (stdout b0))) None true (_cleanup b0) Exited
                 [] []
                 (sent_trace sn ++ [WorkerJoined; QueueDiscarded; SinkFlushed]
                    ++ cleanup_events (_cleanup b0))).

End CloseInv.

(** *** The states that calls of [write] pass through

    All the chunks the buffer has taken: those at the sink and, after
    them, those still on their way there. *)
Definition accepted (b : t) : list str := written (stdout b) ++ pending_chunks b.

(** An open buffer, in order, under a caller that has raised nothing. *)
Definition open_ok (s : System) : Prop :=
  _closed (buf s) = false /\ consistent (buf s) = true
  /\ raised (caller s) = None.

(** What no call of [write] or [flush] and no step of the worker changes. *)
Definition same_setup (b0 b : t) : Prop :=
  _cleanup b = _cleanup b0 /\ flushes (stdout b) = flushes (stdout b0).

Section Writing.

Variable b0 : t.               (* the buffer at the start *)
Variable ds : list str.        (* the chunks of the calls of write, in order *)
Variable tail : list method.   (* the calls that follow them *)

(** The caller is between two calls of [write], at the test of one, or at
    its [put]; the buffer has taken the chunks of the calls done, after
    what it had. *)
Inductive writing : System -> Prop :=
| W_idle s done rest :
    ds = done ++ rest ->
    frame (caller s) = [] ->
    pending (caller s) = map m_write rest ++ tail ->
    open_ok s -> same_setup b0 (buf s) ->
    accepted (buf s) = accepted b0 ++ done ->
    writing s
| W_test s done d rest :
    ds = done ++ d :: rest ->
    frame (caller s) = write_body d ->
    pending (caller s) = map m_write rest ++ tail ->
    open_ok s -> same_setup b0 (buf s) ->
    accepted (buf s) = accepted b0 ++ done ->
    writing s
| W_put s done d rest :
    ds = done ++ d :: rest ->
    frame (caller s) = [Put d] ->
    pending (caller s) = map m_write rest ++ tail ->
    open_ok s -> same_setup b0 (buf s) ->
    accepted (buf s) = accepted b0 ++ done ->
    writing s.

(** The caller has made all the calls of [write] and entered the first
    call of [tail]. *)
Definition handed_over (s : System) : Prop :=
  match tail with
  | [] => False
  | m :: tail' =>
      frame (caller s) = body m /\ pending (caller s) = tail'
      /\ open_ok s /\ same_setup b0 (buf s)
      /\ accepted (buf s) = accepted b0 ++ ds
  end.

(** The caller is in the [flush()] that follows the calls of [write], or
    back from it. *)
Inductive flushing : System -> Prop :=
| F_wait s :
    frame (caller s) = flush -> pending (caller s) = [] ->
    open_ok s -> same_setup b0 (buf s) ->
    accepted (buf s) = accepted b0 ++ ds ->
    flushing s
| F_done s :
    frame (caller s) = [] -> pending (caller s) = [] ->
    open_ok s -> same_setup b0 (buf s) ->
    written (stdout (buf s)) = accepted b0 ++ ds ->
    _queue (buf s) = Some Queue_new ->
    flushing s.

End Writing.

(** The states of a run of calls of [write] and a [flush()], and of a run
    of calls of [write] and a [close()]. *)
Definition flush_run (b : t) (ds : list str) (s : System) : Prop :=
  writing b ds [m_flush] s \/ flushing b ds s.

Definition close_run (fin : method) (b : t) (ds : list str) (s : System) : Prop :=
  writing b ds [fin] s
  \/ exists b1 t1, close_inv b1 t1 s /\ accepted b1 = accepted b ++ ds
       /\ same_setup b b1.


(** *** Two calling threads

    A second caller beside the first, each at its own place in its own
    calls, on the one buffer and beside the one worker. *)

Inductive who := First | Second | TheWorker.

Record Duo := {
  shared : t;
  first : Caller;
  second : Caller;
  seen : list event
}.

Definition duo (b : t) (ms1 ms2 : list method) (tr : list event) : Duo :=
  {| shared := b;
     first := {| frame := []; pending := ms1; raised := None |};
     second := {| frame := []; pending := ms2; raised := None |};
     seen := tr |}.

(** The buffer as one of the callers meets it. *)
Definition as_system (c : Caller) (d : Duo) : System :=
  {| buf := shared d; caller := c; trace := seen d |}.

Definition step_duo (w : who) (d : Duo) : option Duo :=
  match w with
  | First =>
      match step_caller (as_system (first d) d) with
      | Some s => Some {| shared := buf s; first := caller s;
                          second := second d; seen := trace s |}
      | None => None
      end
  | Second =>
      match step_caller (as_system (second d) d) with
      | Some s => Some {| shared := buf s; first := first d;
                          second := caller s; seen := trace s |}
      | None => None
      end
  | TheWorker =>
      match _worker (as_system (second d) d) with
      | Some s => Some {| shared := buf s; first := first d;
                          second := second d; seen := trace s |}
      | None => None
      end
  end.

Fixpoint exec_duo (sched : list who) (d : Duo) : option Duo :=
  match sched with
  | [] => Some d
  | w :: rest =>
      match step_duo w d with
      | Some d' => exec_duo rest d'
      | None => None
      end
  end.

(** The second caller and the worker go on as in [s] while the first
    caller stands at [c]. *)
Definition beside (c : Caller) (s : System) : Duo :=
  {| shared := buf s; first := c; second := caller s; seen := trace s |}.

Definition as_who (th : tid) : who :=
  match th with
  | T_caller => Second
  | T_worker => TheWorker
  end.

Definition back (c : Caller) : bool :=
  match frame c, pending c, raised c with
  | [], [], None => true
  | _, _, _ => false
  end.

(** The schedule on which a chunk put during [close()] is left in the
    queue: the writer passes its test, the closer joins the queue and
    sets the flag, the writer puts, the closer puts its wakeup chunk, the
    worker finds the flag set and leaves, the closer goes on to the end. *)
Definition losing_schedule (cleanup : option callback) : list who :=
  [First; First; Second; Second; Second; Second; First; Second; TheWorker;
   Second; Second; Second; Second]
  ++ match cleanup with Some _ => [Second] | None => [] end.

End InfiniteStdoutBuffer.

(** ** Text from bytes: [data.decode(errors=...)]

    Python's built-in UTF-8 codec.  A malformed sequence is an error at
    the bytes read so far; the offending byte is looked at again as the
    start of the next sequence.  Under [strict] the error is raised,
    under [replace] it becomes U+FFFD and decoding goes on. *)

Module Codec.

Local Open Scope Z_scope.

Inductive errors := strict | replace.

Inductive item := Char (cp : Z) | Malformed.

Definition REPLACEMENT_CHARACTER : Z := 65533.

(** What is still awaited of a sequence under way: how many bytes, the
    range allowed for the next one, and the bits gathered. *)
Record Awaited := { more : nat; lo : Z; hi : Z; acc : Z }.

Inductive Lead := Single (cp : Z) | Starts (a : Awaited) | Invalid.

Definition lead (b : Z) : Lead :=
  if b <? 128 then Single b
  else if b <? 194 then Invalid
  else if b <? 224 then Starts {| more := 0%nat; lo := 128; hi := 191; acc := b - 192 |}
  else if b =? 224 then Starts {| more := 1%nat; lo := 160; hi := 191; acc := 0 |}
  else if b =? 237 then Starts {| more := 1%nat; lo := 128; hi := 159; acc := 13 |}
  else if b <? 240 then Starts {| more := 1%nat; lo := 128; hi := 191; acc := b - 224 |}
  else if b =? 240 then Starts {| more := 2%nat; lo := 144; hi := 191; acc := 0 |}
  else if b <? 244 then Starts {| more := 2%nat; lo := 128; hi := 191; acc := b - 240 |}
  else if b =? 244 then Starts {| more := 2%nat; lo := 128; hi := 143; acc := 4 |}
  else Invalid.

Fixpoint scan (aw : option Awaited) (data : bytes) : list item :=
  match data with
  | [] =>
      match aw with
      | None => []
      | Some _ => [Malformed]            (* unexpected end of data *)
      end
  | x :: rest =>
      let b := Z.of_N (Byte.to_N x) in
      let first :=
        match lead b with
        | Single cp => Char cp :: scan None rest
        | Starts a => scan (Some a) rest
        | Invalid => Malformed :: scan None rest     (* invalid start byte *)
        end in
      match aw with
      | None => first
      | Some a =>
          if (lo a <=? b) && (b <=? hi a)
          then
            let bits := acc a * 64 + (b - 128) in
            match more a with
            | O => Char bits :: scan None rest
            | S n => scan (Some {| more := n; lo := 128; hi := 191; acc := bits |}) rest
            end
          else Malformed :: first                    (* invalid continuation byte *)
      end
  end.

Fixpoint chars (its : list item) : option str :=
  match its with
  | [] => Some []
  | Char cp :: r => option_map (cons cp) (chars r)
  | Malformed :: _ => None
  end.

Definition replaced (it : item) : Z :=
  match it with
  | Char cp => cp
  | Malformed => REPLACEMENT_CHARACTER
  end.

Definition decode (how : errors) (data : bytes) : exn + str :=
  match how with
  | strict =>
      match chars (scan None data) with
      | Some text => inr text
      | None => inl UnicodeDecodeError
      end
  | replace => inr (map replaced (scan None data))
  end.

End Codec.

(** ** The process-wide output sink, [sys.stdout] *)

Inductive stdout_obj :=
| Plain (k : InfiniteStdoutBuffer.Sink)          (* an ordinary file object *)
| Buffered (b : InfiniteStdoutBuffer.t).         (* an InfiniteStdoutBuffer *)

(** [resetStdout(old_stdout)]: [sys.stdout = old_stdout], on what
    [sys.stdout] is bound to. *)
Definition resetStdout (old_stdout : InfiniteStdoutBuffer.object)
    (sys_stdout : InfiniteStdoutBuffer.object) : InfiniteStdoutBuffer.object :=
  old_stdout.

(** The callback of [setInfiniteStdout], [lambda: resetStdout(old_stdout)]:
    its [old_stdout] is the object that the same call gives the buffer to
    wrap. *)
Definition restore_stdout : InfiniteStdoutBuffer.callback :=
  InfiniteStdoutBuffer.lambda_resetStdout InfiniteStdoutBuffer.the_wrapped_file.

Definition setInfiniteStdout (sys_stdout : stdout_obj) : stdout_obj :=
  match sys_stdout with
  | Buffered _ => sys_stdout
  | Plain k =>
      Buffered (InfiniteStdoutBuffer.__init__
                  (InfiniteStdoutBuffer.sink_flush k) (Some restore_stdout))
  end.

(** *** The process in which a buffer is installed

    The buffer with its worker and the thread that calls it, and the
    object that the name [sys.stdout] is bound to. *)
Record Process := {
  threads : InfiniteStdoutBuffer.System;
  binding : InfiniteStdoutBuffer.object
}.

(** [self._cleanup()]: what calling the callback does to [sys.stdout]. *)
Definition call_cleanup (c : InfiniteStdoutBuffer.callback)
    (sys_stdout : InfiniteStdoutBuffer.object) : InfiniteStdoutBuffer.object :=
  match c with
  | InfiniteStdoutBuffer.lambda_resetStdout old_stdout =>
      resetStdout old_stdout sys_stdout
  | InfiniteStdoutBuffer.callable _ => sys_stdout
  end.

(** A step of a thread, in the process: the step of [close()] that calls
    the callback rebinds [sys.stdout]. *)
Definition step_process (th : InfiniteStdoutBuffer.tid) (p : Process) : option Process :=
  let s := threads p in
  match InfiniteStdoutBuffer.step th s with
  | None => None
  | Some s' =>
      Some {| threads := s';
              binding :=
                match th,
                      InfiniteStdoutBuffer.raised (InfiniteStdoutBuffer.caller s),
                      InfiniteStdoutBuffer.frame (InfiniteStdoutBuffer.caller s),
                      InfiniteStdoutBuffer._cleanup (InfiniteStdoutBuffer.buf s)
                with
                | InfiniteStdoutBuffer.T_caller, None,
                  InfiniteStdoutBuffer.Call_cleanup :: _, Some c =>
                    call_cleanup c (binding p)
                | _, _, _, _ => binding p
                end |}
  end.

Fixpoint exec_process (sched : list InfiniteStdoutBuffer.tid) (p : Process)
    : option Process :=
  match sched with
  | [] => Some p
  | th :: rest =>
      match step_process th p with
      | Some p' => exec_process rest p'
      | None => None
      end
  end.

(** The object that [sys.stdout] stands for. *)
Definition sys_stdout_of (p : Process) : stdout_obj :=
  match binding p with
  | InfiniteStdoutBuffer.the_buffer =>
      Buffered (InfiniteStdoutBuffer.buf (threads p))
  | InfiniteStdoutBuffer.the_wrapped_file =>
      Plain (InfiniteStdoutBuffer.stdout (InfiniteStdoutBuffer.buf (threads p)))
  end.

(** The process after [setInfiniteStdout()] has put the buffer [b] in
    place, with the calls [ms] to be made on [sys.stdout]. *)
Definition installed (b : InfiniteStdoutBuffer.t)
    (ms : list InfiniteStdoutBuffer.method) : Process :=
  {| threads := InfiniteStdoutBuffer.start b ms [];
     binding := InfiniteStdoutBuffer.the_buffer |}.

(** [sys.stdout] is the buffer until the caller is back from its calls,
    and from then on the object the buffer wraps. *)
Definition rebound (p : Process) : Prop :=
  binding p =
    if InfiniteStdoutBuffer.returned (threads p)
    then InfiniteStdoutBuffer.the_wrapped_file
    else InfiniteStdoutBuffer.the_buffer.

(** [sys.stdout.write(text)] *)
Definition sys_stdout_write (text : str) (o : stdout_obj) : exn + stdout_obj :=
  match o with
  | Plain k => inr (Plain (InfiniteStdoutBuffer.sink_write text k))
  | Buffered b =>
      match InfiniteStdoutBuffer.write text b with
      | inr b' => inr (Buffered b')
      | inl e => inl e
      end
  end.

(** ** Stream2Zmq *)

Module Stream2Zmq.

(** What a stage's [fdout] is set to. *)
Inductive fdout_fn :=
| self_stdout                 (* the bound method [self.stdout] *)
| other_fdout (n : nat).

(** A stage of the chain: which object it is, whether it is a
    [protocol.TerminalLayer], and its [fdout]. *)
Record Layer := {
  ref : nat;
  isinstance_TerminalLayer : bool;
  fdout : option fdout_fn
}.

Definition set_fdout (f : fdout_fn) (l : Layer) : Layer :=
  {| ref := ref l;
     isinstance_TerminalLayer := isinstance_TerminalLayer l;
     fdout := Some f |}.

Record t := {
  _stack_def : string;
  _timeout_s : float;
  _stack : list Layer;
  _zmq : option Layer
}.

Definition set_stack (st : list Layer) (me : t) : t :=
  {| _stack_def := _stack_def me; _timeout_s := _timeout_s me;
     _stack := st; _zmq := _zmq me |}.

Definition set_zmq (z : option Layer) (me : t) : t :=
  {| _stack_def := _stack_def me; _timeout_s := _timeout_s me;
     _stack := _stack me; _zmq := z |}.

(** Calls made on collaborators, as they are made. *)
Inductive Call :=
| Logger_debug (msg : string) (data : option bytes)
| BuildStack (stack_def : string)
| Wrap (stack : list Layer)
| Super_encode (data : bytes)
| Super_decode (data : bytes)
| Stack_timeout (stack : list Layer)
| Zmq_isWaiting (z : nat)
| Zmq_lastActivity (z : nat)
| Time_time
| Zmq_poll (z : nat) (timeout_s : option float)
| Zmq_registerStream (z : nat) (stream : nat) (f : bool)
| Zmq_close (z : nat)
| Socket_recv (socket : nat)
| Handler (f : nat) (frame : bytes)
| Sys_stdout_write (text : str).

(** The collaborators that stream2zmq.py only uses: the protocol
    module, the ZeroMQ server and sockets, the clock and the handlers
    passed in.  Each acts on a [World] of its own.  Unless the code
    catches what they raise, they are taken to return. *)
Record Externals (World Ready Token : Type) := {
  default_port : Z;                    (* ZmqServer.default_port *)
  EAGAIN : Z;                          (* zmq.EAGAIN *)
  buildStack : string -> World -> list Layer * World;
  wrap : list Layer -> World -> World;
  super_encode : bytes -> World -> World;
  super_decode : bytes -> World -> World;
  stack_timeout : list Layer -> World -> World;
  zmq_isWaiting : nat -> World -> bool;
  zmq_lastActivity : nat -> World -> float;
  time_time : World -> float * World;
  zmq_poll : nat -> option float -> World -> Ready * World;
  zmq_registerStream : nat -> nat -> bool -> World -> Token * World;
  zmq_close : nat -> World -> World;
  socket_recv : nat -> World -> (exn + bytes) * World;
  handler : nat -> bytes -> World -> (exn + unit) * World
}.

Section Orchestrator.

Context {World Ready Token : Type}.
Variable E : Externals World Ready Token.

Record Machine := {
  self : t;
  sys_stdout : stdout_obj;
  world : World;
  calls : list Call
}.

Inductive result (A : Type) :=
| Val (a : A)
| Exc (e : exn)
| OutOfFuel.
Arguments Val {A} a.
Arguments Exc {A} e.
Arguments OutOfFuel {A}.

Definition M (A : Type) := Machine -> result A * Machine.

Definition ret {A} (a : A) : M A := fun m => (Val a, m).

Definition bind {A B} (c : M A) (k : A -> M B) : M B :=
  fun m =>
    match c m with
    | (Val a, m') => k a m'
    | (Exc e, m') => (Exc e, m')
    | (OutOfFuel, m') => (OutOfFuel, m')
    end.

Definition raise_ {A} (e : exn) : M A := fun m => (Exc e, m).

Definition try_ {A} (c : M A) (except : exn -> M A) : M A :=
  fun m =>
    match c m with
    | (Exc e, m') => except e m'
    | r => r
    end.

Notation "x <- c ;; k" := (bind c (fun x => k))
  (at level 61, c at next level, right associativity).
Notation "c ;; k" := (bind c (fun _ => k))
  (at level 61, right associativity).

Definition get_self : M t := fun m => (Val (self m), m).

Definition put_self (me : t) : M unit :=
  fun m => (Val tt, {| self := me; sys_stdout := sys_stdout m;
                       world := world m; calls := calls m |}).

(** A call on a collaborator: it is noted, and the world moves on. *)
Definition call {A} (c : Call) (f : World -> A * World) : M A :=
  fun m =>
    (Val (fst (f (world m))),
     {| self := self m; sys_stdout := sys_stdout m;
        world := snd (f (world m)); calls := calls m ++ [c] |}).

Definition lift {A} (r : exn + A) : M A :=
  match r with
  | inr a => ret a
  | inl e => raise_ e
  end.

(** A call that may raise. *)
Definition call_raising {A} (c : Call) (f : World -> (exn + A) * World) : M A :=
  r <- call c f ;; lift r.

Definition logger_debug (msg : string) (data : option bytes) : M unit :=
  call (Logger_debug msg data) (fun w => (tt, w)).

(** The [zmq] property: the first stage of the chain, cached. *)
Definition zmq : M Layer :=
  me <- get_self ;;
  match _zmq me with
  | Some z => ret z
  | None =>
      match _stack me with
      | [] => raise_ StopIteration
      | l :: _ => put_self (set_zmq (Some l) me) ;; ret l
      end
  end.

(** The body of the loop of [reset]:
      if isinstance(l, protocol.TerminalLayer): l.fdout = self.stdout *)
Definition install (l : Layer) : Layer :=
  if isinstance_TerminalLayer l then set_fdout self_stdout l else l.

Definition reset : M unit :=
  me <- get_self ;;
  stack <- call (BuildStack (_stack_def me)) (buildStack E (_stack_def me)) ;;
  let stack := map install stack in
  put_self (set_stack stack me) ;;
  call (Wrap stack) (fun w => (tt, wrap E stack w)) ;;
  me <- get_self ;;
  put_self (set_zmq None me).

Definition encode (data : bytes) : M unit :=
  logger_debug "encode " (Some data) ;;
  call (Super_encode data) (fun w => (tt, super_encode E data w)).

Definition decode (data : bytes) : M unit :=
  logger_debug "decode " (Some data) ;;
  call (Super_decode data) (fun w => (tt, super_decode E data w)).

Definition timeout : M unit :=
  me <- get_self ;;
  call (Stack_timeout (_stack me)) (fun w => (tt, stack_timeout E (_stack me) w)).

Definition stdout (data : bytes) : M unit :=
  text <- lift (Codec.decode Codec.replace data) ;;
  fun m =>
    match sys_stdout_write text (sys_stdout m) with
    | inr o => (Val tt, {| self := self m; sys_stdout := o; world := world m;
                           calls := calls m ++ [Sys_stdout_write text] |})
    | inl e => (Exc e, m)
    end.

Definition isWaiting : M bool :=
  z <- zmq ;;
  call (Zmq_isWaiting (ref z)) (fun w => (zmq_isWaiting E (ref z) w, w)).

(** Python's [min(a, b)]: [b] only when [b < a], so [a] when one of them
    is not a number. *)
Definition min (a b : float) : float := if (b <? a)%float then b else a.

Definition poll (timeout_s : option float) : M Ready :=
  logger_debug "poll" None ;;
  waiting <- isWaiting ;;
  timeout_s <-
    (if waiting : bool then
       me <- get_self ;;
       let timeout_s :=
         match timeout_s with
         | None => _timeout_s me
         | Some v => v
         end in
       z <- zmq ;;
       last <- call (Zmq_lastActivity (ref z))
                 (fun w => (zmq_lastActivity E (ref z) w, w)) ;;
       now <- call Time_time (time_time E) ;;
       let remaining := (last + _timeout_s me - now)%float in
       if (remaining <=? 0)%float
       then timeout ;; ret (Some timeout_s)
       else ret (Some (min timeout_s remaining))
     else ret timeout_s) ;;
  z <- zmq ;;
  call (Zmq_poll (ref z) timeout_s) (zmq_poll E (ref z) timeout_s).

(** The [except zmq.ZMQError as e] clause of [recvAll]. *)
Definition except_ZMQError (e : exn) : M unit :=
  match e with
  | ZMQError errno => if (errno =? EAGAIN E)%Z then ret tt else raise_ e
  | _ => raise_ e
  end.

(** [while True: f(socket.recv(flags=zmq.NOBLOCK))], for at most [fuel]
    rounds. *)
Fixpoint drain (fuel : nat) (socket f : nat) : M unit :=
  match fuel with
  | O => fun m => (OutOfFuel, m)
  | S n =>
      frame <- call_raising (Socket_recv socket) (socket_recv E socket) ;;
      call_raising (Handler f frame) (handler E f frame) ;;
      drain n socket f
  end.

Definition recvAll (fuel : nat) (socket f : nat) : M unit :=
  try_ (drain fuel socket f) except_ZMQError.

Definition registerStream (stream : nat) (f : bool) : M Token :=
  z <- zmq ;;
  call (Zmq_registerStream (ref z) stream f)
       (zmq_registerStream E (ref z) stream f).

Definition close : M unit :=
  z <- zmq ;;
  call (Zmq_close (ref z)) (fun w => (tt, zmq_close E (ref z) w)).

(** [__init__(stack, listen, port, timeout_s)], on the [sys.stdout] and
    the world it finds: the fields are set ([_stack] comes with the first
    [reset]), [setInfiniteStdout()] is called, then [reset()].  The base
    class's [__init__] and the logger are left out. *)
Definition __init__ (stack listen : string) (port : Z) (timeout_s : float)
    (out : stdout_obj) (w : World) : result unit * Machine :=
  reset
    {| self := {| _stack_def :=
                    ("zmq=" ++ listen ++ ":"
                       ++ NilZero.string_of_int (Z.to_int port) ++ "," ++ stack)%string;
                  _timeout_s := timeout_s;
                  _stack := [];
                  _zmq := None |};
       sys_stdout := setInfiniteStdout out;
       world := w;
       calls := [] |}.

(** The operations a user of the orchestrator may call, [timeout()]
    itself apart. *)
Inductive op :=
| op_reset
| op_encode (data : bytes)
| op_decode (data : bytes)
| op_stdout (data : bytes)
| op_isWaiting
| op_poll (timeout_s : option float)
| op_recvAll (fuel : nat) (socket f : nat)
| op_registerStream (stream : nat) (f : bool)
| op_zmq
| op_close.

Definition void {A} (c : M A) : M unit := _ <- c ;; ret tt.

Definition run_op (o : op) : M unit :=
  match o with
  | op_reset => reset
  | op_encode data => encode data
  | op_decode data => decode data
  | op_stdout data => stdout data
  | op_isWaiting => void isWaiting
  | op_poll timeout_s => void (poll timeout_s)
  | op_recvAll fuel socket f => recvAll fuel socket f
  | op_registerStream stream f => void (registerStream stream f)
  | op_zmq => void zmq
  | op_close => close
  end.

(** The machine after the calls of [ops], made one after the other
    whatever each one's outcome. *)
Fixpoint run_ops (ops : list op) (m : Machine) : Machine :=
  match ops with
  | [] => m
  | o :: rest => run_ops rest (snd (run_op o m))
  end.

(** The stage that the [zmq] property gives on [me]: the cached one, or
    else the first of the chain. *)
Definition endpoint (me : t) : option Layer :=
  match _zmq me with
  | Some z => Some z
  | None => hd_error (_stack me)
  end.

(** [m] once the property has cached [z]. *)
Definition cache (z : Layer) (m : Machine) : Machine :=
  {| self := set_zmq (Some z) (self m); sys_stdout := sys_stdout m;
     world := world m; calls := calls m |}.

(** How often [self._stack.timeout()] was called. *)
Fixpoint timeouts (cs : list Call) : nat :=
  match cs with
  | [] => 0
  | Stack_timeout _ :: r => S (timeouts r)
  | _ :: r => timeouts r
  end.

(** The [timeout_s] of a [poll(timeout_s)] on a waiting endpoint, once
    [None] has given way to the configured value. *)
Definition given (timeout_s : option float) (me : t) : float :=
  match timeout_s with
  | None => _timeout_s me
  | Some v => v
  end.

(** The [remaining] that a [poll()] on [m] computes:
      self.zmq.lastActivity() + self._timeout_s - time.time()
    the sum rounded, then the difference rounded. *)
Definition remaining (m : Machine) (z : Layer) : float :=
  (zmq_lastActivity E (ref z) (world m) + _timeout_s (self m)
     - fst (time_time E (world m)))%float.

(** The time without transport activity at a [poll()] on [m]: the clock
    less the last activity. *)
Definition idle_time (m : Machine) (z : Layer) : float :=
  (fst (time_time E (world m)) - zmq_lastActivity E (ref z) (world m))%float.

(** Every [poll()] of [ops], run from [m], finds a waiting endpoint idle
    for less than the configured timeout. *)
Fixpoint continuous_activity (ops : list op) (m : Machine) : Prop :=
  match ops with
  | [] => True
  | o :: rest =>
      match o with
      | op_poll _ =>
          forall z, endpoint (self m) = Some z ->
            zmq_isWaiting E (ref z) (world m) = true ->
            (idle_time m z <? _timeout_s (self m))%float = true
      | _ => True
      end
      /\ continuous_activity rest (snd (run_op o m))
  end.

(** Every [poll()] of [ops], run from [m], computes on a waiting endpoint
    a [remaining] that is not [<= 0]. *)
Fixpoint time_remains (ops : list op) (m : Machine) : Prop :=
  match ops with
  | [] => True
  | o :: rest =>
      match o with
      | op_poll _ =>
          forall z, endpoint (self m) = Some z ->
            zmq_isWaiting E (ref z) (world m) = true ->
            (remaining m z <=? 0)%float = false
      | _ => True
      end
      /\ time_remains rest (snd (run_op o m))
  end.

(** From world [w], [socket] gives the frames [frames], each taken by the
    handler [f], and then raises [e], leaving world [w']. *)
Inductive gives (socket f : nat) : World -> list bytes -> exn -> World -> Prop :=
| gives_raise w e w' :
    socket_recv E socket w = (inl e, w') ->
    gives socket f w [] e w'
| gives_frame w frame w1 w2 frames e w' :
    socket_recv E socket w = (inr frame, w1) ->
    handler E f frame w1 = (inr tt, w2) ->
    gives socket f w2 frames e w' ->
    gives socket f w (frame :: frames) e w'.

(** The calls [recvAll] makes for these frames. *)
Definition recv_calls (socket f : nat) (frames : list bytes) : list Call :=
  flat_map (fun frame => [Socket_recv socket; Handler f frame]) frames
  ++ [Socket_recv socket].

Definition with_world (w : World) (cs : list Call) (m : Machine) : Machine :=
  {| self := self m; sys_stdout := sys_stdout m; world := w;
     calls := calls m ++ cs |}.

(** A computation that never calls [self._stack.timeout()]. *)
Definition quiet {A} (c : M A) : Prop :=
  forall m, timeouts (calls (snd (c m))) = timeouts (calls m).

(** A computation that leaves the object alone once the endpoint is
    cached. *)
Definition keeps_cache {A} (c : M A) : Prop :=
  forall m z, _zmq (self m) = Some z -> self (snd (c m)) = self m.

(** A computation that keeps a property of the object. *)
Definition preserves {A} (P : t -> Prop) (c : M A) : Prop :=
  forall m, P (self m) -> P (self (snd (c m))).

(** The cached endpoint, if there is one, is the first stage of the
    chain the object holds. *)
Definition coherent (me : t) : Prop :=
  match _zmq me with
  | None => True
  | Some z => hd_error (_stack me) = Some z
  end.

(** The wait bounds the endpoint was polled with, in order. *)
Fixpoint polled (cs : list Call) : list (option float) :=
  match cs with
  | [] => []
  | Zmq_poll _ timeout_s :: r => timeout_s :: polled r
  | _ :: r => polled r
  end.

(** From world [w], [socket] gives the frames [frames], each taken by the
    handler [f], and then the frame [last], on which the handler raises
    [e], leaving world [w']. *)
Inductive stops_in_handler (socket f : nat) :
    World -> list bytes -> bytes -> exn -> World -> Prop :=
| stops_now w last w1 e w' :
    socket_recv E socket w = (inr last, w1) ->
    handler E f last w1 = (inl e, w') ->
    stops_in_handler socket f w [] last e w'
| stops_later w frame w1 w2 frames last e w' :
    socket_recv E socket w = (inr frame, w1) ->
    handler E f frame w1 = (inr tt, w2) ->
    stops_in_handler socket f w2 frames last e w' ->
    stops_in_handler socket f w (frame :: frames) last e w'.

(** The text that [stdout(data)] writes. *)
Definition text_of (data : bytes) : str :=
  map Codec.replaced (Codec.scan None data).

(** The code point of an ASCII byte. *)
Definition code (x : byte) : Z := Z.of_N (Byte.to_N x).

End Orchestrator.

Arguments Machine World : clear implicits.
Arguments Val {A} a.
Arguments Exc {A} e.
Arguments OutOfFuel {A}.

End Stream2Zmq.

(** ** A small world to run the orchestrator in

    One socket whose pending receives are listed, a handler that keeps
    what it is given, a clock that does not move by itself, and a builder
    that makes the chain zmq, ascii, term out of new objects. *)

Module Demo.
Import Stream2Zmq.

Record World := {
  inbox : list (exn + bytes);
  delivered : list bytes;
  clock : float;
  waiting : bool;
  last_activity : float;
  built : nat
}.

Definition zmq_layer (n : nat) : Layer :=
  {| ref := n; isinstance_TerminalLayer := false; fdout := None |}.

Definition chain (n : nat) : list Layer :=
  [ zmq_layer n;
    {| ref := S n; isinstance_TerminalLayer := false; fdout := None |};
    {| ref := S (S n); isinstance_TerminalLayer := true; fdout := None |} ].

Definition ext : Externals World (list nat) nat :=
  {| default_port := 19026;
     EAGAIN := 11;
     buildStack := fun _ w =>
       (chain (built w),
        {| inbox := inbox w; delivered := delivered w; clock := clock w;
           waiting := waiting w; last_activity := last_activity w;
           built := 3 + built w |});
     wrap := fun _ w => w;
     super_encode := fun _ w => w;
     super_decode := fun _ w => w;
     stack_timeout := fun _ w => w;
     zmq_isWaiting := fun _ w => waiting w;
     zmq_lastActivity := fun _ w => last_activity w;
     time_time := fun w => (clock w, w);
     zmq_poll := fun _ _ w => ([], w);
     zmq_registerStream := fun _ stream _ w => (stream, w);
     zmq_close := fun _ w => w;
     socket_recv := fun _ w =>
       match inbox w with
       | [] => (inl (ZMQError 11), w)
       | r :: rest =>
           (r, {| inbox := rest; delivered := delivered w; clock := clock w;
                  waiting := waiting w; last_activity := last_activity w;
                  built := built w |})
       end;
     handler := fun _ frame w =>
       (inr tt,
        {| inbox := inbox w; delivered := delivered w ++ [frame]; clock := clock w;
           waiting := waiting w; last_activity := last_activity w;
           built := built w |}) |}.

Definition world0 (inbox : list (exn + bytes)) (waiting : bool) (last now : float) : World :=
  {| inbox := inbox; delivered := []; clock := now; waiting := waiting;
     last_activity := last; built := 0 |}.

Definition terminal : InfiniteStdoutBuffer.Sink :=
  {| InfiniteStdoutBuffer.written := []; InfiniteStdoutBuffer.flushes := 0 |}.

(** [Stream2Zmq()] with its default arguments, in the given world. *)
Definition fresh (w : World) : Machine World :=
  snd (__init__ ext "ascii,term" "*" (default_port ext) 1 (Plain terminal) w).

(** The new orchestrator with an endpoint that is not waiting; one that
    waits and was last active five seconds ago; and one that waits and
    was last active half a second ago. *)
Definition idle : Machine World := fresh (world0 [] false 0 5).
Definition overdue : Machine World := fresh (world0 [] true 0 5).
Definition active : Machine World := fresh (world0 [] true 4.5 5).

(** One whose socket has two frames, and the world once they are taken;
    one whose socket fails after a frame, and the world after that. *)
Definition two_frames : Machine World :=
  fresh (world0 [inr [x68]; inr [x69]] false 0 5).

Definition drained : World :=
  {| inbox := []; delivered := [[x68]; [x69]]; clock := 5; waiting := false;
     last_activity := 0; built := 3 |}.

Definition failing : Machine World :=
  fresh (world0 [inr [x68]; inl (ZMQError 4); inr [x69]] false 0 5).

Definition failed : World :=
  {| inbox := [inr [x69]]; delivered := [[x68]]; clock := 5; waiting := false;
     last_activity := 0; built := 3 |}.

(** Some calls on the orchestrator, two polls among them. *)
Definition session : list op :=
  [ op_poll None; op_stdout [x68; x69]; op_recvAll 3 0 0; op_encode [x68];
    op_poll (Some 0.25%float); op_close ].

(** Bytes that are not UTF-8. *)
Definition garbled : bytes := [x68; xff; x69].

(** A buffer with one chunk at the sink, one in the worker's hands and
    two in the queue. *)
Definition busy : InfiniteStdoutBuffer.t :=
  {| InfiniteStdoutBuffer.stdout :=
       {| InfiniteStdoutBuffer.written := [[104%Z]];
          InfiniteStdoutBuffer.flushes := 0 |};
     InfiniteStdoutBuffer._queue :=
       Some {| InfiniteStdoutBuffer.items := [[105%Z]; [33%Z; 10%Z]];
               InfiniteStdoutBuffer.unfinished_tasks := 3 |};
     InfiniteStdoutBuffer._closed := false;
     InfiniteStdoutBuffer._cleanup := Some restore_stdout;
     InfiniteStdoutBuffer._thread := InfiniteStdoutBuffer.AtWrite [72%Z] |}.

(** The same collaborators, with a handler that raises would-block on an
    empty frame; and with a socket that has a frame at every receive. *)
Definition picky : Externals World (list nat) nat :=
  {| default_port := default_port ext;
     EAGAIN := EAGAIN ext;
     buildStack := buildStack ext;
     wrap := wrap ext;
     super_encode := super_encode ext;
     super_decode := super_decode ext;
     stack_timeout := stack_timeout ext;
     zmq_isWaiting := zmq_isWaiting ext;
     zmq_lastActivity := zmq_lastActivity ext;
     time_time := time_time ext;
     zmq_poll := zmq_poll ext;
     zmq_registerStream := zmq_registerStream ext;
     zmq_close := zmq_close ext;
     socket_recv := socket_recv ext;
     handler := fun f frame w =>
       match frame with
       | [] => (inl (ZMQError 11), w)
       | _ => handler ext f frame w
       end |}.

Definition flooding : Externals World (list nat) nat :=
  {| default_port := default_port ext;
     EAGAIN := EAGAIN ext;
     buildStack := buildStack ext;
     wrap := wrap ext;
     super_encode := super_encode ext;
     super_decode := super_decode ext;
     stack_timeout := stack_timeout ext;
     zmq_isWaiting := zmq_isWaiting ext;
     zmq_lastActivity := zmq_lastActivity ext;
     time_time := time_time ext;
     zmq_poll := zmq_poll ext;
     zmq_registerStream := zmq_registerStream ext;
     zmq_close := zmq_close ext;
     socket_recv := fun _ w => (inr [x2e], w);
     handler := handler ext |}.

(** A socket with a frame, an empty frame and one more frame, and the
    world once the handler has raised on the empty one. *)
Definition with_empty_frame : Machine World :=
  fresh (world0 [inr [x68]; inr []; inr [x69]] false 0 5).

Definition stopped : World :=
  {| inbox := [inr [x69]]; delivered := [[x68]]; clock := 5; waiting := false;
     last_activity := 0; built := 3 |}.

(** Some more calls, a [reset] among them. *)
Definition long_session : list op :=
  [ op_zmq; op_poll None; op_reset; op_isWaiting; op_stdout [x68];
    op_reset; op_close ].

(** A run of writes and a flush on the busy buffer, and of writes and a
    close. *)
Definition writing_busy : InfiniteStdoutBuffer.System :=
  InfiniteStdoutBuffer.start busy
    (map InfiniteStdoutBuffer.m_write [[97%Z]; [98%Z]]) [].

Definition flushing_busy : InfiniteStdoutBuffer.System :=
  InfiniteStdoutBuffer.start busy
    (map InfiniteStdoutBuffer.m_write [[97%Z]; [98%Z]]
       ++ [InfiniteStdoutBuffer.m_flush]) [].

Definition write_close_busy : InfiniteStdoutBuffer.System :=
  InfiniteStdoutBuffer.start busy
    (map InfiniteStdoutBuffer.m_write [[97%Z]; [98%Z]]
       ++ [InfiniteStdoutBuffer.m_close]) [].

(** A buffer just made, its worker not yet in [get]. *)
Definition fresh_buffer : InfiniteStdoutBuffer.t :=
  InfiniteStdoutBuffer.__init__ terminal None.

Definition closing_busy : InfiniteStdoutBuffer.System :=
  InfiniteStdoutBuffer.start busy [InfiniteStdoutBuffer.m_close] [].

Definition busy_schedule : list InfiniteStdoutBuffer.tid :=
  InfiniteStdoutBuffer.picks 40 closing_busy.

Definition busy_closed : InfiniteStdoutBuffer.System :=
  InfiniteStdoutBuffer.run 40 closing_busy.

Definition closing_again : InfiniteStdoutBuffer.System :=
  InfiniteStdoutBuffer.start (InfiniteStdoutBuffer.buf busy_closed)
    [InfiniteStdoutBuffer.m_close; InfiniteStdoutBuffer.m_del]
    (InfiniteStdoutBuffer.trace busy_closed).

(** A [write('!')] and a [close()] called from two threads on the buffer
    just made. *)
Definition write_beside_close : InfiniteStdoutBuffer.Duo :=
  InfiniteStdoutBuffer.duo fresh_buffer
    [InfiniteStdoutBuffer.m_write [33%Z]] [InfiniteStdoutBuffer.m_close] [].

(** The writer enters [write] and passes its test; then, in one schedule,
    the closer runs [close()] to its end beside the worker before the
    writer comes to its [put]; in the other the writer puts when the
    closer has set the flag and not yet put its own wakeup chunk. *)
Definition put_after_close : list InfiniteStdoutBuffer.who :=
  [ InfiniteStdoutBuffer.First; InfiniteStdoutBuffer.First;
    InfiniteStdoutBuffer.Second; InfiniteStdoutBuffer.Second;
    InfiniteStdoutBuffer.Second; InfiniteStdoutBuffer.Second;
    InfiniteStdoutBuffer.Second; InfiniteStdoutBuffer.TheWorker;
    InfiniteStdoutBuffer.Second; InfiniteStdoutBuffer.Second;
    InfiniteStdoutBuffer.Second; InfiniteStdoutBuffer.Second;
    InfiniteStdoutBuffer.First ].

Definition put_before_wakeup : list InfiniteStdoutBuffer.who :=
  InfiniteStdoutBuffer.losing_schedule None.

(** An orchestrator with a timeout of 2^-30 s, whose endpoint waits and
    was active at the very moment of the poll, when the clock reads
    1800000000.0: floats that large lie 2^-22 apart. *)
Definition tight : Machine World :=
  snd (__init__ ext "ascii,term" "*" (default_port ext) 0x1p-30 (Plain terminal)
         (world0 [] true 1800000000 1800000000)).

(** One with a timeout of a tenth of a second (the float nearest to 0.1),
    polled when the clock reads the float nearest to that much after the
    last activity. *)
Definition tenth : float := 0x1.999999999999ap-4.

Definition on_the_edge : Machine World :=
  snd (__init__ ext "ascii,term" "*" (default_port ext) tenth (Plain terminal)
         (world0 [] true 1800000000 (1800000000 + tenth)%float)).

(** The process with the buffer that [setInfiniteStdout()] puts over the
    terminal, two calls of [write] and a [close()] to come. *)
Definition installed_terminal : Process :=
  installed
    (InfiniteStdoutBuffer.__init__
       (InfiniteStdoutBuffer.sink_flush terminal) (Some restore_stdout))
    (map InfiniteStdoutBuffer.m_write [[104%Z]; [105%Z]]
       ++ [InfiniteStdoutBuffer.m_close]).

End Demo.

Unset Implicit Arguments.

(** * Properties *)

Module BufferFacts.
Import InfiniteStdoutBuffer.

Lemma cost_frame_app k1 k2 : cost_frame (k1 ++ k2) = cost_frame k1 + cost_frame k2.
Proof. unfold cost_frame. now rewrite map_app, list_sum_app. Qed.

Lemma cost_pos i : 0 < cost i.
Proof. destruct i; simpl; lia. Qed.

(** Every step, of either thread, uses up some of the measure. *)
Lemma step_measure th s s' : step th s = Some s' -> measure s' < measure s.
Proof.
  destruct s as [[[wr fl] q cl c w] [k ms r] tr].
  destruct th; unfold step, step_caller, _worker, measure, queue_len; simpl.
  - destruct r; [discriminate|].
    destruct k as [|i k].
    + destruct ms as [|m ms]; [discriminate|].
      intros H; injection H as <-; simpl. unfold cost_calls; simpl.
      fold (cost_calls ms). lia.
    + pose proof (cost_pos i) as Hi.
      change (cost_frame (i :: k)) with (cost i + cost_frame k).
      destruct i; simpl in *;
        try (intros H; injection H as <-; simpl; unfold cost_frame; simpl; lia).
      * intros H; injection H as <-; simpl. rewrite cost_frame_app.
        fold (cost_frame then_) (cost_frame else_).
        destruct (test c0 _); lia.
      * unfold queue_put; simpl. destruct q as [q|]; simpl;
          intros H; injection H as <-; simpl; [|lia].
        rewrite length_app; simpl. lia.
      * destruct q as [q|]; simpl.
        -- destruct (unfinished_tasks q =? 0); [|discriminate].
           intros H; injection H as <-; simpl. lia.
        -- intros H; injection H as <-; simpl. lia.
      * destruct w; try discriminate; intros H; injection H as <-; simpl; lia.
      * destruct c; intros H; injection H as <-; simpl; lia.
  - destruct w; try discriminate.
    + intros H; injection H as <-; simpl. destruct cl; simpl; lia.
    + destruct q as [q|]; simpl.
      * destruct (items q) as [|d rest] eqn:E; [discriminate|].
        intros H; injection H as <-; simpl. lia.
      * intros H; injection H as <-; simpl. lia.
    + intros H; injection H as <-; simpl. lia.
    + destruct q as [q|]; simpl.
      * destruct (unfinished_tasks q); intros H; injection H as <-; simpl; lia.
      * intros H; injection H as <-; simpl. lia.
Qed.

(** So no execution is longer than the measure of its first state. *)
Lemma exec_measure sched : forall s s',
  exec sched s = Some s' -> List.length sched + measure s' <= measure s.
Proof.
  induction sched as [|th rest IH]; simpl; intros s s' H.
  - injection H as <-. lia.
  - destruct (step th s) as [s1|] eqn:E; [|discriminate].
    apply step_measure in E. apply IH in H. lia.
Qed.

Lemma consistent_queue b : consistent b = true -> exists q, _queue b = Some q.
Proof. unfold consistent. destruct (_queue b) as [q|]; [eauto | discriminate]. Qed.

(** The invariant holds when [close()] is called on an open buffer. *)
Lemma close_inv_init b0 t0 :
  _closed b0 = false -> consistent b0 = true ->
  close_inv b0 t0 (start b0 [m_close] t0).
Proof.
  intros Hc Hk. destruct (consistent_queue _ Hk) as [q Hq].
  destruct b0 as [[wr fl] q0 cl c w]; simpl in *; subst.
  pose proof (@CI_drain (Build_t (Build_Sink wr fl) (Some q) false c w) t0
                [] q w [] [m_close]) as H.
  unfold mk, by_worker in H; simpl in H. rewrite !app_nil_r in H.
  apply H; auto.
Qed.

Ltac step_inv H := injection H as <-; simpl.

Ltac close_case :=
  unfold mk, sent_trace, drained_trace, by_worker, set_thread, _write,
    set_stdout, set_queue, set_closed, sink_write, sink_flush; simpl;
  repeat rewrite <- app_assoc; simpl; rewrite ?app_nil_r, ?map_app; simpl;
  repeat rewrite <- app_assoc; simpl;
  try reflexivity.

Lemma close_inv_eq b0 t0 s s' : close_inv b0 t0 s -> s = s' -> close_inv b0 t0 s'.
Proof. now intros H <-. Qed.

(** Each step of either thread keeps it. *)
Lemma close_inv_step b0 t0 th s s' :
  close_inv b0 t0 s -> step th s = Some s' -> close_inv b0 t0 s'.
Proof.
  intros Hinv Hstep.
  destruct Hinv as
    [done q w k ms Hk Hcons Hpend | w Hw | w Hw | w Hw | | | w Hw
     | sn q Hsn | sn Hsn | sn Hsn | sn f Hsn Hf | sn Hsn];
    destruct th; unfold step, step_caller, _worker in Hstep; simpl in Hstep.
  - (* draining, caller *)
    destruct Hk as [[-> ->] | [[-> ->] | [-> ->]]]; simpl in Hstep.
    + step_inv Hstep. eapply close_inv_eq;
        [ apply (@CI_drain b0 t0 done q w close []); auto | close_case ].
    + step_inv Hstep. eapply close_inv_eq;
        [ apply (@CI_drain b0 t0 done q w (flush ++ after_flush) []); auto
        | close_case ].
    + destruct (Nat.eqb_spec (unfinished_tasks q) 0) as [E|E]; [|discriminate].
      step_inv Hstep. destruct q as [its n]; simpl in *; subst n.
      unfold consistent in Hcons; simpl in Hcons.
      destruct w; try discriminate; destruct its; try discriminate;
        unfold pending_chunks in Hpend at 2; simpl in Hpend;
        rewrite app_nil_r in Hpend; rewrite <- Hpend;
        (eapply close_inv_eq; [ eapply CI_joined | close_case ]; auto).
  - (* draining, worker *)
    unfold consistent in Hcons; simpl in Hcons.
    unfold pending_chunks in Hpend at 2; simpl in Hpend.
    destruct w; try discriminate; simpl in Hstep.
    + step_inv Hstep. eapply close_inv_eq;
        [ apply (@CI_drain b0 t0 done q AtGet k ms); auto | close_case ].
    + destruct q as [its n]; simpl in *. destruct its as [|d rest]; [discriminate|].
      step_inv Hstep. eapply close_inv_eq;
        [ apply (@CI_drain b0 t0 done (Build_Queue rest n) (AtWrite d) k ms); auto
        | close_case ].
    + step_inv Hstep. eapply close_inv_eq;
        [ apply (@CI_drain b0 t0 (done ++ [d]) q AtTaskDone k ms); auto;
          unfold pending_chunks; simpl; now rewrite <- app_assoc
        | close_case ].
    + destruct q as [its n]; simpl in *. destruct n as [|n]; [discriminate|].
      step_inv Hstep. eapply close_inv_eq;
        [ apply (@CI_drain b0 t0 done (Build_Queue its n) AtLoop k ms); auto
        | close_case ].
  - (* joined, caller: mark closed *)
    step_inv Hstep. eapply close_inv_eq;
      [ apply (@CI_marked b0 t0 w); tauto | close_case ].
  - destruct Hw as [-> | ->]; simpl in Hstep; [|discriminate].
    step_inv Hstep. eapply close_inv_eq;
      [ apply (@CI_joined b0 t0 AtGet); tauto | close_case ].
  - (* marked, caller: put the wakeup item *)
    step_inv Hstep. eapply close_inv_eq;
      [ apply (@CI_put_waiting b0 t0 w); tauto | close_case ].
  - destruct Hw as [-> | [-> | ->]]; simpl in Hstep; try discriminate.
    step_inv Hstep. eapply close_inv_eq;
      [ apply (@CI_marked b0 t0 Exited); tauto | close_case ].
  - (* put, item waiting, caller: join the thread *)
    destruct Hw as [-> | [-> | ->]]; simpl in Hstep; try discriminate.
    step_inv Hstep. eapply close_inv_eq;
      [ eapply (@CI_thread_joined b0 t0 []); left; eauto | close_case ].
  - destruct Hw as [-> | [-> | ->]]; simpl in Hstep; try discriminate.
    + step_inv Hstep. eapply close_inv_eq;
        [ apply (@CI_put_waiting b0 t0 Exited); tauto | close_case ].
    + step_inv Hstep. eapply close_inv_eq;
        [ apply (@CI_put_taken b0 t0) | close_case ].
  - discriminate.
  - step_inv Hstep. eapply close_inv_eq;
      [ apply (@CI_put_written b0 t0) | close_case ].
  - discriminate.
  - step_inv Hstep. eapply close_inv_eq;
      [ apply (@CI_put_done b0 t0 AtLoop); tauto | close_case ].
  - destruct Hw as [-> | ->]; simpl in Hstep; try discriminate.
    step_inv Hstep. eapply close_inv_eq;
      [ eapply (@CI_thread_joined b0 t0 [empty_str]); right; eauto | close_case ].
  - destruct Hw as [-> | ->]; simpl in Hstep; try discriminate.
    step_inv Hstep. eapply close_inv_eq;
      [ apply (@CI_put_done b0 t0 Exited); tauto | close_case ].
  - (* thread joined, caller: drop the queue *)
    step_inv Hstep. eapply close_inv_eq;
      [ apply (@CI_dropped b0 t0 sn); destruct Hsn as [[-> _]|[-> _]]; tauto
      | close_case ].
  - discriminate.
  - step_inv Hstep. eapply close_inv_eq;
      [ apply (@CI_flushed b0 t0 sn); auto | close_case ].
  - discriminate.
  - (* flushed, caller: the test on the callback *)
    destruct (_cleanup b0) as [f|] eqn:Ef; simpl in Hstep; step_inv Hstep.
    + eapply close_inv_eq;
        [ apply (@CI_cleanup b0 t0 sn f); auto | rewrite Ef; close_case ].
    + eapply close_inv_eq;
        [ apply (@CI_returned b0 t0 sn); auto | rewrite Ef; close_case ].
  - discriminate.
  - rewrite Hf in Hstep. step_inv Hstep. eapply close_inv_eq;
      [ apply (@CI_returned b0 t0 sn); auto | rewrite Hf; close_case ].
  - discriminate.
  - discriminate.
  - discriminate.
Qed.

Lemma close_inv_exec b0 t0 sched : forall s s',
  close_inv b0 t0 s -> exec sched s = Some s' -> close_inv b0 t0 s'.
Proof.
  induction sched as [|th rest IH]; simpl; intros s s' Hinv H.
  - now injection H as <-.
  - destruct (step th s) as [s1|] eqn:E; [|discriminate].
    eapply IH; [eapply close_inv_step; eauto | exact H].
Qed.

Lemma close_inv_raised b0 t0 s : close_inv b0 t0 s -> raised (caller s) = None.
Proof. now destruct 1. Qed.

(** While [close()] has not returned, one of the two threads can step:
    neither [join] waits for ever. *)
Lemma close_inv_progress b0 t0 s :
  close_inv b0 t0 s -> returned s = false -> exists th, step th s <> None.
Proof.
  intros Hinv Hret.
  destruct Hinv as
    [done q w k ms Hk Hcons Hpend | w Hw | w Hw | w Hw | | | w Hw
     | sn q Hsn | sn Hsn | sn Hsn | sn f Hsn Hf | sn Hsn];
    try (exists T_caller; unfold step, step_caller; simpl; discriminate).
  - destruct Hk as [[-> ->] | [[-> ->] | [-> ->]]];
      try (exists T_caller; unfold step, step_caller; simpl; discriminate).
    unfold consistent in Hcons; simpl in Hcons. destruct q as [its n]; simpl in *.
    destruct w; try discriminate;
      try (exists T_worker; unfold step, _worker; simpl; discriminate).
    + destruct its as [|d rest].
      * apply Nat.eqb_eq in Hcons; simpl in Hcons; subst n.
        exists T_caller; unfold step, step_caller; simpl; discriminate.
      * exists T_worker; unfold step, _worker; simpl; discriminate.
    + apply Nat.eqb_eq in Hcons; subst n.
      exists T_worker; unfold step, _worker; simpl; discriminate.
  - destruct Hw as [-> | [-> | ->]];
      solve [ exists T_worker; unfold step, _worker; simpl; discriminate
            | exists T_caller; unfold step, step_caller; simpl; discriminate ].
  - exists T_worker; unfold step, _worker; simpl; discriminate.
  - exists T_worker; unfold step, _worker; simpl; discriminate.
  - destruct Hw as [-> | ->];
      solve [ exists T_worker; unfold step, _worker; simpl; discriminate
            | exists T_caller; unfold step, step_caller; simpl; discriminate ].
  - exists T_caller; unfold step, step_caller; simpl. rewrite Hf. discriminate.
Qed.

(** The state in which [close()] returns. *)
Lemma close_inv_returned b0 t0 s :
  close_inv b0 t0 s -> returned s = true ->
  exists sn, (sn = [] \/ sn = [empty_str]) /\
    s = mk (written (stdout b0) ++ pending_chunks b0 ++ sn)
           (S (flushes (stdout b0))) None true (_cleanup b0) Exited [] []
           (sent_trace b0 t0 sn ++ [WorkerJoined; QueueDiscarded; SinkFlushed]
              ++ cleanup_events (_cleanup b0)).
Proof.
  intros Hinv Hret.
  destruct Hinv as
    [done q w k ms Hk Hcons Hpend | w Hw | w Hw | w Hw | | | w Hw
     | sn q Hsn | sn Hsn | sn Hsn | sn f Hsn Hf | sn Hsn];
    try discriminate.
  - destruct Hk as [[-> ->] | [[-> ->] | [-> ->]]]; discriminate.
  - exists sn; auto.
Qed.

(** [run] follows a schedule, and stops early only when no thread can
    step. *)
Lemma run_exec fuel : forall s,
  exists sched, exec sched s = Some (run fuel s) /\
    List.length sched <= fuel /\
    (List.length sched < fuel ->
       step_caller (run fuel s) = None /\ _worker (run fuel s) = None).
Proof.
  induction fuel as [|n IH]; intros s; simpl.
  - exists []; simpl; repeat split; auto; lia.
  - destruct (step_caller s) as [s1|] eqn:Ec.
    + destruct (IH s1) as (sched & He & Hl & Hs).
      exists (T_caller :: sched); simpl. rewrite Ec.
      split; [assumption|]. split; [lia|]. intros; apply Hs; lia.
    + destruct (_worker s) as [s1|] eqn:Ew.
      * destruct (IH s1) as (sched & He & Hl & Hs).
        exists (T_worker :: sched); simpl. rewrite Ew.
        split; [assumption|]. split; [lia|]. intros; apply Hs; lia.
      * exists []; simpl; repeat split; auto; lia.
Qed.

Lemma close_run_returns b t0 :
  _closed b = false -> consistent b = true ->
  let s0 := start b [m_close] t0 in
  returned (run (measure s0) s0) = true.
Proof.
  intros Hc Hk s0.
  destruct (run_exec (measure s0) s0) as (sched & He & Hl & Hs).
  pose proof (@close_inv_exec b t0 sched _ _ (@close_inv_init b t0 Hc Hk) He) as Hinv.
  pose proof (@exec_measure sched _ _ He) as Hm.
  destruct (returned (run (measure s0) s0)) eqn:Hr; [reflexivity|].
  destruct (close_inv_progress _ _ _ Hinv Hr) as [th Hth].
  destruct (step th (run (measure s0) s0)) as [s2|] eqn:E2; [|congruence].
  pose proof (@step_measure th _ _ E2) as Hlt.
  assert (List.length sched < measure s0) as Hshort by lia.
  destruct (Hs Hshort) as [H1 H2].
  destruct th; unfold step in E2; [rewrite H1 in E2 | rewrite H2 in E2];
    discriminate.
Qed.

(** A buffer whose [close()] has completed. *)
Lemma closed_after_close b t0 sched s1 :
  _closed b = false -> consistent b = true ->
  exec sched (start b [m_close] t0) = Some s1 -> returned s1 = true ->
  _closed (buf s1) = true /\ _queue (buf s1) = None /\ _thread (buf s1) = Exited.
Proof.
  intros Hc Hk He Hr.
  pose proof (@close_inv_exec b t0 sched _ _ (@close_inv_init b t0 Hc Hk) He) as Hinv.
  destruct (close_inv_returned _ _ _ Hinv Hr) as (sn & _ & ->). simpl. auto.
Qed.

Definition closing (m : method) : Prop := m = m_close \/ m = m_del.

(** On a closed buffer whose worker has left, [close()] and [__del__()]
    change nothing, whatever the schedule. *)
Lemma closed_noop b t0 sched : forall s s',
  _closed b = true -> _thread b = Exited ->
  buf s = b -> trace s = t0 -> raised (caller s) = None ->
  Forall closing (pending (caller s)) ->
  (frame (caller s) = [] \/ frame (caller s) = close
     \/ frame (caller s) = Return :: tl close) ->
  exec sched s = Some s' ->
  buf s' = b /\ trace s' = t0 /\ raised (caller s') = None /\
  (returned s' = false -> step T_caller s' <> None).
Proof.
  induction sched as [|th rest IH]; simpl; intros s s' Hc Ht Hb Htr Hr Hp Hf He.
  - injection He as <-. repeat split; auto.
    intros Hret. unfold step, step_caller. rewrite Hr.
    destruct s as [bb [k ms r] tr]; simpl in *; subst.
    destruct Hf as [-> | [-> | ->]]; simpl; try discriminate.
    destruct ms; [discriminate|]. discriminate.
  - destruct (step th s) as [s1|] eqn:E; [|discriminate].
    destruct s as [bb [k ms r] tr]; simpl in *; subst.
    destruct th; unfold step_caller, _worker in E; simpl in E.
    + destruct Hf as [-> | [-> | ->]]; unfold step_caller in E; simpl in E.
      * destruct ms as [|m ms]; [discriminate|]. injection E as <-.
        inversion Hp as [|? ? Hm Hms]; subst.
        eapply IH; eauto; simpl; rewrite ?app_nil_r; auto.
        destruct Hm as [-> | ->]; auto.
      * rewrite Hc in E. injection E as <-.
        eapply IH; eauto; simpl; rewrite ?app_nil_r; auto.
      * injection E as <-.
        eapply IH; eauto; simpl; rewrite ?app_nil_r; auto.
    + unfold _worker in E; simpl in E. rewrite Ht in E. discriminate.
Qed.

(** [consistent] is what [__init__] sets up and what [write] and the
    worker keep while the buffer is open. *)
Lemma consistent_init out c : consistent (__init__ out c) = true.
Proof. reflexivity. Qed.

Lemma consistent_write d b b' :
  consistent b = true -> _closed b = false -> write d b = inr b' ->
  consistent b' = true.
Proof.
  unfold write, queue_put, consistent. intros Hk Hc. rewrite Hc.
  destruct b as [k [q|] cl c w]; simpl in *; [|discriminate].
  intros H; injection H as <-; simpl.
  destruct w; try discriminate; rewrite length_app;
    apply Nat.eqb_eq in Hk; rewrite Hk; simpl;
    rewrite Nat.add_1_r; simpl; apply Nat.eqb_refl.
Qed.

Lemma consistent_worker s s' :
  consistent (buf s) = true -> _worker s = Some s' ->
  consistent (buf s') = true \/ _closed (buf s) = true.
Proof.
  destruct s as [[k q cl c w] cr tr]; unfold _worker, consistent; simpl.
  destruct q as [[its n]|]; [|discriminate]. simpl.
  destruct w; try discriminate; intros Hk H.
  - injection H as <-; simpl. destruct cl; auto.
  - destruct its as [|d rest]; [discriminate|]. injection H as <-; simpl. auto.
  - injection H as <-; simpl. auto.
  - destruct n as [|n]; [discriminate|]. injection H as <-; simpl. auto.
Qed.

(** A [write(chunk)] by the only calling thread.  On an open buffer in
    order it puts the chunk at the back of the queue and counts it as
    unfinished, and gives the sink nothing; once the closed flag is set
    it gives the chunk to the sink itself, at the end of what the sink
    has, and leaves the queue alone.  The caller's thread does it in
    three steps of its own, waiting for nobody. *)
Theorem write_enqueues_or_writes (chunk : str) (b : t) (tr : list event) :
  consistent b = true \/ _closed b = true ->
  (_closed b = false ->
     exists q, _queue b = Some q /\
       write chunk b = inr (set_queue (Some (Queue_put chunk q)) b) /\
       exec [T_caller; T_caller; T_caller] (start b [m_write chunk] tr)
         = Some (start (set_queue (Some (Queue_put chunk q)) b) []
                   (tr ++ [Enqueued chunk])) /\
       stdout (set_queue (Some (Queue_put chunk q)) b) = stdout b /\
       pending_chunks (set_queue (Some (Queue_put chunk q)) b)
         = pending_chunks b ++ [chunk])
  /\
  (_closed b = true ->
     write chunk b = inr (_write chunk b) /\
     exec [T_caller; T_caller; T_caller] (start b [m_write chunk] tr)
       = Some (start (_write chunk b) [] (tr ++ [Wrote T_caller chunk])) /\
     written (stdout (_write chunk b)) = written (stdout b) ++ [chunk] /\
     _queue (_write chunk b) = _queue b).
Proof.
  intros Hk. split; intros Hc.
  - destruct Hk as [Hk | Hk]; [|congruence].
    destruct (consistent_queue _ Hk) as [q Hq]. exists q.
    destruct b as [k q0 cl c w]; simpl in *; subst.
    split; [reflexivity|]. split; [reflexivity|]. split.
    { unfold step_caller; simpl. now rewrite !app_nil_r. }
    split; [reflexivity|].
    unfold pending_chunks; simpl. unfold consistent in Hk; simpl in Hk.
    destruct w; try discriminate; reflexivity.
  - destruct b as [k q0 cl c w]; simpl in *; subst.
    split; [reflexivity|]. split; [|split; reflexivity].
    unfold step_caller; simpl. now rewrite !app_nil_r.
Qed.

(** C4. The first [close()], on an open buffer however far the worker
    has come, under every schedule of the two threads: it raises nothing;
    it cannot go on for ever, and while it has not returned one of the
    threads can step, so it returns; and when it has returned, the trace
    shows the pending chunks given to the sink in their order, then the
    queue joined, the buffer marked closed, the empty chunk enqueued (and
    perhaps taken to the sink by the worker), the worker joined, the queue
    discarded, the sink flushed and the callback called if there is one.
    The sink then holds what it held, every pending chunk once, and at
    most the empty chunk. *)
Theorem close_performs_sequence (b : t) (tr : list event) (sched : list tid)
    (s' : System) :
  _closed b = false -> consistent b = true ->
  exec sched (start b [m_close] tr) = Some s' ->
  raised (caller s') = None
  /\ List.length sched <= measure (start b [m_close] tr)
  /\ (returned s' = false -> exists th, step th s' <> None)
  /\ returned (run (measure (start b [m_close] tr)) (start b [m_close] tr)) = true
  /\ (returned s' = true ->
        exists sentinel, (sentinel = [] \/ sentinel = [empty_str]) /\
          trace s' =
            tr ++ by_worker (pending_chunks b)
               ++ [QueueJoined; MarkedClosed; Enqueued empty_str]
               ++ by_worker sentinel
               ++ [WorkerJoined; QueueDiscarded; SinkFlushed]
               ++ cleanup_events (_cleanup b)
          /\ written (stdout (buf s'))
               = written (stdout b) ++ pending_chunks b ++ sentinel
          /\ flushes (stdout (buf s')) = S (flushes (stdout b))
          /\ _closed (buf s') = true
          /\ _queue (buf s') = None
          /\ _thread (buf s') = Exited).
Proof.
  intros Hc Hk He.
  pose proof (@close_inv_exec b tr sched _ _ (@close_inv_init b tr Hc Hk) He) as Hinv.
  split; [exact (close_inv_raised _ _ _ Hinv)|].
  split; [pose proof (@exec_measure sched _ _ He); lia|].
  split; [exact (close_inv_progress _ _ _ Hinv)|].
  split; [exact (close_run_returns b tr Hc Hk)|].
  intros Hr. destruct (close_inv_returned _ _ _ Hinv Hr) as (sn & Hsn & ->).
  exists sn. split; [exact Hsn|]. simpl.
  unfold sent_trace, drained_trace. rewrite <- !app_assoc. simpl.
  repeat split.
Qed.

Lemma cost_calls_closing ms :
  Forall closing ms -> cost_calls ms = 15 * List.length ms.
Proof.
  induction 1 as [|m ms Hm _ IH]; [reflexivity|].
  change (cost_calls (m :: ms)) with (S (cost_frame (body m)) + cost_calls ms).
  rewrite IH. destruct Hm as [-> | ->]; simpl List.length;
    change (cost_frame (body _)) with 14; lia.
Qed.

(** C6. Once a first [close()] has returned, further calls of [close()]
    or [__del__()], any number of them and under every schedule, leave
    the buffer and the trace as the first call left them: nothing more
    reaches the sink, the callback is not called again, nothing is
    raised, and each call goes on to return. *)
Theorem close_idempotent (b : t) (tr : list event) (sched1 : list tid)
    (s1 : System) (again : list method) (sched2 : list tid) (s2 : System) :
  _closed b = false -> consistent b = true ->
  exec sched1 (start b [m_close] tr) = Some s1 -> returned s1 = true ->
  Forall closing again ->
  exec sched2 (start (buf s1) again (trace s1)) = Some s2 ->
  buf s2 = buf s1
  /\ trace s2 = trace s1
  /\ raised (caller s2) = None
  /\ (returned s2 = false -> step T_caller s2 <> None)
  /\ List.length sched2 <= 15 * List.length again.
Proof.
  intros Hc Hk He1 Hr1 Hag He2.
  destruct (closed_after_close _ _ _ _ Hc Hk He1 Hr1) as (Hcl & Hq & Hth).
  destruct (@closed_noop (buf s1) (trace s1) sched2
              (start (buf s1) again (trace s1)) s2) as (H1 & H2 & H3 & H4);
    simpl; auto.
  repeat split; auto.
  pose proof (@exec_measure sched2 _ _ He2) as Hm.
  assert (measure (start (buf s1) again (trace s1)) = 15 * List.length again) as Hms.
  { unfold measure, queue_len; simpl. rewrite Hq, Hth.
    rewrite (cost_calls_closing _ Hag). simpl. lia. }
  lia.
Qed.

(** C10. Once [close()] has returned the queue is gone: [flush()] then
    ends in AttributeError at its second step and under no schedule
    returns, while [write(chunk)] gives the chunk to the sink and
    returns. *)
Theorem flush_after_close_raises (b : t) (tr : list event) (sched1 : list tid)
    (s1 : System) (chunk : str) :
  _closed b = false -> consistent b = true ->
  exec sched1 (start b [m_close] tr) = Some s1 -> returned s1 = true ->
  _queue (buf s1) = None
  /\ (exists s2, exec [T_caller; T_caller] (start (buf s1) [m_flush] (trace s1)) = Some s2
        /\ raised (caller s2) = Some AttributeError
        /\ buf s2 = buf s1)
  /\ (forall sched s2, exec sched (start (buf s1) [m_flush] (trace s1)) = Some s2 ->
        returned s2 = false)
  /\ write chunk (buf s1) = inr (_write chunk (buf s1))
  /\ written (stdout (_write chunk (buf s1))) = written (stdout (buf s1)) ++ [chunk]
  /\ exec [T_caller; T_caller; T_caller] (start (buf s1) [m_write chunk] (trace s1))
       = Some (start (_write chunk (buf s1)) [] (trace s1 ++ [Wrote T_caller chunk])).
Proof.
  intros Hc Hk He1 Hr1.
  destruct (closed_after_close _ _ _ _ Hc Hk He1 Hr1) as (Hcl & Hq & Hth).
  destruct s1 as [[k q cl c w] cr tr1]; simpl in *; subst.
  split; [reflexivity|]. split.
  { eexists; simpl. unfold step_caller; simpl. repeat split. }
  split.
  { intros sched s2.
    destruct sched as [|th1 sched]; simpl.
    { intros H; injection H as <-; reflexivity. }
    destruct th1; unfold step_caller, _worker; simpl; [|discriminate].
    destruct sched as [|th2 sched]; simpl.
    { intros H; injection H as <-; reflexivity. }
    destruct th2; unfold step_caller, _worker; simpl; [|discriminate].
    destruct sched as [|th3 sched]; simpl.
    { intros H; injection H as <-; reflexivity. }
    destruct th3; unfold step_caller, _worker; simpl; discriminate. }
  split; [reflexivity|]. split; [reflexivity|].
  unfold step_caller; simpl. now rewrite !app_nil_r.
Qed.

Lemma write_enqueues_or_writes_witness :
  (_closed Demo.busy = false ->
     exists q, _queue Demo.busy = Some q /\
       write [33%Z] Demo.busy
         = inr (set_queue (Some (Queue_put [33%Z] q)) Demo.busy) /\
       exec [T_caller; T_caller; T_caller] (start Demo.busy [m_write [33%Z]] [])
         = Some (start (set_queue (Some (Queue_put [33%Z] q)) Demo.busy) []
                   ([] ++ [Enqueued [33%Z]])) /\
       stdout (set_queue (Some (Queue_put [33%Z] q)) Demo.busy) = stdout Demo.busy /\
       pending_chunks (set_queue (Some (Queue_put [33%Z] q)) Demo.busy)
         = pending_chunks Demo.busy ++ [[33%Z]])
  /\
  (_closed Demo.busy = true ->
     write [33%Z] Demo.busy = inr (_write [33%Z] Demo.busy) /\
     exec [T_caller; T_caller; T_caller] (start Demo.busy [m_write [33%Z]] [])
       = Some (start (_write [33%Z] Demo.busy) [] ([] ++ [Wrote T_caller [33%Z]])) /\
     written (stdout (_write [33%Z] Demo.busy))
       = written (stdout Demo.busy) ++ [[33%Z]] /\
     _queue (_write [33%Z] Demo.busy) = _queue Demo.busy).
Proof.
  apply (write_enqueues_or_writes [33%Z] Demo.busy []).
  left. reflexivity.
Defined.

Lemma close_performs_sequence_witness :
  raised (caller Demo.busy_closed) = None
  /\ List.length Demo.busy_schedule <= measure Demo.closing_busy
  /\ (returned Demo.busy_closed = false -> exists th, step th Demo.busy_closed <> None)
  /\ returned (run (measure Demo.closing_busy) Demo.closing_busy) = true
  /\ (returned Demo.busy_closed = true ->
        exists sentinel, (sentinel = [] \/ sentinel = [empty_str]) /\
          trace Demo.busy_closed =
            [] ++ by_worker (pending_chunks Demo.busy)
               ++ [QueueJoined; MarkedClosed; Enqueued empty_str]
               ++ by_worker sentinel
               ++ [WorkerJoined; QueueDiscarded; SinkFlushed]
               ++ cleanup_events (_cleanup Demo.busy)
          /\ written (stdout (buf Demo.busy_closed))
               = written (stdout Demo.busy) ++ pending_chunks Demo.busy ++ sentinel
          /\ flushes (stdout (buf Demo.busy_closed)) = S (flushes (stdout Demo.busy))
          /\ _closed (buf Demo.busy_closed) = true
          /\ _queue (buf Demo.busy_closed) = None
          /\ _thread (buf Demo.busy_closed) = Exited).
Proof.
  apply (close_performs_sequence Demo.busy [] Demo.busy_schedule Demo.busy_closed);
    reflexivity.
Defined.

Lemma close_idempotent_witness :
  buf (run 10 Demo.closing_again) = buf Demo.busy_closed
  /\ trace (run 10 Demo.closing_again) = trace Demo.busy_closed
  /\ raised (caller (run 10 Demo.closing_again)) = None
  /\ (returned (run 10 Demo.closing_again) = false ->
        step T_caller (run 10 Demo.closing_again) <> None)
  /\ List.length (picks 10 Demo.closing_again) <= 15 * 2.
Proof.
  apply (close_idempotent Demo.busy [] Demo.busy_schedule Demo.busy_closed
           [m_close; m_del] (picks 10 Demo.closing_again)
           (run 10 Demo.closing_again)); try reflexivity.
  constructor; [left; reflexivity|].
  constructor; [right; reflexivity|]. constructor.
Defined.

Lemma flush_after_close_raises_witness :
  _queue (buf Demo.busy_closed) = None
  /\ (exists s2,
        exec [T_caller; T_caller]
          (start (buf Demo.busy_closed) [m_flush] (trace Demo.busy_closed)) = Some s2
        /\ raised (caller s2) = Some AttributeError
        /\ buf s2 = buf Demo.busy_closed)
  /\ (forall sched s2,
        exec sched (start (buf Demo.busy_closed) [m_flush] (trace Demo.busy_closed))
          = Some s2 ->
        returned s2 = false)
  /\ write [10%Z] (buf Demo.busy_closed) = inr (_write [10%Z] (buf Demo.busy_closed))
  /\ written (stdout (_write [10%Z] (buf Demo.busy_closed)))
       = written (stdout (buf Demo.busy_closed)) ++ [[10%Z]]
  /\ exec [T_caller; T_caller; T_caller]
       (start (buf Demo.busy_closed) [m_write [10%Z]] (trace Demo.busy_closed))
     = Some (start (_write [10%Z] (buf Demo.busy_closed)) []
               (trace Demo.busy_closed ++ [Wrote T_caller [10%Z]])).
Proof.
  apply (flush_after_close_raises Demo.busy [] Demo.busy_schedule Demo.busy_closed
           [10%Z]); reflexivity.
Defined.

End BufferFacts.

(** * Comparisons of floats, and Python's [min] *)

Module FloatFacts.

Lemma ltb_leb x y : (x <? y)%float = true -> (x <=? y)%float = true.
Proof.
  rewrite ltb_spec, leb_spec. unfold SFltb, SFleb.
  destruct (SFcompare (Prim2SF x) (Prim2SF y)) as [[| |]|]; congruence.
Qed.

Lemma SFcompare_refl x : x <> S754_nan -> SFcompare x x = Some Eq.
Proof.
  destruct x as [s|s| |s m e]; simpl; intros H; try congruence.
  - now destruct s.
  - destruct s; rewrite Z.compare_refl, Pos.compare_cont_refl; reflexivity.
Qed.

Lemma SFcompare_antisym x y :
  x <> S754_nan -> y <> S754_nan ->
  exists c, SFcompare x y = Some c /\ SFcompare y x = Some (CompOpp c).
Proof.
  destruct x as [s|s| |s m e], y as [s'|s'| |s' m' e']; simpl; intros Hx Hy;
    try congruence; try (destruct s; eexists; split; reflexivity);
    try (destruct s'; eexists; split; reflexivity);
    try (eexists; split; reflexivity).
  - destruct s, s'; eexists; split; reflexivity.
  - destruct s, s'; try (eexists; split; reflexivity);
      assert (Pos.compare_cont Eq m' m = CompOpp (Pos.compare_cont Eq m m')) as ->
        by (symmetry; apply (Pos.compare_cont_antisym m m' Eq));
      rewrite (Z.compare_antisym e e');
      destruct (e ?= e')%Z; simpl; eexists; split; try reflexivity;
      simpl; now rewrite ?CompOpp_involutive.
Qed.

Lemma is_nan_SF x : is_nan x = false -> Prim2SF x <> S754_nan.
Proof.
  unfold is_nan. rewrite FloatAxioms.eqb_spec. unfold SFeqb.
  intros H E. rewrite E in H. simpl in H. discriminate.
Qed.

Lemma leb_refl x : is_nan x = false -> (x <=? x)%float = true.
Proof.
  intros H. rewrite leb_spec. unfold SFleb.
  now rewrite (SFcompare_refl _ (is_nan_SF x H)).
Qed.

Lemma not_ltb_leb x y :
  is_nan x = false -> is_nan y = false ->
  (y <? x)%float = false -> (x <=? y)%float = true.
Proof.
  intros Hx Hy. rewrite ltb_spec, leb_spec. unfold SFltb, SFleb.
  destruct (SFcompare_antisym _ _ (is_nan_SF x Hx) (is_nan_SF y Hy)) as (c & -> & ->).
  destruct c; simpl; congruence.
Qed.

(** [min(a, b)] is one of the two, and among numbers the smaller. *)
Lemma min_either a b : Stream2Zmq.min a b = a \/ Stream2Zmq.min a b = b.
Proof. unfold Stream2Zmq.min. destruct (b <? a)%float; auto. Qed.

Lemma min_le_l a b : is_nan a = false -> (Stream2Zmq.min a b <=? a)%float = true.
Proof.
  intros Ha. unfold Stream2Zmq.min. destruct (b <? a)%float eqn:Hba.
  - now apply ltb_leb.
  - now apply leb_refl.
Qed.

Lemma min_le_r a b :
  is_nan a = false -> is_nan b = false ->
  (Stream2Zmq.min a b <=? b)%float = true.
Proof.
  intros Ha Hb. unfold Stream2Zmq.min. destruct (b <? a)%float eqn:Hba.
  - now apply leb_refl.
  - now apply not_ltb_leb.
Qed.

End FloatFacts.

Module RelayFacts.
Import Stream2Zmq.

Section Facts.

Context {World Ready Token : Type}.
Variable E : Externals World Ready Token.

Let Machine := Machine World.
Let M := @M World.

Lemma bind_val {A B} (c : M A) (k : A -> M B) (m m' : Machine) a :
  c m = (Val a, m') -> bind c k m = k a m'.
Proof. unfold bind. now intros ->. Qed.

Lemma bind_exc {A B} (c : M A) (k : A -> M B) (m m' : Machine) e :
  c m = (Exc e, m') -> bind c k m = (Exc e, m').
Proof. unfold bind. now intros ->. Qed.

(** The [zmq] property gives the endpoint and leaves it cached. *)
Lemma zmq_run (m : Machine) z :
  endpoint (self m) = Some z -> zmq m = (Val z, cache z m).
Proof.
  destruct m as [[def t st zc] o w cs]; unfold endpoint, zmq, cache, bind; simpl.
  destruct zc as [z'|]; simpl.
  - intros H; injection H as ->. reflexivity.
  - destruct st as [|l st]; simpl; [discriminate|].
    intros H; injection H as ->. reflexivity.
Qed.

Lemma zmq_empty (m : Machine) :
  endpoint (self m) = None -> zmq m = (Exc StopIteration, m).
Proof.
  destruct m as [[def t st zc] o w cs]; unfold endpoint, zmq, bind; simpl.
  destruct zc as [z'|]; simpl; [discriminate|].
  destruct st as [|l st]; simpl; [reflexivity | discriminate].
Qed.

Lemma isWaiting_run (m : Machine) z :
  endpoint (self m) = Some z ->
  isWaiting E m =
    (Val (zmq_isWaiting E (ref z) (world m)),
     with_world (world m) [Zmq_isWaiting (ref z)] (cache z m)).
Proof.
  intros Hz. unfold isWaiting. rewrite (bind_val _ _ _ _ _ (zmq_run m z Hz)).
  reflexivity.
Qed.

(** [poll] when the endpoint is not waiting. *)
Lemma poll_idle_run (m : Machine) (timeout_s : option float) z :
  endpoint (self m) = Some z ->
  zmq_isWaiting E (ref z) (world m) = false ->
  poll E timeout_s m =
    (Val (fst (zmq_poll E (ref z) timeout_s (world m))),
     with_world (snd (zmq_poll E (ref z) timeout_s (world m)))
       [Logger_debug "poll" None; Zmq_isWaiting (ref z);
        Zmq_poll (ref z) timeout_s]
       (cache z m)).
Proof.
  intros Hz Hw. unfold poll, logger_debug.
  unfold bind at 1; simpl.
  erewrite bind_val; [|apply isWaiting_run; simpl; exact Hz].
  simpl. rewrite Hw. unfold bind at 1; simpl.
  erewrite bind_val; [|apply zmq_run; reflexivity].
  unfold call, with_world, cache; simpl. now rewrite <- !app_assoc.
Qed.

(** [poll] when the endpoint waits and the time is up. *)
Lemma poll_expired_run (m : Machine) (timeout_s : option float) z :
  endpoint (self m) = Some z ->
  zmq_isWaiting E (ref z) (world m) = true ->
  (remaining E m z <=? 0)%float = true ->
  let w1 := stack_timeout E (_stack (self m)) (snd (time_time E (world m))) in
  let bound := Some (given timeout_s (self m)) in
  poll E timeout_s m =
    (Val (fst (zmq_poll E (ref z) bound w1)),
     with_world (snd (zmq_poll E (ref z) bound w1))
       [Logger_debug "poll" None; Zmq_isWaiting (ref z);
        Zmq_lastActivity (ref z); Time_time;
        Stack_timeout (_stack (self m)); Zmq_poll (ref z) bound]
       (cache z m)).
Proof.
  intros Hz Hw Hr w1 bound. unfold poll, logger_debug.
  unfold bind at 1; simpl.
  erewrite bind_val; [|apply isWaiting_run; simpl; exact Hz].
  simpl. rewrite Hw. unfold timeout, bind, call; simpl.
  unfold remaining in Hr. rewrite Hr. simpl.
  unfold with_world, cache, given, bound, w1; simpl.
  destruct m as [[def t st zc] o w cs]; simpl.
  now rewrite <- !app_assoc.
Qed.

(** [poll] when the endpoint waits and time is left. *)
Lemma poll_pending_run (m : Machine) (timeout_s : option float) z :
  endpoint (self m) = Some z ->
  zmq_isWaiting E (ref z) (world m) = true ->
  (remaining E m z <=? 0)%float = false ->
  let w1 := snd (time_time E (world m)) in
  let bound := Some (min (given timeout_s (self m)) (remaining E m z)) in
  poll E timeout_s m =
    (Val (fst (zmq_poll E (ref z) bound w1)),
     with_world (snd (zmq_poll E (ref z) bound w1))
       [Logger_debug "poll" None; Zmq_isWaiting (ref z);
        Zmq_lastActivity (ref z); Time_time; Zmq_poll (ref z) bound]
       (cache z m)).
Proof.
  intros Hz Hw Hr w1 bound. unfold poll, logger_debug.
  unfold bind at 1; simpl.
  erewrite bind_val; [|apply isWaiting_run; simpl; exact Hz].
  simpl. rewrite Hw. unfold bind, call; simpl.
  unfold remaining in Hr. rewrite Hr. simpl.
  unfold with_world, cache, given, bound, w1, remaining; simpl.
  destruct m as [[def t st zc] o w cs]; simpl.
  now rewrite <- !app_assoc.
Qed.

Lemma timeouts_app cs1 cs2 : timeouts (cs1 ++ cs2) = timeouts cs1 + timeouts cs2.
Proof.
  induction cs1 as [|c cs1 IH]; simpl; [reflexivity|].
  destruct c; simpl; rewrite IH; reflexivity.
Qed.

(** C1, as the code has it.  A [poll(timeout_s)] on an endpoint that is
    not waiting logs, asks the endpoint whether it waits, and polls it
    with [timeout_s] as it was given, [None] included; it calls no
    [timeout()], and returns what the endpoint's poll returns. *)
Theorem poll_not_waiting (m : Machine) (timeout_s : option float) (z : Layer) :
  endpoint (self m) = Some z ->
  zmq_isWaiting E (ref z) (world m) = false ->
  poll E timeout_s m =
    (Val (fst (zmq_poll E (ref z) timeout_s (world m))),
     with_world (snd (zmq_poll E (ref z) timeout_s (world m)))
       [Logger_debug "poll" None; Zmq_isWaiting (ref z);
        Zmq_poll (ref z) timeout_s]
       (cache z m))
  /\ timeouts (calls (snd (poll E timeout_s m))) = timeouts (calls m).
Proof.
  intros Hz Hw. rewrite (poll_idle_run m timeout_s z Hz Hw). split; [reflexivity|].
  simpl. rewrite timeouts_app. simpl. lia.
Qed.

(** C2. A [poll(timeout_s)] on a waiting endpoint reads the last activity
    and the clock and computes, in floating point, [remaining] as the
    last activity plus the configured timeout, less the clock.  If
    [remaining <= 0] it calls [timeout()] once and then polls the
    endpoint, with the timeout given (the configured one for [None]);
    otherwise it calls no [timeout()] and polls the endpoint with
    [min(timeout_s, remaining)], which among numbers is the smaller of
    the two. *)
Theorem poll_waiting (m : Machine) (timeout_s : option float) (z : Layer) :
  endpoint (self m) = Some z ->
  zmq_isWaiting E (ref z) (world m) = true ->
  remaining E m z
    = (zmq_lastActivity E (ref z) (world m) + _timeout_s (self m)
         - fst (time_time E (world m)))%float
  /\
  ((remaining E m z <=? 0)%float = true ->
     let w1 := stack_timeout E (_stack (self m)) (snd (time_time E (world m))) in
     let bound := Some (given timeout_s (self m)) in
     poll E timeout_s m =
       (Val (fst (zmq_poll E (ref z) bound w1)),
        with_world (snd (zmq_poll E (ref z) bound w1))
          [Logger_debug "poll" None; Zmq_isWaiting (ref z);
           Zmq_lastActivity (ref z); Time_time;
           Stack_timeout (_stack (self m)); Zmq_poll (ref z) bound]
          (cache z m))
     /\ timeouts (calls (snd (poll E timeout_s m))) = S (timeouts (calls m)))
  /\
  ((remaining E m z <=? 0)%float = false ->
     let w1 := snd (time_time E (world m)) in
     let bound := Some (min (given timeout_s (self m)) (remaining E m z)) in
     poll E timeout_s m =
       (Val (fst (zmq_poll E (ref z) bound w1)),
        with_world (snd (zmq_poll E (ref z) bound w1))
          [Logger_debug "poll" None; Zmq_isWaiting (ref z);
           Zmq_lastActivity (ref z); Time_time; Zmq_poll (ref z) bound]
          (cache z m))
     /\ timeouts (calls (snd (poll E timeout_s m))) = timeouts (calls m)
     /\ (min (given timeout_s (self m)) (remaining E m z) = given timeout_s (self m)
         \/ min (given timeout_s (self m)) (remaining E m z) = remaining E m z)
     /\ (is_nan (given timeout_s (self m)) = false ->
         is_nan (remaining E m z) = false ->
         (min (given timeout_s (self m)) (remaining E m z)
            <=? given timeout_s (self m))%float = true
         /\ (min (given timeout_s (self m)) (remaining E m z)
              <=? remaining E m z)%float = true)).
Proof.
  intros Hz Hw. split; [reflexivity|]. split; intros Hr.
  - intros w1 bound.
    pose proof (poll_expired_run m timeout_s z Hz Hw Hr) as Hp. simpl in Hp.
    fold w1 bound in Hp. rewrite Hp. split; [reflexivity|].
    simpl. rewrite timeouts_app. simpl. lia.
  - intros w1 bound.
    pose proof (poll_pending_run m timeout_s z Hz Hw Hr) as Hp. simpl in Hp.
    fold w1 bound in Hp. rewrite Hp. split; [reflexivity|]. split.
    + simpl. rewrite timeouts_app. simpl. lia.
    + split; [apply FloatFacts.min_either|]. intros Hg Hn. split.
      * now apply FloatFacts.min_le_l.
      * now apply FloatFacts.min_le_r.
Qed.

(** What [drain] does on a socket that gives [frames] and then raises. *)
Lemma drain_gives socket f (w : World) frames e w' :
  gives E socket f w frames e w' ->
  forall fuel (m : Machine), world m = w -> List.length frames < fuel ->
  drain E fuel socket f m = (Exc e, with_world w' (recv_calls socket f frames) m).
Proof.
  induction 1 as [w e w' Hrecv | w frame w1 w2 frames e w' Hrecv Hh _ IH];
    intros fuel m Hm Hfuel; (destruct fuel as [|fuel]; [simpl in Hfuel; lia|]);
    simpl; unfold call_raising, bind, call, lift; simpl; rewrite Hm, Hrecv; simpl.
  - reflexivity.
  - rewrite Hh; simpl. unfold ret.
    rewrite IH; [|reflexivity|simpl in Hfuel; lia].
    unfold with_world, recv_calls; simpl. now rewrite <- !app_assoc.
Qed.

(** C3. On a socket that gives some frames, each taken by the handler,
    and then raises, [recvAll], given fuel for one round more than there
    are frames, has received and handed over each frame once, in order.
    If what the socket raised is ZMQError with errno EAGAIN, [recvAll]
    returns; anything else it raises again as it is. *)
Theorem recvAll_until_would_block (socket f : nat) (m : Machine)
    (frames : list bytes) (e : exn) (w' : World) (fuel : nat) :
  gives E socket f (world m) frames e w' ->
  List.length frames < fuel ->
  (e = ZMQError (EAGAIN E) ->
     recvAll E fuel socket f m
       = (Val tt, with_world w' (recv_calls socket f frames) m))
  /\ (e <> ZMQError (EAGAIN E) ->
        recvAll E fuel socket f m
          = (Exc e, with_world w' (recv_calls socket f frames) m)).
Proof.
  intros Hg Hfuel. unfold recvAll, try_.
  rewrite (drain_gives socket f _ frames e w' Hg fuel m eq_refl Hfuel).
  split.
  - intros ->. simpl. now rewrite Z.eqb_refl.
  - intros Hne. destruct e as [ | | | | errno | tag]; simpl; try reflexivity.
    destruct (Z.eqb_spec errno (EAGAIN E)) as [->|]; [congruence | reflexivity].
Qed.

(** *** Which computations call [timeout()] *)

Lemma quiet_ret {A} (a : A) : quiet (World:=World) (ret a).
Proof. intros m; reflexivity. Qed.

Lemma quiet_raise {A} e : quiet (World:=World) (A:=A) (raise_ e).
Proof. intros m; reflexivity. Qed.

Lemma quiet_bind {A B} (c : M A) (k : A -> M B) :
  quiet c -> (forall a, quiet (k a)) -> quiet (bind c k).
Proof.
  intros Hc Hk m. unfold bind. specialize (Hc m).
  destruct (c m) as [[a|e|] m']; simpl in *; [|assumption|assumption].
  now rewrite (Hk a m').
Qed.

Lemma quiet_try {A} (c : M A) (h : exn -> M A) :
  quiet c -> (forall e, quiet (h e)) -> quiet (try_ c h).
Proof.
  intros Hc Hh m. unfold try_. specialize (Hc m).
  destruct (c m) as [[a|e|] m']; simpl in *; [assumption| |assumption].
  now rewrite (Hh e m').
Qed.

Lemma quiet_get_self : quiet (World:=World) get_self.
Proof. intros m; reflexivity. Qed.

Lemma quiet_put_self me : quiet (World:=World) (put_self me).
Proof. intros m; reflexivity. Qed.

Lemma quiet_lift {A} (r : exn + A) : quiet (World:=World) (lift r).
Proof. destruct r; intros m; reflexivity. Qed.

Lemma quiet_call {A} (c : Call) (f : World -> A * World) :
  timeouts [c] = 0 -> quiet (call c f).
Proof. intros Hc m. unfold call; simpl. rewrite timeouts_app, Hc. lia. Qed.

Lemma quiet_call_raising {A} (c : Call) (f : World -> (exn + A) * World) :
  timeouts [c] = 0 -> quiet (call_raising c f).
Proof.
  intros Hc. apply quiet_bind; [now apply quiet_call | intros; apply quiet_lift].
Qed.

Lemma quiet_void {A} (c : M A) : quiet c -> quiet (void c).
Proof. intros Hc. apply quiet_bind; [exact Hc | intros; apply quiet_ret]. Qed.

Lemma quiet_zmq : quiet (World:=World) zmq.
Proof.
  apply quiet_bind; [apply quiet_get_self|]. intros me.
  destruct (_zmq me); [apply quiet_ret|].
  destruct (_stack me); [apply quiet_raise|].
  apply quiet_bind; [apply quiet_put_self | intros; apply quiet_ret].
Qed.

Lemma quiet_reset : quiet (reset E).
Proof.
  unfold reset.
  repeat (first [ apply quiet_bind; [|intros]
                | apply quiet_get_self | apply quiet_put_self
                | apply quiet_call; reflexivity ]).
Qed.

Lemma quiet_stdout data : quiet (World:=World) (stdout data).
Proof.
  apply quiet_bind; [apply quiet_lift|]. intros text m.
  destruct (sys_stdout_write text (sys_stdout m)); simpl; [reflexivity|].
  rewrite timeouts_app. simpl. lia.
Qed.

Lemma quiet_drain fuel socket f : quiet (drain E fuel socket f).
Proof.
  induction fuel as [|n IH]; simpl; [intros m; reflexivity|].
  apply quiet_bind; [now apply quiet_call_raising|]. intros frame.
  apply quiet_bind; [now apply quiet_call_raising|]. intros _. exact IH.
Qed.

Lemma quiet_recvAll fuel socket f : quiet (recvAll E fuel socket f).
Proof.
  apply quiet_try; [apply quiet_drain|]. intros e.
  destruct e; simpl; try apply quiet_raise.
  destruct (errno =? EAGAIN E)%Z; [apply quiet_ret | apply quiet_raise].
Qed.

(** Every operation but [poll] is quiet. *)
Lemma quiet_op o : (forall timeout_s, o <> op_poll timeout_s) -> quiet (run_op E o).
Proof.
  intros Hp. destruct o; simpl.
  - apply quiet_reset.
  - apply quiet_bind; [now apply quiet_call | intros; now apply quiet_call].
  - apply quiet_bind; [now apply quiet_call | intros; now apply quiet_call].
  - apply quiet_stdout.
  - apply quiet_void, quiet_bind; [apply quiet_zmq | intros; now apply quiet_call].
  - now elim (Hp timeout_s).
  - apply quiet_recvAll.
  - apply quiet_void, quiet_bind; [apply quiet_zmq | intros; now apply quiet_call].
  - apply quiet_void, quiet_zmq.
  - apply quiet_bind; [apply quiet_zmq | intros; now apply quiet_call].
Qed.

Lemma snd_void {A} (c : M A) (m : Machine) : snd (void c m) = snd (c m).
Proof. unfold void, bind. now destruct (c m) as [[a|e|] m']. Qed.

Lemma isWaiting_empty (m : Machine) :
  endpoint (self m) = None -> isWaiting E m = (Exc StopIteration, m).
Proof.
  intros Hz. unfold isWaiting. now rewrite (bind_exc _ _ _ _ _ (zmq_empty m Hz)).
Qed.

Lemma poll_no_endpoint (m : Machine) timeout_s :
  endpoint (self m) = None ->
  calls (snd (poll E timeout_s m)) = calls m ++ [Logger_debug "poll" None].
Proof.
  intros Hz. unfold poll, logger_debug. unfold bind at 1; simpl.
  erewrite bind_exc by (apply isWaiting_empty; exact Hz). reflexivity.
Qed.

(** A [poll] that computes, if the endpoint waits, a [remaining] that is
    not [<= 0] calls no [timeout()]. *)
Lemma poll_quiet_while_time_remains (m : Machine) timeout_s :
  (forall z, endpoint (self m) = Some z ->
     zmq_isWaiting E (ref z) (world m) = true ->
     (remaining E m z <=? 0)%float = false) ->
  timeouts (calls (snd (poll E timeout_s m))) = timeouts (calls m).
Proof.
  intros Hact. destruct (endpoint (self m)) as [z|] eqn:Hz.
  - destruct (zmq_isWaiting E (ref z) (world m)) eqn:Hw.
    + pose proof (poll_pending_run m timeout_s z Hz Hw (Hact z eq_refl Hw)) as Hp.
      simpl in Hp. rewrite Hp. simpl. rewrite timeouts_app. simpl. lia.
    + rewrite (poll_idle_run m timeout_s z Hz Hw). simpl.
      rewrite timeouts_app. simpl. lia.
  - rewrite (poll_no_endpoint m timeout_s Hz), timeouts_app. simpl. lia.
Qed.

(** C7, as the code has it.  In a run of orchestrator operations in
    which every [poll()] computes, on a waiting endpoint, a [remaining]
    that is not [<= 0], [self._stack.timeout()] is not called at all; and
    no operation other than [poll] calls it, whatever the state. *)
Theorem no_premature_timeout (ops : list op) (m : Machine) :
  (time_remains E ops m ->
     timeouts (calls (run_ops E ops m)) = timeouts (calls m))
  /\ (forall o m1, (forall timeout_s, o <> op_poll timeout_s) ->
        timeouts (calls (snd (run_op E o m1))) = timeouts (calls m1)).
Proof.
  split.
  - revert m. induction ops as [|o ops IH]; simpl; intros m Hact; [reflexivity|].
    destruct Hact as [Ho Hrest]. rewrite (IH _ Hrest).
    destruct o; try (apply quiet_op; intros ? ?; discriminate).
    simpl. rewrite snd_void. now apply poll_quiet_while_time_remains.
  - intros o m1 Hp. now apply quiet_op.
Qed.

(** *** Which computations leave a cached endpoint alone *)

Lemma keeps_ret {A} (a : A) : keeps_cache (World:=World) (ret a).
Proof. intros m z _; reflexivity. Qed.

Lemma keeps_raise {A} e : keeps_cache (World:=World) (A:=A) (raise_ e).
Proof. intros m z _; reflexivity. Qed.

Lemma keeps_bind {A B} (c : M A) (k : A -> M B) :
  keeps_cache c -> (forall a, keeps_cache (k a)) -> keeps_cache (bind c k).
Proof.
  intros Hc Hk m z Hz. unfold bind. specialize (Hc m z Hz).
  destruct (c m) as [[a|e|] m']; simpl in *; [|assumption|assumption].
  rewrite <- Hc. apply (Hk a m' z). now rewrite Hc.
Qed.

Lemma keeps_try {A} (c : M A) (h : exn -> M A) :
  keeps_cache c -> (forall e, keeps_cache (h e)) -> keeps_cache (try_ c h).
Proof.
  intros Hc Hh m z Hz. unfold try_. specialize (Hc m z Hz).
  destruct (c m) as [[a|e|] m']; simpl in *; [assumption| |assumption].
  rewrite <- Hc. apply (Hh e m' z). now rewrite Hc.
Qed.

Lemma keeps_get_self : keeps_cache (World:=World) get_self.
Proof. intros m z _; reflexivity. Qed.

Lemma keeps_lift {A} (r : exn + A) : keeps_cache (World:=World) (lift r).
Proof. destruct r; intros m z _; reflexivity. Qed.

Lemma keeps_call {A} (c : Call) (f : World -> A * World) : keeps_cache (call c f).
Proof. intros m z _; reflexivity. Qed.

Lemma keeps_call_raising {A} (c : Call) (f : World -> (exn + A) * World) :
  keeps_cache (call_raising c f).
Proof. apply keeps_bind; [apply keeps_call | intros; apply keeps_lift]. Qed.

Lemma keeps_void {A} (c : M A) : keeps_cache c -> keeps_cache (void c).
Proof. intros Hc. apply keeps_bind; [exact Hc | intros; apply keeps_ret]. Qed.

Lemma keeps_zmq : keeps_cache (World:=World) zmq.
Proof.
  intros m z Hz. unfold zmq, bind, get_self; simpl. now rewrite Hz.
Qed.

Lemma keeps_stdout data : keeps_cache (World:=World) (stdout data).
Proof.
  apply keeps_bind; [apply keeps_lift|]. intros text m z _.
  now destruct (sys_stdout_write text (sys_stdout m)).
Qed.

Lemma keeps_timeout : keeps_cache (timeout E).
Proof. apply keeps_bind; [apply keeps_get_self | intros; apply keeps_call]. Qed.

Lemma keeps_isWaiting : keeps_cache (isWaiting E).
Proof. apply keeps_bind; [apply keeps_zmq | intros; apply keeps_call]. Qed.

Lemma keeps_poll timeout_s : keeps_cache (poll E timeout_s).
Proof.
  unfold poll, logger_debug.
  apply keeps_bind; [apply keeps_call|]. intros _.
  apply keeps_bind; [apply keeps_isWaiting|]. intros waiting.
  apply keeps_bind.
  - destruct waiting; [|apply keeps_ret].
    apply keeps_bind; [apply keeps_get_self|]. intros me.
    apply keeps_bind; [apply keeps_zmq|]. intros z.
    apply keeps_bind; [apply keeps_call|]. intros last.
    apply keeps_bind; [apply keeps_call|]. intros now.
    destruct (_ <=? 0)%float; [|apply keeps_ret].
    apply keeps_bind; [apply keeps_timeout | intros; apply keeps_ret].
  - intros t. apply keeps_bind; [apply keeps_zmq | intros; apply keeps_call].
Qed.

Lemma keeps_drain fuel socket f : keeps_cache (drain E fuel socket f).
Proof.
  induction fuel as [|n IH]; simpl; [intros m z _; reflexivity|].
  apply keeps_bind; [apply keeps_call_raising|]. intros frame.
  apply keeps_bind; [apply keeps_call_raising|]. intros _. exact IH.
Qed.

Lemma keeps_recvAll fuel socket f : keeps_cache (recvAll E fuel socket f).
Proof.
  apply keeps_try; [apply keeps_drain|]. intros e.
  destruct e; simpl; try apply keeps_raise.
  destruct (errno =? EAGAIN E)%Z; [apply keeps_ret | apply keeps_raise].
Qed.

(** Every operation but [reset] leaves a cached endpoint alone, [close]
    too. *)
Lemma keeps_op o : o <> op_reset -> keeps_cache (run_op E o).
Proof.
  intros Hr. destruct o; simpl.
  - now elim Hr.
  - apply keeps_bind; [apply keeps_call | intros; apply keeps_call].
  - apply keeps_bind; [apply keeps_call | intros; apply keeps_call].
  - apply keeps_stdout.
  - apply keeps_void, keeps_isWaiting.
  - apply keeps_void, keeps_poll.
  - apply keeps_recvAll.
  - apply keeps_void, keeps_bind; [apply keeps_zmq | intros; apply keeps_call].
  - apply keeps_void, keeps_zmq.
  - apply keeps_bind; [apply keeps_zmq | intros; apply keeps_call].
Qed.

Lemma keeps_ops ops : forall (m : Machine) z,
  ~ In op_reset ops -> _zmq (self m) = Some z ->
  self (run_ops E ops m) = self m.
Proof.
  induction ops as [|o ops IH]; simpl; intros m z Hn Hz; [reflexivity|].
  assert (self (snd (run_op E o m)) = self m) as Ho.
  { apply (keeps_op o) with (z := z); [intros ->; apply Hn; now left | exact Hz]. }
  rewrite (IH _ z); [exact Ho | intros H; apply Hn; now right | now rewrite Ho].
Qed.

Lemma reset_run (m : Machine) :
  reset E m =
    (Val tt,
     {| self := {| _stack_def := _stack_def (self m);
                   _timeout_s := _timeout_s (self m);
                   _stack := map install
                               (fst (buildStack E (_stack_def (self m)) (world m)));
                   _zmq := None |};
        sys_stdout := sys_stdout m;
        world := wrap E (map install
                           (fst (buildStack E (_stack_def (self m)) (world m))))
                   (snd (buildStack E (_stack_def (self m)) (world m)));
        calls := calls m
                   ++ [BuildStack (_stack_def (self m));
                       Wrap (map install
                               (fst (buildStack E (_stack_def (self m)) (world m))))] |}).
Proof.
  unfold reset, bind, get_self, call, put_self; simpl.
  now rewrite <- app_assoc.
Qed.

Lemma install_terminal l :
  isinstance_TerminalLayer (install l) = true -> fdout (install l) = Some self_stdout.
Proof. unfold install. destruct (isinstance_TerminalLayer l) eqn:H; simpl; congruence. Qed.

Lemma install_same l :
  ref (install l) = ref l
  /\ isinstance_TerminalLayer (install l) = isinstance_TerminalLayer l
  /\ (isinstance_TerminalLayer l = false -> install l = l).
Proof.
  unfold install. destruct (isinstance_TerminalLayer l) eqn:H; simpl;
    repeat split; auto; discriminate.
Qed.

(** C8. [reset()] calls the builder on the stored specification and
    takes the chain it gives, whatever the chain before; in it every stage
    that is a TerminalLayer has [self.stdout] as its [fdout], and the
    other stages are as built; the cached endpoint is dropped.  On a
    chain with a first stage, the next access to [zmq] gives that stage
    and caches it, and from then on no operation other than [reset]
    changes the object, so that [zmq] keeps giving that stage. *)
Theorem reset_rebuilds_chain (m : Machine) :
  let built := buildStack E (_stack_def (self m)) (world m) in
  let stack := map install (fst built) in
  let m' := {| self := {| _stack_def := _stack_def (self m);
                          _timeout_s := _timeout_s (self m);
                          _stack := stack;
                          _zmq := None |};
               sys_stdout := sys_stdout m;
               world := wrap E stack (snd built);
               calls := calls m ++ [BuildStack (_stack_def (self m)); Wrap stack] |} in
  reset E m = (Val tt, m')
  /\ Forall (fun l => isinstance_TerminalLayer l = true ->
                      fdout l = Some self_stdout) stack
  /\ Forall2 (fun l0 l => ref l = ref l0
                /\ isinstance_TerminalLayer l = isinstance_TerminalLayer l0
                /\ (isinstance_TerminalLayer l0 = false -> l = l0))
       (fst built) stack
  /\ (forall z rest, stack = z :: rest ->
        zmq m' = (Val z, cache z m')
        /\ forall ops, ~ In op_reset ops ->
             self (run_ops E ops (cache z m')) = self (cache z m')
             /\ zmq (run_ops E ops (cache z m'))
                = (Val z, run_ops E ops (cache z m'))).
Proof.
  intros built stack m'. split; [apply reset_run|]. split; [|split].
  - unfold stack. apply Forall_forall. intros l Hl.
    apply in_map_iff in Hl. destruct Hl as (l0 & <- & _). apply install_terminal.
  - unfold stack. induction (fst built) as [|l0 ls IH]; simpl; constructor; auto.
    apply install_same.
  - intros z rest Hst. split.
    + apply zmq_run. unfold endpoint; simpl. now rewrite Hst.
    + intros ops Hn.
      assert (self (run_ops E ops (cache z m')) = self (cache z m')) as Hs.
      { now apply (keeps_ops ops (cache z m') z Hn). }
      split; [exact Hs|].
      unfold zmq, bind, get_self; simpl. now rewrite Hs.
Qed.

(** *** Decoding with replacement *)

Lemma chars_replaced its text :
  Codec.chars its = Some text -> map Codec.replaced its = text.
Proof.
  revert text. induction its as [|it its IH]; simpl; intros text H.
  - now injection H as <-.
  - destruct it as [cp|]; [|discriminate].
    destruct (Codec.chars its) as [t|]; [|discriminate].
    injection H as <-. simpl. now rewrite (IH t eq_refl).
Qed.

Lemma chars_malformed its :
  Codec.chars its = None ->
  In Codec.REPLACEMENT_CHARACTER (map Codec.replaced its).
Proof.
  induction its as [|it its IH]; simpl; [discriminate|].
  destruct it as [cp|]; [|now left].
  destruct (Codec.chars its); [discriminate|]. intros _. right. now apply IH.
Qed.

(** C9. For every byte sequence, decoding with [errors="replace"] gives
    a text and raises nothing: the text that strict decoding gives where
    that succeeds, and one with U+FFFD in it where strict decoding raises.
    [stdout(data)] hands that text to the [write] of what [sys.stdout] is
    at the call, and does not end in a decoding error; an ordinary file
    object gets the text at its end, an InfiniteStdoutBuffer takes it as
    its [write] does. *)
Theorem stdout_decodes_with_replacement (data : bytes) (m : Machine) :
  let text := map Codec.replaced (Codec.scan None data) in
  Codec.decode Codec.replace data = inr text
  /\ stdout data m =
       match sys_stdout_write text (sys_stdout m) with
       | inr o => (Val tt, {| self := self m; sys_stdout := o; world := world m;
                              calls := calls m ++ [Sys_stdout_write text] |})
       | inl e => (Exc e, m)
       end
  /\ fst (stdout data m) <> Exc UnicodeDecodeError
  /\ (forall t, Codec.decode Codec.strict data = inr t -> text = t)
  /\ (Codec.decode Codec.strict data = inl UnicodeDecodeError ->
        In Codec.REPLACEMENT_CHARACTER text)
  /\ (forall k, sys_stdout m = Plain k ->
        fst (stdout data m) = Val tt
        /\ sys_stdout (snd (stdout data m))
           = Plain (InfiniteStdoutBuffer.sink_write text k))
  /\ (forall b, sys_stdout m = Buffered b ->
        InfiniteStdoutBuffer._closed b = true
          \/ InfiniteStdoutBuffer.consistent b = true ->
        exists b', InfiniteStdoutBuffer.write text b = inr b'
          /\ fst (stdout data m) = Val tt
          /\ sys_stdout (snd (stdout data m)) = Buffered b').
Proof.
  intros text.
  assert (stdout data m =
            match sys_stdout_write text (sys_stdout m) with
            | inr o => (Val tt, {| self := self m; sys_stdout := o; world := world m;
                                   calls := calls m ++ [Sys_stdout_write text] |})
            | inl e => (Exc e, m)
            end) as Hrun by reflexivity.
  split; [reflexivity|]. split; [exact Hrun|]. split.
  { rewrite Hrun. destruct (sys_stdout m) as [k|b]; simpl; [discriminate|].
    unfold InfiniteStdoutBuffer.write, InfiniteStdoutBuffer.queue_put.
    destruct (InfiniteStdoutBuffer._closed b); simpl; [discriminate|].
    destruct (InfiniteStdoutBuffer._queue b); simpl; discriminate. }
  split.
  { intros t. unfold Codec.decode.
    destruct (Codec.chars (Codec.scan None data)) as [t'|] eqn:Hc; [|discriminate].
    intros H; injection H as <-. now apply chars_replaced. }
  split.
  { unfold Codec.decode.
    destruct (Codec.chars (Codec.scan None data)) as [t'|] eqn:Hc; [discriminate|].
    intros _. now apply chars_malformed. }
  split.
  { intros k Hk. rewrite Hrun, Hk. simpl. split; reflexivity. }
  intros b Hb Hok. rewrite Hrun, Hb. simpl.
  unfold InfiniteStdoutBuffer.write, InfiniteStdoutBuffer.queue_put.
  destruct (InfiniteStdoutBuffer._closed b) eqn:Hc.
  - eexists; repeat split.
  - destruct Hok as [Hok | Hok]; [discriminate|].
    unfold InfiniteStdoutBuffer.consistent in Hok.
    destruct (InfiniteStdoutBuffer._queue b) as [q|]; [|discriminate].
    eexists; repeat split.
Qed.

End Facts.

(** C1, as the claim has it: the endpoint polled with the configured
    timeout when [timeout_s] is [None].  It fails on the orchestrator made
    with the default arguments: its endpoint is polled with [None]. *)
Lemma poll_unspecified_not_default :
  ~ (forall (m : Machine Demo.World) (z : Layer),
       endpoint (self m) = Some z ->
       zmq_isWaiting Demo.ext (ref z) (world m) = false ->
       In (Zmq_poll (ref z) (Some (_timeout_s (self m))))
          (calls (snd (poll Demo.ext None m)))).
Proof.
  intros H.
  specialize (H Demo.idle (Demo.zmq_layer 0) eq_refl eq_refl).
  simpl in H. repeat (destruct H as [H | H]; [discriminate H|]). exact H.
Qed.

Lemma poll_not_waiting_witness :
  poll Demo.ext None Demo.idle =
    (Val [],
     with_world (world Demo.idle)
       [Logger_debug "poll" None; Zmq_isWaiting 0; Zmq_poll 0 None]
       (cache (Demo.zmq_layer 0) Demo.idle))
  /\ timeouts (calls (snd (poll Demo.ext None Demo.idle)))
     = timeouts (calls Demo.idle).
Proof.
  apply (poll_not_waiting Demo.ext Demo.idle None (Demo.zmq_layer 0)); reflexivity.
Defined.

Lemma poll_waiting_witness :
  (poll Demo.ext None Demo.overdue =
     (Val [],
      with_world (world Demo.overdue)
        [Logger_debug "poll" None; Zmq_isWaiting 0; Zmq_lastActivity 0; Time_time;
         Stack_timeout (_stack (self Demo.overdue)); Zmq_poll 0 (Some 1%float)]
        (cache (Demo.zmq_layer 0) Demo.overdue))
   /\ timeouts (calls (snd (poll Demo.ext None Demo.overdue)))
      = S (timeouts (calls Demo.overdue)))
  /\ (poll Demo.ext None Demo.active =
        (Val [],
         with_world (world Demo.active)
           [Logger_debug "poll" None; Zmq_isWaiting 0; Zmq_lastActivity 0; Time_time;
            Zmq_poll 0 (Some 0.5%float)]
           (cache (Demo.zmq_layer 0) Demo.active))
      /\ timeouts (calls (snd (poll Demo.ext None Demo.active)))
         = timeouts (calls Demo.active)).
Proof.
  split.
  - apply (proj1 (proj2 (poll_waiting Demo.ext Demo.overdue None (Demo.zmq_layer 0)
                           eq_refl eq_refl))).
    reflexivity.
  - destruct (proj2 (proj2 (poll_waiting Demo.ext Demo.active None (Demo.zmq_layer 0)
                              eq_refl eq_refl)) eq_refl) as (H1 & H2 & _).
    split; [exact H1 | exact H2].
Defined.

Lemma recvAll_until_would_block_witness :
  recvAll Demo.ext 3 0 0 Demo.two_frames
    = (Val tt, with_world Demo.drained (recv_calls 0 0 [[x68]; [x69]]) Demo.two_frames)
  /\ recvAll Demo.ext 3 0 0 Demo.failing
     = (Exc (ZMQError 4), with_world Demo.failed (recv_calls 0 0 [[x68]]) Demo.failing).
Proof.
  split.
  - refine (proj1 (recvAll_until_would_block Demo.ext 0 0 Demo.two_frames
                     [[x68]; [x69]] (ZMQError 11) Demo.drained 3 _ _) eq_refl).
    + eapply gives_frame; [reflexivity | reflexivity |].
      eapply gives_frame; [reflexivity | reflexivity |].
      apply gives_raise; reflexivity.
    + simpl. lia.
  - refine (proj2 (recvAll_until_would_block Demo.ext 0 0 Demo.failing
                     [[x68]] (ZMQError 4) Demo.failed 3 _ _) _).
    + eapply gives_frame; [reflexivity | reflexivity |].
      apply gives_raise; reflexivity.
    + simpl. lia.
    + discriminate.
Defined.

(** C7, as the claim has it: no [timeout()] in a run in which every
    [poll()] finds the endpoint, if it is waiting, idle for less than the
    configured timeout.  It fails where the timeout is lost in the
    rounding of the sum: with a timeout of 2^-30 s and the clock at
    1800000000.0, a poll at the very moment of the last activity computes
    a [remaining] of 0.0 and calls [timeout()]. *)
Lemma idle_below_timeout_not_enough :
  ~ (forall (ops : list op) (m : Machine Demo.World),
       continuous_activity Demo.ext ops m ->
       timeouts (calls (run_ops Demo.ext ops m)) = timeouts (calls m)).
Proof.
  intros H.
  assert (continuous_activity Demo.ext [op_poll None] Demo.tight) as Hact.
  { simpl. split; [|exact I]. intros z Hz _. injection Hz as <-. reflexivity. }
  specialize (H [op_poll None] Demo.tight Hact).
  vm_compute in H. discriminate H.
Qed.

(** The same with a timeout of a tenth of a second, polled when the
    clock reads that much after the last activity: the time without
    activity is below the timeout by the rounding of the clock, and
    [timeout()] is called. *)
Example tenth_of_a_second_expires_early :
  (idle_time Demo.ext Demo.on_the_edge (Demo.zmq_layer 0)
     <? _timeout_s (self Demo.on_the_edge))%float = true
  /\ remaining Demo.ext Demo.on_the_edge (Demo.zmq_layer 0) = 0%float
  /\ timeouts (calls (snd (poll Demo.ext None Demo.on_the_edge)))
     = S (timeouts (calls Demo.on_the_edge)).
Proof. repeat split; vm_compute; reflexivity. Qed.

Lemma no_premature_timeout_witness :
  timeouts (calls (run_ops Demo.ext Demo.session Demo.active))
    = timeouts (calls Demo.active).
Proof.
  apply (proj1 (no_premature_timeout Demo.ext Demo.session Demo.active)).
  simpl. repeat split; intros z Hz _; injection Hz as <-; reflexivity.
Defined.

Lemma reset_rebuilds_chain_witness :
  zmq (snd (reset Demo.ext Demo.idle))
    = (Val (Demo.zmq_layer 3),
       cache (Demo.zmq_layer 3) (snd (reset Demo.ext Demo.idle)))
  /\ forall ops, ~ In op_reset ops ->
       self (run_ops Demo.ext ops
               (cache (Demo.zmq_layer 3) (snd (reset Demo.ext Demo.idle))))
         = self (cache (Demo.zmq_layer 3) (snd (reset Demo.ext Demo.idle)))
       /\ zmq (run_ops Demo.ext ops
                 (cache (Demo.zmq_layer 3) (snd (reset Demo.ext Demo.idle))))
          = (Val (Demo.zmq_layer 3),
             run_ops Demo.ext ops
               (cache (Demo.zmq_layer 3) (snd (reset Demo.ext Demo.idle)))).
Proof.
  exact (proj2 (proj2 (proj2 (reset_rebuilds_chain Demo.ext Demo.idle)))
           (Demo.zmq_layer 3) _ eq_refl).
Defined.

Lemma stdout_decodes_with_replacement_witness :
  Codec.decode Codec.strict Demo.garbled = inl UnicodeDecodeError
  /\ In Codec.REPLACEMENT_CHARACTER
        (map Codec.replaced (Codec.scan None Demo.garbled))
  /\ exists b',
       InfiniteStdoutBuffer.write
         (map Codec.replaced (Codec.scan None Demo.garbled))
         (InfiniteStdoutBuffer.__init__
            (InfiniteStdoutBuffer.sink_flush Demo.terminal) (Some restore_stdout))
         = inr b'
       /\ fst (stdout Demo.garbled Demo.idle) = Val tt
       /\ sys_stdout (snd (stdout Demo.garbled Demo.idle)) = Buffered b'.
Proof.
  pose proof (stdout_decodes_with_replacement Demo.garbled Demo.idle) as H.
  simpl in H. destruct H as (_ & _ & _ & _ & Hbad & _ & Hbuf).
  split; [reflexivity|]. split; [exact (Hbad eq_refl)|].
  exact (Hbuf _ eq_refl (or_intror eq_refl)).
Defined.

End RelayFacts.

(** * Calls of [write], then [flush()] or [close()] *)

Module BufferRuns.
Import InfiniteStdoutBuffer.

Lemma pending_put d q b :
  consistent b = true -> _queue b = Some q ->
  pending_chunks (set_queue (Some (Queue_put d q)) b) = pending_chunks b ++ [d].
Proof.
  unfold consistent, pending_chunks. intros Hk Hq. rewrite Hq in *. simpl.
  destruct (_thread b); try discriminate; reflexivity.
Qed.

(** A step of the worker on an open buffer keeps it open and in order,
    and moves at most one chunk from the pending ones to the sink. *)
Lemma worker_step_open s s' :
  open_ok s -> _worker s = Some s' ->
  open_ok s' /\ caller s' = caller s /\ accepted (buf s') = accepted (buf s)
  /\ same_setup (buf s) (buf s').
Proof.
  destruct s as [[[wr fl] q cl c w] cr tr].
  unfold open_ok, _worker, accepted, pending_chunks, consistent, same_setup; simpl.
  intros (Hc & Hk & Hr). subst cl.
  destruct q as [[its n]|]; [|discriminate]. simpl in *.
  destruct w; try discriminate; intros H.
  - injection H as <-; simpl. auto 10.
  - destruct its as [|d rest]; [discriminate|]. injection H as <-; simpl. auto 10.
  - injection H as <-; simpl. rewrite <- app_assoc. simpl. auto 10.
  - destruct n as [|n]; [discriminate|]. injection H as <-; simpl. auto 10.
Qed.

Lemma same_setup_trans b0 b1 b2 :
  same_setup b0 b1 -> same_setup b1 b2 -> same_setup b0 b2.
Proof. unfold same_setup. intros [H1 H2] [H3 H4]. split; congruence. Qed.

(** Each step during the calls of [write] leaves the caller among them or
    takes it into the call that follows. *)
Lemma writing_step b0 ds tail th s s' :
  writing b0 ds tail s -> step th s = Some s' ->
  writing b0 ds tail s' \/ handed_over b0 ds tail s'.
Proof.
  intros Hw Hstep. destruct th; simpl in Hstep.
  - (* the caller *)
    destruct Hw as [s done rest Hds Hf Hp Hok Hsame Hacc
                   | s done d rest Hds Hf Hp Hok Hsame Hacc
                   | s done d rest Hds Hf Hp Hok Hsame Hacc];
      destruct s as [b [k ms r] tr]; simpl in *; subst k ms;
      destruct Hok as (Hc & Hk & Hr); simpl in *; subst r;
      unfold step_caller in Hstep; simpl in Hstep.
    + destruct rest as [|d rest]; simpl in Hstep.
      * destruct tail as [|m tail'] eqn:Et; [discriminate|].
        injection Hstep as <-. right. unfold handed_over, open_ok; simpl.
        rewrite app_nil_r in Hds. subst done. auto 10.
      * injection Hstep as <-. left.
        eapply W_test with (done := done) (d := d) (rest := rest); simpl; eauto.
        unfold open_ok; simpl; auto.
    + rewrite Hc in Hstep. injection Hstep as <-. left.
      eapply W_put with (done := done) (d := d) (rest := rest); simpl; eauto.
      unfold open_ok; simpl; auto.
    + destruct (BufferFacts.consistent_queue _ Hk) as [q Hq].
      unfold queue_put in Hstep. rewrite Hq in Hstep. injection Hstep as <-. left.
      eapply W_idle with (done := done ++ [d]) (rest := rest); simpl; eauto.
      * now rewrite <- app_assoc.
      * unfold open_ok; simpl. repeat split; auto.
        apply (BufferFacts.consistent_write d b); auto.
        unfold write, queue_put. now rewrite Hc, Hq.
      * unfold accepted in *; simpl. rewrite (pending_put d q b Hk Hq).
        now rewrite !app_assoc, Hacc.
  - (* the worker *)
    assert (open_ok s) as Hok by (destruct Hw; assumption).
    destruct (worker_step_open s s' Hok Hstep) as (Hok' & Hcal & Hacc' & Hsame').
    left. destruct Hw as [s done rest Hds Hf Hp _ Hsame Hacc
                         | s done d rest Hds Hf Hp _ Hsame Hacc
                         | s done d rest Hds Hf Hp _ Hsame Hacc].
    + eapply W_idle with (done := done) (rest := rest); eauto; try congruence.
      eapply same_setup_trans; eauto.
    + eapply W_test with (done := done) (d := d) (rest := rest); eauto; try congruence.
      eapply same_setup_trans; eauto.
    + eapply W_put with (done := done) (d := d) (rest := rest); eauto; try congruence.
      eapply same_setup_trans; eauto.
Qed.

Lemma writing_init b ds tail tr :
  _closed b = false -> consistent b = true ->
  writing b ds tail (start b (map m_write ds ++ tail) tr).
Proof.
  intros Hc Hk. eapply W_idle with (done := []) (rest := ds); simpl; auto.
  - unfold open_ok; simpl; auto.
  - unfold same_setup; auto.
  - now rewrite app_nil_r.
Qed.

(** While calls of [write] remain, the caller can step. *)
Lemma writing_caller_steps b0 ds tail s :
  writing b0 ds tail s -> returned s = false -> step_caller s <> None.
Proof.
  intros Hw Hret.
  destruct Hw as [s done rest Hds Hf Hp Hok Hsame Hacc
                 | s done d rest Hds Hf Hp Hok Hsame Hacc
                 | s done d rest Hds Hf Hp Hok Hsame Hacc];
    destruct s as [b [k ms r] tr]; simpl in *; subst k ms;
    destruct Hok as (Hc & Hk & Hr); simpl in *; subst r;
    unfold step_caller; simpl; try discriminate.
  - destruct rest as [|d rest]; simpl; [|discriminate].
    destruct tail; [discriminate Hret | discriminate].
  - destruct (queue_put d b); discriminate.
Qed.

(** What every step keeps, every execution keeps. *)
Lemma exec_keeps (I : System -> Prop) :
  (forall th s s', I s -> step th s = Some s' -> I s') ->
  forall sched s s', I s -> exec sched s = Some s' -> I s'.
Proof.
  intros Hstep. induction sched as [|th rest IH]; simpl; intros s s' Hi H.
  - now injection H as <-.
  - destruct (step th s) as [s1|] eqn:E; [|discriminate].
    eapply IH; [eapply Hstep; eauto | exact H].
Qed.

(** Under an invariant that lets some thread step until the caller is
    back, the scheduler [run] brings the caller back. *)
Lemma run_returns (I : System -> Prop) :
  (forall th s s', I s -> step th s = Some s' -> I s') ->
  (forall s, I s -> returned s = false -> exists th, step th s <> None) ->
  forall s0, I s0 -> returned (run (measure s0) s0) = true.
Proof.
  intros Hstep Hprog s0 Hi.
  destruct (BufferFacts.run_exec (measure s0) s0) as (sched & He & Hl & Hs).
  pose proof (exec_keeps I Hstep sched _ _ Hi He) as Hinv.
  pose proof (BufferFacts.exec_measure sched _ _ He) as Hm.
  destruct (returned (run (measure s0) s0)) eqn:Hr; [reflexivity|].
  destruct (Hprog _ Hinv Hr) as [th Hth].
  destruct (step th (run (measure s0) s0)) as [s2|] eqn:E2; [|congruence].
  pose proof (BufferFacts.step_measure th _ _ E2) as Hlt.
  assert (List.length sched < measure s0) as Hshort by lia.
  destruct (Hs Hshort) as [H1 H2].
  destruct th; unfold step in E2; [rewrite H1 in E2 | rewrite H2 in E2];
    discriminate.
Qed.

(** An open buffer whose worker cannot step has nothing pending. *)
Lemma worker_waits_on_empty s :
  open_ok s -> _worker s = None ->
  _queue (buf s) = Some Queue_new /\ pending_chunks (buf s) = []
  /\ _thread (buf s) = AtGet.
Proof.
  destruct s as [[[wr fl] q cl c w] cr tr].
  unfold open_ok, _worker, pending_chunks, consistent; simpl.
  intros (Hc & Hk & Hr). destruct q as [[its n]|]; [|discriminate]. simpl in *.
  destruct w; try discriminate.
  - destruct its as [|d rest]; [|discriminate].
    apply Nat.eqb_eq in Hk; simpl in Hk; subst n. auto.
  - destruct n; discriminate.
Qed.

(** On an open buffer in order with unfinished items, the worker can
    step. *)
Lemma worker_steps_on_unfinished s q :
  open_ok s -> _queue (buf s) = Some q -> unfinished_tasks q <> 0 ->
  _worker s <> None.
Proof.
  destruct s as [[[wr fl] q0 cl c w] cr tr].
  unfold open_ok, _worker, consistent; simpl.
  intros (Hc & Hk & Hr) Hq Hn. subst q0. destruct q as [its n]; simpl in *.
  destruct w; try discriminate.
  - destruct its as [|d rest]; [|discriminate].
    apply Nat.eqb_eq in Hk; simpl in Hk; congruence.
  - destruct n; [congruence | discriminate].
Qed.

Lemma writing_only_step b ds th s s' :
  writing b ds [] s -> step th s = Some s' -> writing b ds [] s'.
Proof.
  intros Hw Hs. destruct (writing_step b ds [] th s s' Hw Hs) as [H | H];
    [exact H | destruct H].
Qed.

Lemma writing_open b ds tail s : writing b ds tail s -> open_ok s.
Proof. now destruct 1. Qed.

Lemma writing_accepted b ds tail s :
  writing b ds tail s ->
  exists done rest, ds = done ++ rest /\ accepted (buf s) = accepted b ++ done.
Proof.
  destruct 1 as [s done rest Hds _ _ _ _ Hacc
                | s done d rest Hds _ _ _ _ Hacc
                | s done d rest Hds _ _ _ _ Hacc]; eauto.
Qed.

Lemma writing_returned b ds s :
  writing b ds [] s -> returned s = true -> accepted (buf s) = accepted b ++ ds.
Proof.
  intros Hw Hret.
  destruct Hw as [s done rest Hds Hf Hp Hok Hsame Hacc
                 | s done d rest Hds Hf Hp Hok Hsame Hacc
                 | s done d rest Hds Hf Hp Hok Hsame Hacc];
    unfold returned in Hret; rewrite Hf in Hret; simpl in Hret;
    try discriminate.
  rewrite Hp in Hret. destruct rest as [|d rest]; [|discriminate].
  rewrite app_nil_r in Hds. now subst done.
Qed.

(** X1. Calls of [write] on an open buffer, under every schedule of
    caller and worker: the buffer stays open and in order and nothing is
    raised; at every moment what the buffer has taken (at the sink, or
    pending behind it) is what it had followed by the chunks of the calls
    made so far, in order; and when neither thread can step any more, the
    caller is back, the sink holds what the buffer had taken followed by
    all the chunks in the order of the calls, and the queue is empty.
    The scheduler [run] gets there. *)
Theorem writes_reach_sink_in_order (b : t) (ds : list str) (tr : list event)
    (sched : list tid) (s' : System) :
  _closed b = false -> consistent b = true ->
  exec sched (start b (map m_write ds) tr) = Some s' ->
  open_ok s'
  /\ (exists done rest, ds = done ++ rest
        /\ accepted (buf s') = accepted b ++ done)
  /\ List.length sched <= measure (start b (map m_write ds) tr)
  /\ ((forall th, step th s' = None) ->
        returned s' = true
        /\ written (stdout (buf s')) = accepted b ++ ds
        /\ _queue (buf s') = Some Queue_new)
  /\ returned (run (measure (start b (map m_write ds) tr))
                 (start b (map m_write ds) tr)) = true.
Proof.
  intros Hc Hk He.
  pose proof (writing_init b ds [] tr Hc Hk) as Hi. rewrite app_nil_r in Hi.
  pose proof (exec_keeps _ (writing_only_step b ds) sched _ _ Hi He) as Hw.
  split; [exact (writing_open _ _ _ _ Hw)|].
  split; [exact (writing_accepted _ _ _ _ Hw)|].
  split; [pose proof (BufferFacts.exec_measure sched _ _ He); lia|].
  split.
  - intros Hstuck.
    assert (returned s' = true) as Hret.
    { destruct (returned s') eqn:Hr; [reflexivity|].
      elim (writing_caller_steps _ _ _ _ Hw Hr). exact (Hstuck T_caller). }
    destruct (worker_waits_on_empty s' (writing_open _ _ _ _ Hw) (Hstuck T_worker))
      as (Hq & Hp & _).
    pose proof (writing_returned _ _ _ Hw Hret) as Hacc.
    unfold accepted in Hacc at 1. rewrite Hp, app_nil_r in Hacc. auto.
  - apply (run_returns (writing b ds [])); [apply writing_only_step | | exact Hi].
    intros s Hs Hr. exists T_caller. exact (writing_caller_steps _ _ _ _ Hs Hr).
Qed.

(** *** Calls of [write], then [flush()] *)

Lemma flush_run_step b ds th s s' :
  flush_run b ds s -> step th s = Some s' -> flush_run b ds s'.
Proof.
  intros [Hw | Hf] Hstep.
  - destruct (writing_step b ds [m_flush] th s s' Hw Hstep) as [H | H];
      [now left|]. right. destruct H as (Hf & Hp & Hok & Hsame & Hacc).
    now apply F_wait.
  - right. destruct th; simpl in Hstep.
    + destruct Hf as [s Hf Hp Hok Hsame Hacc | s Hf Hp Hok Hsame Hwr Hq];
        destruct s as [b1 [k ms r] tr]; simpl in *; subst k ms;
        destruct Hok as (Hc & Hk & Hr); simpl in *; subst r;
        unfold step_caller in Hstep; simpl in Hstep; [|discriminate].
      destruct (BufferFacts.consistent_queue _ Hk) as [q Hq]. rewrite Hq in Hstep.
      destruct (Nat.eqb_spec (unfinished_tasks q) 0) as [E|E]; [|discriminate].
      injection Hstep as <-.
      assert (q = Queue_new /\ pending_chunks b1 = []) as [-> Hp].
      { unfold consistent, pending_chunks in *. rewrite Hq in *.
        destruct q as [its n]; simpl in *; subst n.
        destruct (_thread b1); try discriminate;
          destruct its; try discriminate; auto. }
      apply F_done; simpl; auto.
      * unfold open_ok; simpl; auto.
      * unfold accepted in Hacc. now rewrite Hp, app_nil_r in Hacc.
    + destruct Hf as [s Hf Hp Hok Hsame Hacc | s Hf Hp Hok Hsame Hwr Hq].
      * destruct (worker_step_open s s' Hok Hstep) as (Hok' & Hcal & Hacc' & Hsame').
        apply F_wait; try congruence. eapply same_setup_trans; eauto.
      * destruct (worker_step_open s s' Hok Hstep) as (Hok' & Hcal & Hacc' & Hsame').
        assert (buf s' = set_thread AtGet (buf s)) as Hb.
        { destruct s as [[[wr fl] q cl c w] cr tr].
          unfold open_ok, consistent, _worker in *; simpl in *.
          destruct Hok as (Hc & Hk & _). subst q cl. simpl in *.
          destruct w; try discriminate; injection Hstep as <-; reflexivity. }
        apply F_done; try congruence.
        -- eapply same_setup_trans; eauto.
        -- rewrite Hb. simpl. exact Hwr.
        -- rewrite Hb. simpl. exact Hq.
Qed.

Lemma flush_run_progress b ds s :
  flush_run b ds s -> returned s = false -> exists th, step th s <> None.
Proof.
  intros [Hw | Hf] Hr.
  - exists T_caller. exact (writing_caller_steps _ _ _ _ Hw Hr).
  - destruct Hf as [s Hf Hp Hok Hsame Hacc | s Hf Hp Hok Hsame Hwr Hq].
    + destruct (BufferFacts.consistent_queue _ (proj1 (proj2 Hok))) as [q Hq].
      destruct (Nat.eqb_spec (unfinished_tasks q) 0) as [E|E].
      * exists T_caller. simpl. unfold step_caller.
        rewrite (proj2 (proj2 Hok)), Hf, Hq. simpl.
        rewrite E. simpl. discriminate.
      * exists T_worker. exact (worker_steps_on_unfinished s q Hok Hq E).
    + unfold returned in Hr. rewrite Hf, Hp, (proj2 (proj2 Hok)) in Hr. discriminate.
Qed.

(** X2. Calls of [write] followed by [flush()], on an open buffer and
    under every schedule: nothing is raised and the buffer stays open;
    [flush()] cannot wait for ever; and when it has returned, the sink
    holds what the buffer had taken followed by every chunk written, in
    the order of the calls, the queue is empty with nothing unfinished,
    and the sink has not been flushed. *)
Theorem flush_waits_for_all_chunks (b : t) (ds : list str) (tr : list event)
    (sched : list tid) (s' : System) :
  _closed b = false -> consistent b = true ->
  exec sched (start b (map m_write ds ++ [m_flush]) tr) = Some s' ->
  open_ok s'
  /\ List.length sched <= measure (start b (map m_write ds ++ [m_flush]) tr)
  /\ (returned s' = false -> exists th, step th s' <> None)
  /\ returned (run (measure (start b (map m_write ds ++ [m_flush]) tr))
                 (start b (map m_write ds ++ [m_flush]) tr)) = true
  /\ (returned s' = true ->
        written (stdout (buf s')) = accepted b ++ ds
        /\ _queue (buf s') = Some Queue_new
        /\ flushes (stdout (buf s')) = flushes (stdout b)).
Proof.
  intros Hc Hk He.
  assert (flush_run b ds (start b (map m_write ds ++ [m_flush]) tr)) as Hi.
  { left. now apply writing_init. }
  pose proof (exec_keeps _ (flush_run_step b ds) sched _ _ Hi He) as Hinv.
  split.
  { destruct Hinv as [Hw | Hf]; [exact (writing_open _ _ _ _ Hw)|].
    destruct Hf; assumption. }
  split; [pose proof (BufferFacts.exec_measure sched _ _ He); lia|].
  split; [exact (flush_run_progress _ _ _ Hinv)|].
  split.
  { apply (run_returns (flush_run b ds));
      [apply flush_run_step | apply flush_run_progress | exact Hi]. }
  intros Hr. destruct Hinv as [Hw | Hf].
  - exfalso.
    destruct Hw as [s done rest Hds Hf Hp Hok Hsame Hacc
                   | s done d rest Hds Hf Hp Hok Hsame Hacc
                   | s done d rest Hds Hf Hp Hok Hsame Hacc];
      unfold returned in Hr; rewrite Hf in Hr; simpl in Hr; try discriminate.
    rewrite Hp in Hr. destruct rest; discriminate.
  - destruct Hf as [s Hf Hp Hok Hsame Hacc | s Hf Hp Hok Hsame Hwr Hq].
    + unfold returned in Hr. rewrite Hf in Hr. discriminate.
    + destruct Hsame as [_ Hfl]. auto.
Qed.

(** *** Calls of [write], then [close()] *)

(** The invariant of [close()] holds when the caller enters it. *)
Lemma close_inv_loaded s :
  open_ok s -> frame (caller s) = close -> pending (caller s) = [] ->
  close_inv (buf s) (trace s) s.
Proof.
  destruct s as [[[wr fl] q cl c w] [k ms r] tr]. unfold open_ok; simpl.
  intros (Hc & Hk & Hr) Hf Hp. subst cl r k ms.
  destruct (BufferFacts.consistent_queue _ Hk) as [q1 Hq]. simpl in Hq. subst q.
  pose proof (@CI_drain (Build_t (Build_Sink wr fl) (Some q1) false c w) tr
                [] q1 w close []) as H.
  unfold mk, by_worker in H; simpl in H. rewrite !app_nil_r in H.
  apply H; auto.
Qed.

Lemma close_run_step fin b ds th s s' :
  BufferFacts.closing fin ->
  close_run fin b ds s -> step th s = Some s' -> close_run fin b ds s'.
Proof.
  intros Hfin [Hw | (b1 & t1 & Hinv & Hacc & Hsame)] Hstep.
  - destruct (writing_step b ds [fin] th s s' Hw Hstep) as [H | H];
      [now left|]. right. destruct H as (Hf & Hp & Hok & Hsame & Hacc).
    exists (buf s'), (trace s'). split; [|auto].
    apply close_inv_loaded; auto. destruct Hfin as [-> | ->]; exact Hf.
  - right. exists b1, t1. split; [|auto].
    exact (BufferFacts.close_inv_step b1 t1 th s s' Hinv Hstep).
Qed.

Lemma close_run_progress fin b ds s :
  close_run fin b ds s -> returned s = false -> exists th, step th s <> None.
Proof.
  intros [Hw | (b1 & t1 & Hinv & _)] Hr.
  - exists T_caller. exact (writing_caller_steps _ _ _ _ Hw Hr).
  - exact (BufferFacts.close_inv_progress b1 t1 s Hinv Hr).
Qed.

(** X3. Calls of [write] followed by [close()], or by [__del__()], on an
    open buffer and under every schedule: nothing is raised; the last
    call cannot wait for ever; and when it has returned, the sink holds
    what the buffer had taken followed by every chunk written, once each
    and in the order of the calls, and after them at most the empty
    chunk; the sink has been flushed once, the callback, if there is one,
    was the last thing called, and the buffer is closed with its queue
    gone and its worker ended. *)
Theorem close_after_writes_loses_nothing (fin : method) (b : t) (ds : list str)
    (tr : list event) (sched : list tid) (s' : System) :
  BufferFacts.closing fin ->
  _closed b = false -> consistent b = true ->
  exec sched (start b (map m_write ds ++ [fin]) tr) = Some s' ->
  raised (caller s') = None
  /\ List.length sched <= measure (start b (map m_write ds ++ [fin]) tr)
  /\ (returned s' = false -> exists th, step th s' <> None)
  /\ returned (run (measure (start b (map m_write ds ++ [fin]) tr))
                 (start b (map m_write ds ++ [fin]) tr)) = true
  /\ (returned s' = true ->
        exists sentinel before,
          (sentinel = [] \/ sentinel = [empty_str])
          /\ written (stdout (buf s')) = accepted b ++ ds ++ sentinel
          /\ flushes (stdout (buf s')) = S (flushes (stdout b))
          /\ trace s' = before ++ [SinkFlushed] ++ cleanup_events (_cleanup b)
          /\ _closed (buf s') = true
          /\ _queue (buf s') = None
          /\ _thread (buf s') = Exited).
Proof.
  intros Hfin Hc Hk He.
  assert (close_run fin b ds (start b (map m_write ds ++ [fin]) tr)) as Hi.
  { left. now apply writing_init. }
  pose proof (exec_keeps _ (fun th s1 s2 => close_run_step fin b ds th s1 s2 Hfin)
                sched _ _ Hi He) as Hinv.
  split.
  { destruct Hinv as [Hw | (b1 & t1 & Hinv & _)].
    - exact (proj2 (proj2 (writing_open _ _ _ _ Hw))).
    - exact (BufferFacts.close_inv_raised b1 t1 s' Hinv). }
  split; [pose proof (BufferFacts.exec_measure sched _ _ He); lia|].
  split; [exact (close_run_progress _ _ _ _ Hinv)|].
  split.
  { apply (run_returns (close_run fin b ds));
      [ intros th s1 s2; now apply close_run_step
      | apply close_run_progress | exact Hi ]. }
  intros Hr. destruct Hinv as [Hw | (b1 & t1 & Hinv & Hacc & Hsame)].
  - exfalso.
    destruct Hw as [s done rest Hds Hf Hp Hok Hsame Hacc
                   | s done d rest Hds Hf Hp Hok Hsame Hacc
                   | s done d rest Hds Hf Hp Hok Hsame Hacc];
      unfold returned in Hr; rewrite Hf in Hr; simpl in Hr; try discriminate.
    rewrite Hp in Hr. destruct rest; discriminate.
  - destruct (BufferFacts.close_inv_returned b1 t1 s' Hinv Hr) as (sn & Hsn & ->).
    destruct Hsame as [Hcl Hfl].
    exists sn, (sent_trace b1 t1 sn ++ [WorkerJoined; QueueDiscarded]).
    split; [exact Hsn|]. simpl. rewrite Hcl, Hfl.
    split; [|split; [reflexivity|split; [|auto]]].
    + unfold accepted in Hacc. now rewrite app_assoc, Hacc, <- app_assoc.
    + now rewrite <- !app_assoc.
Qed.

Lemma writes_reach_sink_in_order_witness :
  returned (run 60 Demo.writing_busy) = true
  /\ written (stdout (buf (run 60 Demo.writing_busy)))
     = accepted Demo.busy ++ [[97%Z]; [98%Z]]
  /\ _queue (buf (run 60 Demo.writing_busy)) = Some Queue_new.
Proof.
  assert (exec (picks 60 Demo.writing_busy) Demo.writing_busy
            = Some (run 60 Demo.writing_busy)) as He
    by (vm_compute; reflexivity).
  destruct (writes_reach_sink_in_order Demo.busy [[97%Z]; [98%Z]] []
              (picks 60 Demo.writing_busy) (run 60 Demo.writing_busy)
              eq_refl eq_refl He) as (_ & _ & _ & H & _).
  apply H. intros th. destruct th; vm_compute; reflexivity.
Defined.

Lemma flush_waits_for_all_chunks_witness :
  written (stdout (buf (run 60 Demo.flushing_busy)))
    = accepted Demo.busy ++ [[97%Z]; [98%Z]]
  /\ _queue (buf (run 60 Demo.flushing_busy)) = Some Queue_new
  /\ flushes (stdout (buf (run 60 Demo.flushing_busy))) = flushes (stdout Demo.busy).
Proof.
  assert (exec (picks 60 Demo.flushing_busy) Demo.flushing_busy
            = Some (run 60 Demo.flushing_busy)) as He
    by (vm_compute; reflexivity).
  destruct (flush_waits_for_all_chunks Demo.busy [[97%Z]; [98%Z]] []
              (picks 60 Demo.flushing_busy) (run 60 Demo.flushing_busy)
              eq_refl eq_refl He) as (_ & _ & _ & _ & H).
  apply H. vm_compute. reflexivity.
Defined.

Lemma close_after_writes_loses_nothing_witness :
  exists sentinel before,
    (sentinel = [] \/ sentinel = [empty_str])
    /\ written (stdout (buf (run 60 Demo.write_close_busy)))
       = accepted Demo.busy ++ [[97%Z]; [98%Z]] ++ sentinel
    /\ flushes (stdout (buf (run 60 Demo.write_close_busy)))
       = S (flushes (stdout Demo.busy))
    /\ trace (run 60 Demo.write_close_busy)
       = before ++ [SinkFlushed] ++ cleanup_events (_cleanup Demo.busy)
    /\ _closed (buf (run 60 Demo.write_close_busy)) = true
    /\ _queue (buf (run 60 Demo.write_close_busy)) = None
    /\ _thread (buf (run 60 Demo.write_close_busy)) = Exited.
Proof.
  assert (exec (picks 60 Demo.write_close_busy) Demo.write_close_busy
            = Some (run 60 Demo.write_close_busy)) as He
    by (vm_compute; reflexivity).
  destruct (close_after_writes_loses_nothing m_close Demo.busy [[97%Z]; [98%Z]] []
              (picks 60 Demo.write_close_busy) (run 60 Demo.write_close_busy)
              (or_introl eq_refl) eq_refl eq_refl He) as (_ & _ & _ & _ & H).
  apply H. vm_compute. reflexivity.
Defined.

End BufferRuns.

(** * A call of [write] beside a call of [close()] *)

Module BufferRaces.
Import InfiniteStdoutBuffer.

Lemma worker_keeps_caller s s' : _worker s = Some s' -> caller s' = caller s.
Proof.
  destruct s as [[k q cl c w] cr tr]; unfold _worker; simpl.
  destruct w; try discriminate.
  - intros H; now injection H as <-.
  - destruct q as [q|]; [|intros H; now injection H as <-].
    destruct (items q); [discriminate|]. intros H; now injection H as <-.
  - intros H; now injection H as <-.
  - destruct q as [q|]; [|intros H; now injection H as <-].
    destruct (unfinished_tasks q); intros H; now injection H as <-.
Qed.

Lemma system_eta s : {| buf := buf s; caller := caller s; trace := trace s |} = s.
Proof. now destruct s. Qed.

(** What caller and worker do alone, they do beside a caller that
    stands still. *)
Lemma exec_beside c sched : forall s s',
  exec sched s = Some s' ->
  exec_duo (map as_who sched) (beside c s) = Some (beside c s').
Proof.
  induction sched as [|th rest IH]; simpl; intros s s' H.
  - now injection H as <-.
  - destruct (step th s) as [s1|] eqn:E; [|discriminate].
    destruct th; simpl in *; unfold as_system, beside; simpl;
      rewrite system_eta, E.
    + exact (IH s1 s' H).
    + rewrite <- (worker_keeps_caller s s1 E). exact (IH s1 s' H).
Qed.

Lemma exec_duo_app sched1 sched2 d :
  exec_duo (sched1 ++ sched2) d =
  match exec_duo sched1 d with
  | Some d1 => exec_duo sched2 d1
  | None => None
  end.
Proof.
  revert d; induction sched1 as [|w r IH]; simpl; intros d; [reflexivity|].
  destruct (step_duo w d); [apply IH | reflexivity].
Qed.

(** X13. A [write(chunk)] that tests the closed flag before a [close()]
    in another thread sets it, and comes to its [put] after that
    [close()] has discarded the queue, ends in AttributeError: for every
    open buffer there is such a schedule, at whose end [close()] has
    returned, the writer has raised, and the sink holds what [close()]
    brought there and not the chunk of that [write]. *)
Theorem write_beside_close_can_raise (b : t) (chunk : str) (tr : list event) :
  _closed b = false -> consistent b = true ->
  exists sched d',
    exec_duo sched (duo b [m_write chunk] [m_close] tr) = Some d'
    /\ raised (first d') = Some AttributeError
    /\ back (second d') = true
    /\ _closed (shared d') = true
    /\ _queue (shared d') = None
    /\ exists sentinel, (sentinel = [] \/ sentinel = [empty_str])
         /\ written (stdout (shared d')) = accepted b ++ sentinel.
Proof.
  intros Hc Hk.
  destruct (BufferFacts.run_exec (measure (start b [m_close] tr))
              (start b [m_close] tr)) as (sched & He & _ & _).
  assert (returned (run (measure (start b [m_close] tr)) (start b [m_close] tr))
          = true) as Hr by exact (BufferFacts.close_run_returns b tr Hc Hk).
  remember (run (measure (start b [m_close] tr)) (start b [m_close] tr)) as s1
    eqn:Es1. clear Es1.
  pose proof (BufferFacts.close_inv_exec b tr sched _ _
                (BufferFacts.close_inv_init b tr Hc Hk) He) as Hinv.
  destruct (BufferFacts.close_inv_returned b tr _ Hinv Hr) as (sn & Hsn & ->).
  pose proof (exec_beside {| frame := [Put chunk]; pending := []; raised := None |}
                sched _ _ He) as Hd.
  exists (First :: First :: map as_who sched ++ [First]).
  eexists. split.
  { change (First :: First :: map as_who sched ++ [First])
      with ([First; First] ++ map as_who sched ++ [First]).
    rewrite exec_duo_app.
    assert (exec_duo [First; First] (duo b [m_write chunk] [m_close] tr)
            = Some (beside {| frame := [Put chunk]; pending := []; raised := None |}
                      (start b [m_close] tr))) as H2.
    { unfold duo, beside, start; simpl. unfold step_caller; simpl.
      rewrite Hc. simpl. now rewrite !app_nil_r. }
    rewrite H2, exec_duo_app, Hd.
    unfold beside, mk; simpl. unfold step_caller; simpl. reflexivity. }
  simpl. split; [reflexivity|]. split; [reflexivity|]. split; [reflexivity|].
  split; [reflexivity|]. exists sn. split; [exact Hsn|].
  unfold accepted. now rewrite app_assoc.
Qed.

(** X14. A [write(chunk)] can return and its chunk still never reach the
    sink: on an open buffer whose queue is empty and whose worker stands
    at its loop test, there is a schedule on which the [write], having
    tested the flag before [close()] set it, puts its chunk after
    [close()] has joined the queue; the worker then finds the flag set
    and leaves, [close()] discards the queue with the chunk in it, both
    calls return without an exception, and the sink holds what it held. *)
Theorem write_beside_close_can_lose_chunk (b : t) (chunk : str) (tr : list event) :
  _closed b = false -> _queue b = Some Queue_new -> _thread b = AtLoop ->
  exists d',
    exec_duo (losing_schedule (_cleanup b)) (duo b [m_write chunk] [m_close] tr)
      = Some d'
    /\ back (first d') = true
    /\ back (second d') = true
    /\ In (Enqueued chunk) (seen d')
    /\ written (stdout (shared d')) = written (stdout b)
    /\ _closed (shared d') = true
    /\ _queue (shared d') = None
    /\ _thread (shared d') = Exited.
Proof.
  intros Hc Hq Ht. destruct b as [[wr fl] q cl c w]. simpl in Hc, Hq, Ht.
  subst cl q w.
  exists {| shared := {| stdout := {| written := wr; flushes := S fl |};
                         _queue := None; _closed := true; _cleanup := c;
                         _thread := Exited |};
            first := {| frame := []; pending := []; raised := None |};
            second := {| frame := []; pending := []; raised := None |};
            seen := tr ++ [QueueJoined; MarkedClosed; Enqueued chunk;
                           Enqueued empty_str; WorkerJoined; QueueDiscarded;
                           SinkFlushed] ++ cleanup_events c |}.
  split.
  - destruct c as [f|]; cbn; unfold step_caller, _worker; cbn;
      repeat rewrite <- app_assoc; cbn; reflexivity.
  - cbn. repeat split. apply in_or_app. right. cbn. tauto.
Qed.

(** C5, on the code.  A [write('!')] called on the open buffer just made,
    from one thread, beside a [close()] from another.  The [write] tests
    the flag and finds the buffer open.  If its [put] then comes after
    the closer has set the flag, the chunk is enqueued and the [write]
    returns, the worker leaves without taking it, [close()] discards the
    queue, and the chunk never reaches the sink.  If its [put] comes
    after the whole of [close()], it raises [AttributeError]: the chunk
    is neither enqueued nor written. *)
Theorem write_beside_close_loses_chunk :
  (exists d1, exec_duo [First; First] Demo.write_beside_close = Some d1
      /\ _closed (shared d1) = false /\ frame (first d1) = [Put [33%Z]])
  /\ (exists d', exec_duo Demo.put_before_wakeup Demo.write_beside_close = Some d'
      /\ back (first d') = true /\ back (second d') = true
      /\ seen d' = [QueueJoined; MarkedClosed; Enqueued [33%Z]; Enqueued empty_str;
                    WorkerJoined; QueueDiscarded; SinkFlushed]
      /\ written (stdout (shared d')) = []
      /\ _queue (shared d') = None /\ _thread (shared d') = Exited)
  /\ (exists d', exec_duo Demo.put_after_close Demo.write_beside_close = Some d'
      /\ raised (first d') = Some AttributeError /\ back (second d') = true
      /\ seen d' = [QueueJoined; MarkedClosed; Enqueued empty_str;
                    WorkerJoined; QueueDiscarded; SinkFlushed]
      /\ written (stdout (shared d')) = []
      /\ _queue (shared d') = None /\ _thread (shared d') = Exited).
Proof.
  split; [|split]; eexists; (split; [vm_compute; reflexivity|]);
    repeat split.
Qed.

Lemma write_beside_close_can_raise_witness :
  exists sched d',
    exec_duo sched (duo Demo.busy [m_write [33%Z]] [m_close] []) = Some d'
    /\ raised (first d') = Some AttributeError
    /\ back (second d') = true
    /\ _closed (shared d') = true
    /\ _queue (shared d') = None
    /\ exists sentinel, (sentinel = [] \/ sentinel = [empty_str])
         /\ written (stdout (shared d')) = accepted Demo.busy ++ sentinel.
Proof.
  apply (write_beside_close_can_raise Demo.busy [33%Z] []); reflexivity.
Defined.

Lemma write_beside_close_can_lose_chunk_witness :
  exists d',
    exec_duo (losing_schedule (_cleanup Demo.fresh_buffer))
      (duo Demo.fresh_buffer [m_write [33%Z]] [m_close] []) = Some d'
    /\ back (first d') = true
    /\ back (second d') = true
    /\ In (Enqueued [33%Z]) (seen d')
    /\ written (stdout (shared d')) = written (stdout Demo.fresh_buffer)
    /\ _closed (shared d') = true
    /\ _queue (shared d') = None
    /\ _thread (shared d') = Exited.
Proof.
  apply (write_beside_close_can_lose_chunk Demo.fresh_buffer [33%Z] []);
    reflexivity.
Defined.

End BufferRaces.

(** * The buffer installed as [sys.stdout], and [close()] putting the old
      one back *)

Module ProcessFacts.
Import InfiniteStdoutBuffer.

(** The threads of a process step as they do by themselves. *)
Lemma exec_process_threads sched : forall p p',
  exec_process sched p = Some p' -> exec sched (threads p) = Some (threads p').
Proof.
  induction sched as [|th rest IH]; simpl; intros p p' H.
  - now injection H as <-.
  - unfold step_process in H.
    destruct (step th (threads p)) as [s1|] eqn:E; [|discriminate].
    exact (IH _ _ H).
Qed.

Lemma exec_process_total sched : forall p s',
  exec sched (threads p) = Some s' ->
  exists p', exec_process sched p = Some p' /\ threads p' = s'.
Proof.
  induction sched as [|th rest IH]; simpl; intros p s' H.
  - injection H as <-. eauto.
  - unfold step_process.
    destruct (step th (threads p)) as [s1|] eqn:E; [|discriminate].
    apply IH. exact H.
Qed.

(** The step that brings the caller back is a step of the caller, on the
    last instruction of its last call. *)
Lemma returned_by_last_step th s s' :
  step th s = Some s' -> returned s' = true -> returned s = false ->
  th = T_caller /\ pending (caller s) = []
  /\ exists i k, frame (caller s) = i :: k /\ (k = [] \/ i = Return).
Proof.
  destruct s as [b [k ms r] tr]. destruct th; simpl.
  - unfold step_caller, returned; simpl.
    destruct r; [discriminate|].
    destruct k as [|i k].
    + destruct ms as [|m ms]; [discriminate|].
      intros H; injection H as <-; simpl. destruct m; discriminate.
    + intros H Hr _. split; [reflexivity|].
      assert (ms = [] /\ (k = [] \/ i = Return)) as [-> Hk]; [|eauto].
      unfold continue_, throw in H.
      destruct i; simpl in H;
        repeat match type of H with
               | context [match ?x with _ => _ end] => destruct x
               end; try discriminate; injection H as <-; simpl in Hr;
        try discriminate.
      all: try (destruct k; [destruct ms; [auto|discriminate]|discriminate]).
      all: try (destruct ms; [auto|discriminate]).
      all: destruct (_ ++ k) eqn:Ek; [|discriminate];
        apply app_eq_nil in Ek; destruct Ek as [_ ->];
        destruct ms; [auto|discriminate].
  - intros H Hr Hn. exfalso.
    assert (caller s' = {| frame := k; pending := ms; raised := r |}) as Hc.
    { unfold _worker, worker_goes in H; simpl in H.
      destruct (_thread b); try discriminate;
        repeat match type of H with
               | context [match ?x with _ => _ end] => destruct x
               end; try discriminate; injection H as <-; reflexivity. }
    unfold returned in *. rewrite Hc in Hr. simpl in *. congruence.
Qed.

(** The callback of the buffer stays what it was. *)
Lemma close_run_cleanup fin b ds s :
  close_run fin b ds s -> _cleanup (buf s) = _cleanup b.
Proof.
  intros [Hw | (b1 & t1 & Hinv & _ & [Hc _])].
  - destruct Hw as [s done rest _ _ _ _ [Hc _] _
                   | s done d rest _ _ _ _ [Hc _] _
                   | s done d rest _ _ _ _ [Hc _] _]; exact Hc.
  - rewrite <- Hc. destruct Hinv; reflexivity.
Qed.

(** Once the caller is back from [close()], no thread steps. *)
Lemma close_run_done fin b ds th s :
  close_run fin b ds s -> returned s = true -> step th s = None.
Proof.
  intros [Hw | (b1 & t1 & Hinv & _)] Hr.
  - exfalso.
    destruct Hw as [s done rest Hds Hf Hp Hok Hsame Hacc
                   | s done d rest Hds Hf Hp Hok Hsame Hacc
                   | s done d rest Hds Hf Hp Hok Hsame Hacc];
      unfold returned in Hr; rewrite Hf in Hr; simpl in Hr; try discriminate.
    rewrite Hp in Hr. destruct rest; discriminate.
  - destruct (BufferFacts.close_inv_returned b1 t1 s Hinv Hr) as (sn & _ & ->).
    destruct th; reflexivity.
Qed.

(** In a run of calls of [write] and a [close()], the caller stands
    before its last instruction only at the test on the callback or at
    the call of the callback. *)
Lemma close_run_last fin b ds s i k :
  BufferFacts.closing fin ->
  close_run fin b ds s -> pending (caller s) = [] ->
  frame (caller s) = i :: k -> k = [] \/ i = Return ->
  k = [] /\ (i = If HasCleanup [Call_cleanup] [] \/ i = Call_cleanup).
Proof.
  intros Hfin [Hw | (b1 & t1 & Hinv & _)] Hp Hf Hk.
  - exfalso.
    destruct Hw as [s done rest _ _ Hp' _ _ _
                   | s done d rest _ _ Hp' _ _ _
                   | s done d rest _ _ Hp' _ _ _];
      rewrite Hp in Hp'; symmetry in Hp'; apply app_eq_nil in Hp';
      destruct Hp' as [_ Hp']; discriminate.
  - destruct Hinv as
      [done q w k0 ms Hk0 Hcons Hpend | w Hw | w Hw | w Hw | | | w Hw
       | sn q Hsn | sn Hsn | sn Hsn | sn f Hsn Hf0 | sn Hsn];
      simpl in *;
      try (destruct Hk0 as [[-> ->] | [[-> ->] | [-> ->]]]; simpl in *);
      try discriminate;
      injection Hf as <- <-; destruct Hk as [Hk | Hk]; try discriminate; auto.
Qed.

(** The caller stands at the call of the callback only as the last step
    of [close()]. *)
Lemma close_run_at_cleanup fin b ds s k :
  close_run fin b ds s -> frame (caller s) = Call_cleanup :: k ->
  k = [] /\ pending (caller s) = [].
Proof.
  intros [Hw | (b1 & t1 & Hinv & _)] Hf.
  - exfalso.
    destruct Hw as [s done rest _ Hf' _ _ _ _
                   | s done d rest _ Hf' _ _ _ _
                   | s done d rest _ Hf' _ _ _ _];
      rewrite Hf in Hf'; discriminate.
  - destruct Hinv as
      [done q w k0 ms Hk0 Hcons Hpend | w Hw | w Hw | w Hw | | | w Hw
       | sn q Hsn | sn Hsn | sn Hsn | sn f Hsn Hf0 | sn Hsn];
      simpl in *;
      try (destruct Hk0 as [[-> ->] | [[-> ->] | [-> ->]]]; simpl in *);
      try discriminate.
    injection Hf as <-. auto.
Qed.

Lemma rebound_step fin b ds th p p' :
  BufferFacts.closing fin ->
  _cleanup b = Some restore_stdout ->
  close_run fin b ds (threads p) -> rebound p ->
  step_process th p = Some p' -> rebound p'.
Proof.
  intros Hfin Hcb Hrun Hb Hstep. unfold step_process in Hstep.
  destruct (step th (threads p)) as [s'|] eqn:Hs; [|discriminate].
  injection Hstep as <-. unfold rebound in *; simpl.
  destruct (returned (threads p)) eqn:Hr.
  { rewrite (close_run_done fin b ds th _ Hrun Hr) in Hs. discriminate. }
  pose proof (close_run_cleanup fin b ds _ Hrun) as Hc. rewrite Hcb in Hc.
  rewrite Hc.
  destruct (returned s') eqn:Hr'.
  - destruct (returned_by_last_step th _ _ Hs Hr' Hr) as (-> & Hp & i & k & Hf & Hk).
    destruct (close_run_last fin b ds _ i k Hfin Hrun Hp Hf Hk) as [-> [-> | ->]].
    + exfalso. destruct (threads p) as [bf [fr ms r] tr]; simpl in *.
      subst fr ms. unfold returned in Hr; simpl in Hr.
      destruct r; [discriminate Hs|]. unfold step, step_caller in Hs; simpl in Hs.
      rewrite Hc in Hs. injection Hs as <-. discriminate Hr'.
    + rewrite Hf.
      destruct (raised (caller (threads p))) eqn:Hra; [|reflexivity].
      exfalso. unfold step, step_caller in Hs. rewrite Hra in Hs. discriminate.
  - rewrite Hb.
    destruct th; [|reflexivity].
    destruct (raised (caller (threads p))); [reflexivity|].
    destruct (frame (caller (threads p))) as [|i k] eqn:Hf; [reflexivity|].
    destruct i; try reflexivity.
    exfalso. destruct (close_run_at_cleanup fin b ds _ k Hrun Hf) as [-> Hp].
    destruct (threads p) as [bf [fr ms r] tr]; simpl in *.
    subst fr ms. unfold step, step_caller in Hs; simpl in Hs.
    destruct r; [discriminate|]. rewrite Hc in Hs. injection Hs as <-.
    discriminate Hr'.
Qed.

Lemma rebound_exec fin b ds sched : forall p p',
  BufferFacts.closing fin ->
  _cleanup b = Some restore_stdout ->
  close_run fin b ds (threads p) -> rebound p ->
  exec_process sched p = Some p' ->
  close_run fin b ds (threads p') /\ rebound p'.
Proof.
  induction sched as [|th rest IH]; simpl; intros p p' Hfin Hcb Hrun Hb H.
  - injection H as <-. auto.
  - destruct (step_process th p) as [p1|] eqn:E; [|discriminate].
    apply (IH p1 p' Hfin Hcb); [| |exact H].
    + unfold step_process in E.
      destruct (step th (threads p)) as [s1|] eqn:Es; [|discriminate].
      injection E as <-. simpl.
      exact (BufferRuns.close_run_step fin b ds th _ _ Hfin Hrun Es).
    + exact (rebound_step fin b ds th p p1 Hfin Hcb Hrun Hb E).
Qed.


(** The run of calls of [write] and a [close()] on the buffer that
    [setInfiniteStdout()] has installed over the file object [k]. *)
Lemma installed_run k b ms :
  setInfiniteStdout (Plain k) = Buffered b ->
  _closed b = false /\ consistent b = true
  /\ _cleanup b = Some restore_stdout
  /\ accepted b = written k /\ flushes (stdout b) = S (flushes k)
  /\ rebound (installed b (ms ++ [m_close])).
Proof.
  intros H. injection H as <-. unfold rebound, accepted; simpl.
  rewrite app_nil_r. repeat split. unfold returned; simpl.
  now destruct ms.
Qed.

Lemma close_rebinds_stdout k b ds sched p' :
  setInfiniteStdout (Plain k) = Buffered b ->
  exec_process sched (installed b (map m_write ds ++ [m_close])) = Some p' ->
  (returned (threads p') = false ->
     sys_stdout_of p' = Buffered (buf (threads p')))
  /\ (returned (threads p') = true ->
        exists sentinel, (sentinel = [] \/ sentinel = [empty_str])
          /\ sys_stdout_of p'
             = Plain {| written := written k ++ ds ++ sentinel;
                        flushes := S (S (flushes k)) |}).
Proof.
  intros Hb He.
  destruct (installed_run k b (map m_write ds) Hb) as (Hc & Hk & Hcb & Hacc & Hfl & Hre).
  assert (close_run m_close b ds (threads (installed b (map m_write ds ++ [m_close]))))
    as Hi by (left; now apply BufferRuns.writing_init).
  destruct (rebound_exec m_close b ds sched _ _ (or_introl eq_refl) Hcb Hi Hre He)
    as [Hrun Hbd].
  unfold rebound in Hbd. unfold sys_stdout_of. rewrite Hbd.
  split; intros Hr; rewrite Hr; [reflexivity|].
  destruct Hrun as [Hw | (b1 & t1 & Hinv & Hacc1 & [_ Hfl1])].
  - exfalso.
    destruct Hw as [s done rest Hds Hf Hp Hok Hsame Hacc0
                   | s done d rest Hds Hf Hp Hok Hsame Hacc0
                   | s done d rest Hds Hf Hp Hok Hsame Hacc0];
      unfold returned in Hr; rewrite Hf in Hr; simpl in Hr; try discriminate.
    rewrite Hp in Hr. destruct rest; discriminate.
  - destruct (BufferFacts.close_inv_returned b1 t1 _ Hinv Hr) as (sn & Hsn & ->).
    exists sn. split; [exact Hsn|]. simpl. rewrite Hfl1, Hfl.
    rewrite app_assoc.
    change (written (stdout b1) ++ pending_chunks b1) with (accepted b1).
    rewrite Hacc1, Hacc, <- app_assoc. reflexivity.
Qed.

Lemma close_comes_back k b ds :
  setInfiniteStdout (Plain k) = Buffered b ->
  exists sched p',
    exec_process sched (installed b (map m_write ds ++ [m_close])) = Some p'
    /\ returned (threads p') = true.
Proof.
  intros Hb.
  destruct (installed_run k b (map m_write ds) Hb) as (Hc & Hk & _).
  set (s0 := start b (map m_write ds ++ [m_close]) []).
  destruct (BufferFacts.run_exec (measure s0) s0) as (sched & He & _).
  destruct (exec_process_total sched (installed b (map m_write ds ++ [m_close]))
              _ He) as (p' & Hp & Ht).
  exists sched, p'. split; [exact Hp|]. rewrite Ht.
  apply (BufferRuns.run_returns (close_run m_close b ds)).
  - intros th s1 s2. apply BufferRuns.close_run_step. now left.
  - apply BufferRuns.close_run_progress.
  - left. now apply BufferRuns.writing_init.
Qed.

End ProcessFacts.

(** * More on the orchestrator *)

Module RelayMore.
Import Stream2Zmq.

Section Further.

Context {World Ready Token : Type}.
Variable E : Externals World Ready Token.

Let Machine := Machine World.
Let M := @M World.

(** *** What every operation keeps of the object *)

Section Preserved.

Variable P : t -> Prop.
Hypothesis P_zmq : preserves (World:=World) P zmq.
Hypothesis P_reset : preserves P (reset E).

Lemma preserves_same {A} (c : M A) :
  (forall m, self (snd (c m)) = self m) -> preserves P c.
Proof. intros H m Hp. now rewrite H. Qed.

Lemma preserves_bind {A B} (c : M A) (k : A -> M B) :
  preserves P c -> (forall a, preserves P (k a)) -> preserves P (bind c k).
Proof.
  intros Hc Hk m Hp. unfold bind. specialize (Hc m Hp).
  destruct (c m) as [[a|e|] m']; simpl in *; [|assumption|assumption].
  now apply (Hk a m').
Qed.

Lemma preserves_try {A} (c : M A) (h : exn -> M A) :
  preserves P c -> (forall e, preserves P (h e)) -> preserves P (try_ c h).
Proof.
  intros Hc Hh m Hp. unfold try_. specialize (Hc m Hp).
  destruct (c m) as [[a|e|] m']; simpl in *; [assumption| |assumption].
  now apply (Hh e m').
Qed.

Lemma preserves_ret {A} (a : A) : preserves (World:=World) P (ret a).
Proof. now apply preserves_same. Qed.

Lemma preserves_raise {A} e : preserves (World:=World) (A:=A) P (raise_ e).
Proof. now apply preserves_same. Qed.

Lemma preserves_lift {A} (r : exn + A) : preserves (World:=World) P (lift r).
Proof. destruct r; now apply preserves_same. Qed.

Lemma preserves_call {A} (c : Call) (f : World -> A * World) :
  preserves P (call c f).
Proof. now apply preserves_same. Qed.

Lemma preserves_call_raising {A} (c : Call) (f : World -> (exn + A) * World) :
  preserves P (call_raising c f).
Proof.
  apply preserves_bind; [apply preserves_call | intros; apply preserves_lift].
Qed.

Lemma preserves_void {A} (c : M A) : preserves P c -> preserves P (void c).
Proof. intros Hc. apply preserves_bind; [exact Hc | intros; apply preserves_ret]. Qed.

Lemma preserves_get_self : preserves (World:=World) P get_self.
Proof. now apply preserves_same. Qed.

Lemma preserves_stdout data : preserves (World:=World) P (stdout data).
Proof.
  apply preserves_bind; [apply preserves_lift|]. intros text.
  apply preserves_same. intros m.
  now destruct (sys_stdout_write text (sys_stdout m)).
Qed.

Lemma preserves_timeout : preserves P (timeout E).
Proof.
  apply preserves_bind; [apply preserves_get_self | intros; apply preserves_call].
Qed.

Lemma preserves_isWaiting : preserves P (isWaiting E).
Proof. apply preserves_bind; [exact P_zmq | intros; apply preserves_call]. Qed.

Lemma preserves_poll timeout_s : preserves P (poll E timeout_s).
Proof.
  unfold poll, logger_debug.
  apply preserves_bind; [apply preserves_call|]. intros _.
  apply preserves_bind; [apply preserves_isWaiting|]. intros waiting.
  apply preserves_bind.
  - destruct waiting; [|apply preserves_ret].
    apply preserves_bind; [apply preserves_get_self|]. intros me.
    apply preserves_bind; [exact P_zmq|]. intros z.
    apply preserves_bind; [apply preserves_call|]. intros last.
    apply preserves_bind; [apply preserves_call|]. intros now.
    destruct (_ <=? 0)%float; [|apply preserves_ret].
    apply preserves_bind; [apply preserves_timeout | intros; apply preserves_ret].
  - intros t. apply preserves_bind; [exact P_zmq | intros; apply preserves_call].
Qed.

Lemma preserves_drain fuel socket f : preserves P (drain E fuel socket f).
Proof.
  induction fuel as [|n IH]; simpl; [now apply preserves_same|].
  apply preserves_bind; [apply preserves_call_raising|]. intros frame.
  apply preserves_bind; [apply preserves_call_raising|]. intros _. exact IH.
Qed.

Lemma preserves_recvAll fuel socket f : preserves P (recvAll E fuel socket f).
Proof.
  apply preserves_try; [apply preserves_drain|]. intros e.
  destruct e; simpl; try apply preserves_raise.
  destruct (errno =? EAGAIN E)%Z; [apply preserves_ret | apply preserves_raise].
Qed.

Lemma preserves_op o : preserves P (run_op E o).
Proof.
  destruct o; simpl.
  - exact P_reset.
  - apply preserves_bind; [apply preserves_call | intros; apply preserves_call].
  - apply preserves_bind; [apply preserves_call | intros; apply preserves_call].
  - apply preserves_stdout.
  - apply preserves_void, preserves_isWaiting.
  - apply preserves_void, preserves_poll.
  - apply preserves_recvAll.
  - apply preserves_void, preserves_bind; [exact P_zmq | intros; apply preserves_call].
  - apply preserves_void, P_zmq.
  - apply preserves_bind; [exact P_zmq | intros; apply preserves_call].
Qed.

Lemma preserves_ops ops : forall m : Machine,
  P (self m) -> P (self (run_ops E ops m)).
Proof.
  induction ops as [|o ops IH]; simpl; intros m Hp; [exact Hp|].
  apply IH. now apply preserves_op.
Qed.

End Preserved.

Lemma zmq_self (m : Machine) :
  self (snd (zmq m)) = self m
  \/ exists l rest, _zmq (self m) = None /\ _stack (self m) = l :: rest
       /\ self (snd (zmq m)) = set_zmq (Some l) (self m).
Proof.
  destruct m as [[def t st zc] o w cs]; unfold zmq, bind, get_self; simpl.
  destruct zc as [z|]; simpl; [now left|].
  destruct st as [|l st]; simpl; [now left|]. right. eauto.
Qed.

Lemma coherent_zmq : preserves (World:=World) coherent zmq.
Proof.
  intros m Hc. destruct (zmq_self m) as [-> | (l & rest & Hz & Hs & ->)];
    [exact Hc|]. unfold coherent; simpl. now rewrite Hs.
Qed.

Lemma coherent_reset : preserves coherent (reset E).
Proof. intros m _. rewrite RelayFacts.reset_run. exact I. Qed.

(** X4. Whatever operations are called on the orchestrator, resets among
    them, a cached endpoint is the first stage of the chain the object
    holds at that moment: the [zmq] property never gives a stage of a
    chain that a [reset()] has replaced, it gives the first stage of the
    present chain. *)
Theorem zmq_is_first_stage (ops : list op) (m : Machine) :
  coherent (self m) ->
  coherent (self (run_ops E ops m))
  /\ forall l rest, _stack (self (run_ops E ops m)) = l :: rest ->
       fst (zmq (run_ops E ops m)) = Val l.
Proof.
  intros Hc.
  pose proof (preserves_ops coherent coherent_zmq coherent_reset ops m Hc) as H.
  split; [exact H|]. intros l rest Hs.
  rewrite (RelayFacts.zmq_run (run_ops E ops m) l); [reflexivity|].
  unfold endpoint. unfold coherent in H.
  destruct (_zmq (self (run_ops E ops m))) as [z|].
  - rewrite Hs in H. simpl in H. now injection H as ->.
  - now rewrite Hs.
Qed.

(** X5. No operation changes what the orchestrator was configured with:
    after any operations the stored specification string and the timeout
    are the ones the object had, so that every [reset()] builds from the
    same string. *)
Theorem configuration_is_kept (ops : list op) (m : Machine) :
  _stack_def (self (run_ops E ops m)) = _stack_def (self m)
  /\ _timeout_s (self (run_ops E ops m)) = _timeout_s (self m).
Proof.
  apply (preserves_ops
           (fun me => _stack_def me = _stack_def (self m)
                      /\ _timeout_s me = _timeout_s (self m))).
  - intros m1 Hp. destruct (zmq_self m1) as [-> | (l & rest & _ & _ & ->)];
      [exact Hp | exact Hp].
  - intros m1 Hp. rewrite RelayFacts.reset_run. exact Hp.
  - split; reflexivity.
Qed.

(** *** The wait that [poll] asks of the endpoint *)

Lemma polled_app cs1 cs2 : polled (cs1 ++ cs2) = polled cs1 ++ polled cs2.
Proof.
  induction cs1 as [|c cs1 IH]; simpl; [reflexivity|].
  destruct c; simpl; rewrite IH; reflexivity.
Qed.

(** X6. A [poll(timeout_s)] on an orchestrator with an endpoint polls the
    endpoint exactly once.  On an endpoint that is not waiting the bound
    is [timeout_s] as given.  On a waiting endpoint the wait is always
    bounded, by the timeout given (the configured one for [None]) or by
    the [remaining] computed: it is no longer than the timeout given and,
    while [remaining] is not [<= 0], no longer than [remaining], these
    being numbers.  [timeout()] is called once if the endpoint waits and
    [remaining <= 0], otherwise not. *)
Theorem poll_waits_no_longer_than_asked (m : Machine) (timeout_s : option float)
    (z : Layer) :
  endpoint (self m) = Some z ->
  exists bound,
    polled (calls (snd (poll E timeout_s m))) = polled (calls m) ++ [bound]
    /\ (zmq_isWaiting E (ref z) (world m) = false ->
          bound = timeout_s
          /\ timeouts (calls (snd (poll E timeout_s m))) = timeouts (calls m))
    /\ (zmq_isWaiting E (ref z) (world m) = true ->
          exists b, bound = Some b
            /\ (b = given timeout_s (self m) \/ b = remaining E m z)
            /\ (is_nan (given timeout_s (self m)) = false ->
                  (b <=? given timeout_s (self m))%float = true)
            /\ ((remaining E m z <=? 0)%float = false ->
                  timeouts (calls (snd (poll E timeout_s m)))
                  = timeouts (calls m)
                  /\ (is_nan (given timeout_s (self m)) = false ->
                      is_nan (remaining E m z) = false ->
                      (b <=? remaining E m z)%float = true))
            /\ ((remaining E m z <=? 0)%float = true ->
                  b = given timeout_s (self m)
                  /\ timeouts (calls (snd (poll E timeout_s m)))
                     = S (timeouts (calls m)))).
Proof.
  intros Hz. destruct (zmq_isWaiting E (ref z) (world m)) eqn:Hw.
  - destruct (remaining E m z <=? 0)%float eqn:Hb.
    + pose proof (RelayFacts.poll_expired_run E m timeout_s z Hz Hw Hb) as Hp.
      simpl in Hp. exists (Some (given timeout_s (self m))).
      rewrite Hp. simpl. rewrite polled_app, RelayFacts.timeouts_app. simpl.
      split; [reflexivity|]. split; [discriminate|]. intros _.
      exists (given timeout_s (self m)). split; [reflexivity|].
      split; [now left|]. split; [apply FloatFacts.leb_refl|]. split.
      * discriminate.
      * intros _. split; [reflexivity | lia].
    + pose proof (RelayFacts.poll_pending_run E m timeout_s z Hz Hw Hb) as Hp.
      simpl in Hp.
      exists (Some (min (given timeout_s (self m)) (remaining E m z))).
      rewrite Hp. simpl. rewrite polled_app, RelayFacts.timeouts_app. simpl.
      split; [reflexivity|]. split; [discriminate|]. intros _.
      exists (min (given timeout_s (self m)) (remaining E m z)).
      split; [reflexivity|]. split; [apply FloatFacts.min_either|].
      split; [apply FloatFacts.min_le_l|]. split.
      * intros _. split; [lia | apply FloatFacts.min_le_r].
      * discriminate.
  - exists timeout_s. rewrite (RelayFacts.poll_idle_run E m timeout_s z Hz Hw).
    simpl. rewrite polled_app, RelayFacts.timeouts_app. simpl.
    split; [reflexivity|]. split; [|discriminate]. intros _. split; [reflexivity|lia].
Qed.

(** *** [recvAll] and a handler that raises *)

Lemma drain_stops socket f (w : World) frames last e w' :
  stops_in_handler E socket f w frames last e w' ->
  forall fuel (m : Machine), world m = w -> List.length frames < fuel ->
  drain E fuel socket f m
    = (Exc e,
       with_world w'
         (flat_map (fun frame => [Socket_recv socket; Handler f frame]) frames
            ++ [Socket_recv socket; Handler f last]) m).
Proof.
  induction 1 as [w last w1 e w' Hrecv Hh
                 | w frame w1 w2 frames last e w' Hrecv Hh _ IH];
    intros fuel m Hm Hfuel; (destruct fuel as [|fuel]; [simpl in Hfuel; lia|]);
    simpl; unfold call_raising, bind, call, lift; simpl; rewrite Hm, Hrecv; simpl;
    rewrite Hh; simpl.
  - unfold with_world; simpl. now rewrite <- !app_assoc.
  - unfold ret. rewrite IH; [|reflexivity|simpl in Hfuel; lia].
    unfold with_world; simpl. now rewrite <- !app_assoc.
Qed.

(** X7. When the handler raises on a frame, [recvAll] stops there: the
    frames before it were each received and handed over once, the frame
    itself was handed over, and nothing more is received.  What the
    handler raised is raised by [recvAll] as it is, unless it is a
    ZMQError with errno EAGAIN: then [recvAll] returns as if the socket
    were drained, whatever the socket still holds. *)
Theorem recvAll_stops_where_handler_raises (socket f : nat) (m : Machine)
    (frames : list bytes) (last : bytes) (e : exn) (w' : World) (fuel : nat) :
  stops_in_handler E socket f (world m) frames last e w' ->
  List.length frames < fuel ->
  let made :=
    flat_map (fun frame => [Socket_recv socket; Handler f frame]) frames
      ++ [Socket_recv socket; Handler f last] in
  (e = ZMQError (EAGAIN E) ->
     recvAll E fuel socket f m = (Val tt, with_world w' made m))
  /\ (e <> ZMQError (EAGAIN E) ->
        recvAll E fuel socket f m = (Exc e, with_world w' made m)).
Proof.
  intros Hs Hfuel made. unfold recvAll, try_.
  rewrite (drain_stops socket f _ frames last e w' Hs fuel m eq_refl Hfuel).
  fold made. split.
  - intros ->. simpl. now rewrite Z.eqb_refl.
  - intros Hne. destruct e as [ | | | | errno | tag]; simpl; try reflexivity.
    destruct (Z.eqb_spec errno (EAGAIN E)) as [->|]; [congruence | reflexivity].
Qed.

(** X8. [recvAll] goes on for as long as the socket gives frames and the
    handler takes them: on worlds in which that is always so, no amount
    of fuel lets it return or raise, and with fuel [n] it has received
    and handed over [n] frames. *)
Theorem recvAll_goes_on_while_frames_come (socket f : nat)
    (I : World -> Prop) (m : Machine) (fuel : nat) :
  (forall w, I w -> exists frame w1 w2,
     socket_recv E socket w = (inr frame, w1)
     /\ handler E f frame w1 = (inr tt, w2) /\ I w2) ->
  I (world m) ->
  fst (recvAll E fuel socket f m) = OutOfFuel
  /\ List.length (calls (snd (recvAll E fuel socket f m)))
     = List.length (calls m) + 2 * fuel.
Proof.
  intros Hall. unfold recvAll, try_.
  assert (forall n (m1 : Machine), I (world m1) ->
            fst (drain E n socket f m1) = OutOfFuel
            /\ List.length (calls (snd (drain E n socket f m1)))
               = List.length (calls m1) + 2 * n) as Hd.
  { induction n as [|n IH]; intros m1 Hi; simpl; [split; [reflexivity|lia]|].
    destruct (Hall _ Hi) as (frame & w1 & w2 & Hrecv & Hh & Hi2).
    unfold call_raising, bind, call, lift; simpl. rewrite Hrecv; simpl.
    rewrite Hh; simpl. unfold ret.
    match goal with |- context [drain E n socket f ?m2] =>
      destruct (IH m2 Hi2) as [H1 H2] end.
    split; [exact H1|]. rewrite H2. simpl. rewrite !length_app. simpl. lia. }
  intros Hi. destruct (Hd fuel m Hi) as [H1 H2].
  destruct (drain E fuel socket f m) as [[a|e|] m']; simpl in *;
    try discriminate. auto.
Qed.

(** *** What [stdout] writes *)

Lemma scan_ascii data :
  Forall (fun x => (Byte.to_N x < 128)%N) data ->
  Codec.scan None data = map (fun x => Codec.Char (code x)) data.
Proof.
  induction 1 as [|x data Hx _ IH]; simpl; [reflexivity|].
  unfold Codec.lead, code.
  destruct (Z.ltb_spec (Z.of_N (Byte.to_N x)) 128) as [_|Hge]; [|lia].
  now rewrite IH.
Qed.

Lemma chars_all (cs : list Z) : Codec.chars (map Codec.Char cs) = Some cs.
Proof. induction cs as [|c cs IH]; simpl; [reflexivity | now rewrite IH]. Qed.

Lemma scan_length data : forall aw,
  List.length (Codec.scan aw data)
  <= List.length data + match aw with Some _ => 1 | None => 0 end.
Proof.
  induction data as [|x data IH]; intros aw; simpl.
  - destruct aw; simpl; lia.
  - pose proof (IH None) as H0. simpl in H0.
    assert (forall a, List.length (Codec.scan (Some a) data)
                      <= List.length data + 1) as H1 by (intros a; apply (IH (Some a))).
    assert (List.length
              match Codec.lead (Z.of_N (Byte.to_N x)) with
              | Codec.Single cp => Codec.Char cp :: Codec.scan None data
              | Codec.Starts a => Codec.scan (Some a) data
              | Codec.Invalid => Codec.Malformed :: Codec.scan None data
              end <= List.length data + 1) as Hfirst.
    { destruct (Codec.lead _); simpl; [lia | apply H1 | lia]. }
    destruct aw as [a|]; [|lia].
    destruct (_ && _); simpl; [|lia].
    destruct (Codec.more a); simpl; [lia|]. specialize (H1
      {| Codec.more := n; Codec.lo := 128; Codec.hi := 191;
         Codec.acc := Codec.acc a * 64 + (Z.of_N (Byte.to_N x) - 128) |}). lia.
Qed.

Lemma scan_awaited_nonempty data : forall a, Codec.scan (Some a) data <> [].
Proof.
  induction data as [|x data IH]; intros a; simpl; [discriminate|].
  destruct (_ && _).
  - destruct (Codec.more a); [discriminate | apply IH].
  - discriminate.
Qed.

(** X9. [stdout(data)] writes ASCII bytes as they are: for bytes all
    below 128 the text has their codes, one character a byte, and strict
    decoding gives the same.  For any bytes the text has no more
    characters than there are bytes, and at least one if there is a
    byte. *)
Theorem stdout_text_of_bytes (data : bytes) (m : Machine) :
  (Forall (fun x => (Byte.to_N x < 128)%N) data ->
     text_of data = map code data
     /\ Codec.decode Codec.strict data = inr (map code data)
     /\ stdout data m =
          match sys_stdout_write (map code data) (sys_stdout m) with
          | inr o => (Val tt, {| self := self m; sys_stdout := o; world := world m;
                                 calls := calls m ++ [Sys_stdout_write (map code data)] |})
          | inl e => (Exc e, m)
          end)
  /\ List.length (text_of data) <= List.length data
  /\ (data <> [] -> text_of data <> []).
Proof.
  split; [|split].
  - intros Hascii.
    assert (text_of data = map code data) as Ht.
    { unfold text_of. rewrite (scan_ascii data Hascii), map_map. reflexivity. }
    split; [exact Ht|]. split.
    + unfold Codec.decode. rewrite (scan_ascii data Hascii).
      rewrite <- (map_map code Codec.Char). now rewrite chars_all.
    + change (stdout data m) with
        (match sys_stdout_write (text_of data) (sys_stdout m) with
         | inr o => (Val tt, {| self := self m; sys_stdout := o; world := world m;
                                calls := calls m ++ [Sys_stdout_write (text_of data)] |})
         | inl e => (Exc e, m)
         end).
      now rewrite Ht.
  - unfold text_of. rewrite length_map.
    pose proof (scan_length data None) as H. simpl in H. lia.
  - unfold text_of. destruct data as [|x data]; [congruence|]. intros _.
    simpl. destruct (Codec.lead _); simpl; try discriminate.
    intros H. apply map_eq_nil in H. exact (scan_awaited_nonempty data a H).
Qed.

(** *** Text on its way to the sink *)

Lemma stdout_buffered (data : bytes) (m : Machine) b :
  sys_stdout m = Buffered b ->
  InfiniteStdoutBuffer._closed b = false ->
  InfiniteStdoutBuffer.consistent b = true ->
  exists b', sys_stdout (snd (stdout data m)) = Buffered b'
    /\ InfiniteStdoutBuffer._closed b' = false
    /\ InfiniteStdoutBuffer.consistent b' = true
    /\ InfiniteStdoutBuffer.accepted b'
       = InfiniteStdoutBuffer.accepted b ++ [text_of data]
    /\ InfiniteStdoutBuffer.same_setup b b'
    /\ InfiniteStdoutBuffer.stdout b' = InfiniteStdoutBuffer.stdout b.
Proof.
  intros Hb Hc Hk.
  destruct (BufferFacts.consistent_queue _ Hk) as [q Hq].
  exists (InfiniteStdoutBuffer.set_queue
            (Some (InfiniteStdoutBuffer.Queue_put (text_of data) q)) b).
  assert (InfiniteStdoutBuffer.write (text_of data) b
          = inr (InfiniteStdoutBuffer.set_queue
                   (Some (InfiniteStdoutBuffer.Queue_put (text_of data) q)) b)) as Hwr.
  { unfold InfiniteStdoutBuffer.write, InfiniteStdoutBuffer.queue_put.
    now rewrite Hc, Hq. }
  split.
  { change (stdout data m) with
      (match sys_stdout_write (text_of data) (sys_stdout m) with
       | inr o => (Val tt, {| self := self m; sys_stdout := o; world := world m;
                              calls := calls m ++ [Sys_stdout_write (text_of data)] |})
       | inl e => (Exc e, m)
       end).
    rewrite Hb. simpl. now rewrite Hwr. }
  split; [exact Hc|]. split.
  { exact (BufferFacts.consistent_write _ _ _ Hk Hc Hwr). }
  split.
  { unfold InfiniteStdoutBuffer.accepted. simpl.
    rewrite (BufferRuns.pending_put _ q b Hk Hq). now rewrite app_assoc. }
  split; [split; reflexivity | reflexivity].
Qed.

(** X10. Calls of [stdout] on an orchestrator whose [sys.stdout] is an
    open buffer put the texts on the buffer in the order of the calls
    and give the sink nothing themselves; a [close()] of the buffer,
    under every schedule, then brings what the buffer had taken and
    every text to the sink, once each and in that order, with at most
    the empty chunk after them. *)
Theorem terminal_text_reaches_sink (datas : list bytes) (m : Machine)
    (b : InfiniteStdoutBuffer.t) :
  sys_stdout m = Buffered b ->
  InfiniteStdoutBuffer._closed b = false ->
  InfiniteStdoutBuffer.consistent b = true ->
  exists b',
    sys_stdout (run_ops E (map op_stdout datas) m) = Buffered b'
    /\ InfiniteStdoutBuffer.stdout b' = InfiniteStdoutBuffer.stdout b
    /\ InfiniteStdoutBuffer.accepted b'
       = InfiniteStdoutBuffer.accepted b ++ map text_of datas
    /\ forall tr sched s',
         InfiniteStdoutBuffer.exec sched
           (InfiniteStdoutBuffer.start b' [InfiniteStdoutBuffer.m_close] tr)
           = Some s' ->
         InfiniteStdoutBuffer.returned s' = true ->
         exists sentinel, (sentinel = [] \/ sentinel = [empty_str])
           /\ InfiniteStdoutBuffer.written
                (InfiniteStdoutBuffer.stdout (InfiniteStdoutBuffer.buf s'))
              = InfiniteStdoutBuffer.accepted b ++ map text_of datas ++ sentinel.
Proof.
  intros Hb Hc Hk.
  assert (exists b',
            sys_stdout (run_ops E (map op_stdout datas) m) = Buffered b'
            /\ InfiniteStdoutBuffer._closed b' = false
            /\ InfiniteStdoutBuffer.consistent b' = true
            /\ InfiniteStdoutBuffer.stdout b' = InfiniteStdoutBuffer.stdout b
            /\ InfiniteStdoutBuffer.accepted b'
               = InfiniteStdoutBuffer.accepted b ++ map text_of datas) as Hq.
  { revert m b Hb Hc Hk. induction datas as [|data datas IH]; intros m b Hb Hc Hk.
    - exists b. simpl. rewrite app_nil_r. auto.
    - destruct (stdout_buffered data m b Hb Hc Hk)
        as (b1 & Hb1 & Hc1 & Hk1 & Hacc1 & _ & Hst1).
      destruct (IH (snd (stdout data m)) b1 Hb1 Hc1 Hk1)
        as (b' & Hb' & Hc' & Hk' & Hst' & Hacc').
      exists b'. simpl. split; [exact Hb'|]. split; [exact Hc'|].
      split; [exact Hk'|]. split; [congruence|].
      rewrite Hacc', Hacc1, <- app_assoc. reflexivity. }
  destruct Hq as (b' & Hb' & Hc' & Hk' & Hst' & Hacc').
  exists b'. split; [exact Hb'|]. split; [exact Hst'|]. split; [exact Hacc'|].
  intros tr sched s' He Hr.
  pose proof (BufferFacts.close_inv_exec b' tr sched _ _
                (BufferFacts.close_inv_init b' tr Hc' Hk') He) as Hinv.
  destruct (BufferFacts.close_inv_returned b' tr s' Hinv Hr) as (sn & Hsn & ->).
  exists sn. split; [exact Hsn|]. simpl.
  unfold InfiniteStdoutBuffer.accepted in Hacc'.
  now rewrite app_assoc, Hacc', <- app_assoc.
Qed.

(** *** Installing the buffer *)

Lemma init_sys_stdout stack listen port timeout_s out w :
  sys_stdout (snd (__init__ E stack listen port timeout_s out w))
  = setInfiniteStdout out.
Proof. unfold __init__. rewrite RelayFacts.reset_run. reflexivity. Qed.

(** X11. [setInfiniteStdout()] installs at most one buffer: on a
    [sys.stdout] that is a buffer already it changes nothing, so that
    calling it twice is calling it once, and the orchestrator made
    second finds [sys.stdout] as the first one left it; on any other
    [sys.stdout] it flushes that once and puts before it an open buffer
    with an empty queue, in order, whose cleanup callback is
    [lambda: resetStdout(old_stdout)].  Through calls of [write] and a
    [close()] on that buffer, under every schedule, [sys.stdout] stays
    the buffer until [close()] is back; the callback, the last step of
    [close()], binds [sys.stdout] to the old object again, which by then
    holds what it held and every chunk written, in order, and at most
    the empty chunk after them, and has been flushed twice.  [close()]
    does come back. *)
Theorem buffer_is_installed_once (out : stdout_obj) :
  setInfiniteStdout (setInfiniteStdout out) = setInfiniteStdout out
  /\ ((exists b, setInfiniteStdout out = Buffered b
        /\ InfiniteStdoutBuffer._closed b = false
        /\ InfiniteStdoutBuffer.consistent b = true
        /\ forall k, out = Plain k ->
             InfiniteStdoutBuffer.accepted b = InfiniteStdoutBuffer.written k
             /\ InfiniteStdoutBuffer.flushes (InfiniteStdoutBuffer.stdout b)
                = S (InfiniteStdoutBuffer.flushes k)
             /\ InfiniteStdoutBuffer._cleanup b = Some restore_stdout)
     \/ (exists b, out = Buffered b /\ setInfiniteStdout out = out))
  /\ (forall stack listen port timeout_s w stack2 listen2 port2 timeout_s2 w2,
       sys_stdout
         (snd (__init__ E stack2 listen2 port2 timeout_s2
                 (sys_stdout (snd (__init__ E stack listen port timeout_s out w)))
                 w2))
       = sys_stdout (snd (__init__ E stack listen port timeout_s out w)))
  /\ forall k b ds,
       out = Plain k -> setInfiniteStdout out = Buffered b ->
       (forall sched p',
          exec_process sched
            (installed b (map InfiniteStdoutBuffer.m_write ds
                            ++ [InfiniteStdoutBuffer.m_close])) = Some p' ->
          (InfiniteStdoutBuffer.returned (threads p') = false ->
             sys_stdout_of p' = Buffered (InfiniteStdoutBuffer.buf (threads p')))
          /\ (InfiniteStdoutBuffer.returned (threads p') = true ->
                exists sentinel, (sentinel = [] \/ sentinel = [empty_str])
                  /\ sys_stdout_of p'
                     = Plain {| InfiniteStdoutBuffer.written :=
                                  InfiniteStdoutBuffer.written k ++ ds ++ sentinel;
                                InfiniteStdoutBuffer.flushes :=
                                  S (S (InfiniteStdoutBuffer.flushes k)) |}))
       /\ exists sched p',
            exec_process sched
              (installed b (map InfiniteStdoutBuffer.m_write ds
                              ++ [InfiniteStdoutBuffer.m_close])) = Some p'
            /\ InfiniteStdoutBuffer.returned (threads p') = true.
Proof.
  assert (setInfiniteStdout (setInfiniteStdout out) = setInfiniteStdout out) as Hi
    by (destruct out; reflexivity).
  split; [exact Hi|]. split; [|split].
  - destruct out as [k|b]; [left | right; eauto].
    eexists. split; [reflexivity|]. split; [reflexivity|]. split; [reflexivity|].
    intros k0 Hk0. injection Hk0 as <-.
    unfold InfiniteStdoutBuffer.accepted; simpl. now rewrite app_nil_r.
  - intros. now rewrite !init_sys_stdout.
  - intros k b ds -> Hb. split.
    + intros sched p'. now apply ProcessFacts.close_rebinds_stdout.
    + exact (ProcessFacts.close_comes_back k b ds Hb).
Qed.

(** *** [close()] *)

Lemma close_call_run (m : Machine) z :
  endpoint (self m) = Some z ->
  close E m = (Val tt, with_world (zmq_close E (ref z) (world m))
                         [Zmq_close (ref z)] (cache z m)).
Proof.
  intros Hz. unfold close. rewrite (RelayFacts.bind_val _ _ _ _ _ (RelayFacts.zmq_run m z Hz)).
  reflexivity.
Qed.

(** X12. [close()] only hands on to the endpoint: each call makes one
    [close] call on the endpoint, also when it was closed before, and on
    the same endpoint every time; of the orchestrator it changes nothing
    but the cached endpoint, which it leaves in place, and it does not
    touch [sys.stdout]. *)
Theorem close_hands_on_every_time (n : nat) (m : Machine) (z : Layer) :
  endpoint (self m) = Some z ->
  calls (run_ops E (repeat op_close n) m)
    = calls m ++ repeat (Zmq_close (ref z)) n
  /\ endpoint (self (run_ops E (repeat op_close n) m)) = Some z
  /\ _stack (self (run_ops E (repeat op_close n) m)) = _stack (self m)
  /\ sys_stdout (run_ops E (repeat op_close n) m) = sys_stdout m.
Proof.
  revert m. induction n as [|n IH]; intros m Hz; simpl.
  - rewrite app_nil_r. auto.
  - rewrite (close_call_run m z Hz). simpl.
    destruct (IH (with_world (zmq_close E (ref z) (world m)) [Zmq_close (ref z)]
                    (cache z m)) eq_refl) as (H1 & H2 & H3 & H4).
    rewrite H1, H2, H3, H4. simpl. rewrite <- app_assoc. auto.
Qed.

End Further.

Lemma zmq_is_first_stage_witness :
  fst (zmq (run_ops Demo.ext Demo.long_session Demo.idle)) = Val (Demo.zmq_layer 6).
Proof.
  refine (proj2 (zmq_is_first_stage Demo.ext Demo.long_session Demo.idle I)
            (Demo.zmq_layer 6) _ _).
  vm_compute. reflexivity.
Defined.

Lemma poll_waits_no_longer_than_asked_witness :
  exists bound,
    polled (calls (snd (poll Demo.ext (Some 2%float) Demo.active)))
      = polled (calls Demo.active) ++ [bound]
    /\ (zmq_isWaiting Demo.ext (ref (Demo.zmq_layer 0)) (world Demo.active) = false ->
          bound = Some 2%float
          /\ timeouts (calls (snd (poll Demo.ext (Some 2%float) Demo.active)))
             = timeouts (calls Demo.active))
    /\ (zmq_isWaiting Demo.ext (ref (Demo.zmq_layer 0)) (world Demo.active) = true ->
          exists b, bound = Some b
            /\ (b = given (Some 2%float) (self Demo.active)
                \/ b = remaining Demo.ext Demo.active (Demo.zmq_layer 0))
            /\ (is_nan (given (Some 2%float) (self Demo.active)) = false ->
                  (b <=? given (Some 2%float) (self Demo.active))%float = true)
            /\ ((remaining Demo.ext Demo.active (Demo.zmq_layer 0) <=? 0)%float = false ->
                  timeouts (calls (snd (poll Demo.ext (Some 2%float) Demo.active)))
                  = timeouts (calls Demo.active)
                  /\ (is_nan (given (Some 2%float) (self Demo.active)) = false ->
                      is_nan (remaining Demo.ext Demo.active (Demo.zmq_layer 0)) = false ->
                      (b <=? remaining Demo.ext Demo.active (Demo.zmq_layer 0))%float
                      = true))
            /\ ((remaining Demo.ext Demo.active (Demo.zmq_layer 0) <=? 0)%float = true ->
                  b = given (Some 2%float) (self Demo.active)
                  /\ timeouts (calls (snd (poll Demo.ext (Some 2%float) Demo.active)))
                     = S (timeouts (calls Demo.active)))).
Proof.
  apply (poll_waits_no_longer_than_asked Demo.ext Demo.active (Some 2%float)
           (Demo.zmq_layer 0)).
  reflexivity.
Defined.

Lemma recvAll_stops_where_handler_raises_witness :
  recvAll Demo.picky 5 0 0 Demo.with_empty_frame
    = (Val tt,
       with_world Demo.stopped
         [Socket_recv 0; Handler 0 [x68]; Socket_recv 0; Handler 0 []]
         Demo.with_empty_frame).
Proof.
  refine (proj1 (recvAll_stops_where_handler_raises Demo.picky 0 0
                   Demo.with_empty_frame [[x68]] [] (ZMQError 11) Demo.stopped 5
                   _ _) eq_refl).
  - eapply stops_later; [reflexivity | reflexivity |].
    eapply stops_now; reflexivity.
  - simpl. lia.
Defined.

Lemma recvAll_goes_on_while_frames_come_witness :
  fst (recvAll Demo.flooding 7 0 0 Demo.idle) = OutOfFuel
  /\ List.length (calls (snd (recvAll Demo.flooding 7 0 0 Demo.idle)))
     = List.length (calls Demo.idle) + 2 * 7.
Proof.
  apply (recvAll_goes_on_while_frames_come Demo.flooding 0 0 (fun _ => True)
           Demo.idle 7).
  - intros w _. exists [x2e], w. eexists. split; [reflexivity|].
    split; [reflexivity | exact I].
  - exact I.
Defined.

Lemma stdout_text_of_bytes_witness :
  text_of [x68; x69] = map code [x68; x69]
  /\ Codec.decode Codec.strict [x68; x69] = inr (map code [x68; x69])
  /\ text_of Demo.garbled <> [].
Proof.
  destruct (stdout_text_of_bytes (World:=Demo.World) [x68; x69] Demo.idle)
    as (Hascii & _ & _).
  destruct (stdout_text_of_bytes (World:=Demo.World) Demo.garbled Demo.idle)
    as (_ & _ & Hne).
  destruct Hascii as (H1 & H2 & _).
  { repeat constructor. }
  split; [exact H1|]. split; [exact H2|]. apply Hne. discriminate.
Defined.

Lemma terminal_text_reaches_sink_witness :
  exists b',
    sys_stdout (run_ops Demo.ext (map op_stdout [[x68]; Demo.garbled]) Demo.idle)
      = Buffered b'
    /\ InfiniteStdoutBuffer.stdout b'
       = InfiniteStdoutBuffer.stdout
           (InfiniteStdoutBuffer.__init__
              (InfiniteStdoutBuffer.sink_flush Demo.terminal) (Some restore_stdout))
    /\ InfiniteStdoutBuffer.accepted b'
       = InfiniteStdoutBuffer.accepted
           (InfiniteStdoutBuffer.__init__
              (InfiniteStdoutBuffer.sink_flush Demo.terminal) (Some restore_stdout))
         ++ map text_of [[x68]; Demo.garbled]
    /\ forall tr sched s',
         InfiniteStdoutBuffer.exec sched
           (InfiniteStdoutBuffer.start b' [InfiniteStdoutBuffer.m_close] tr)
           = Some s' ->
         InfiniteStdoutBuffer.returned s' = true ->
         exists sentinel, (sentinel = [] \/ sentinel = [empty_str])
           /\ InfiniteStdoutBuffer.written
                (InfiniteStdoutBuffer.stdout (InfiniteStdoutBuffer.buf s'))
              = InfiniteStdoutBuffer.accepted
                  (InfiniteStdoutBuffer.__init__
                     (InfiniteStdoutBuffer.sink_flush Demo.terminal)
                     (Some restore_stdout))
                ++ map text_of [[x68]; Demo.garbled] ++ sentinel.
Proof.
  apply (terminal_text_reaches_sink Demo.ext [[x68]; Demo.garbled] Demo.idle
           (InfiniteStdoutBuffer.__init__
              (InfiniteStdoutBuffer.sink_flush Demo.terminal) (Some restore_stdout)));
    reflexivity.
Defined.

Lemma buffer_is_installed_once_witness :
  (exists b, setInfiniteStdout (Plain Demo.terminal) = Buffered b
     /\ InfiniteStdoutBuffer.accepted b
        = InfiniteStdoutBuffer.written Demo.terminal
     /\ InfiniteStdoutBuffer.flushes (InfiniteStdoutBuffer.stdout b)
        = S (InfiniteStdoutBuffer.flushes Demo.terminal)
     /\ InfiniteStdoutBuffer._cleanup b = Some restore_stdout)
  /\ exists sched p',
       exec_process sched Demo.installed_terminal = Some p'
       /\ InfiniteStdoutBuffer.returned (threads p') = true
       /\ exists sentinel, (sentinel = [] \/ sentinel = [empty_str])
            /\ sys_stdout_of p'
               = Plain {| InfiniteStdoutBuffer.written :=
                            [] ++ [[104%Z]; [105%Z]] ++ sentinel;
                          InfiniteStdoutBuffer.flushes := 2 |}.
Proof.
  destruct (buffer_is_installed_once Demo.ext (Plain Demo.terminal))
    as (_ & H2 & _ & H4).
  split.
  - destruct H2 as [(b & Hb & _ & _ & H) | (b & Hb & _)]; [|discriminate Hb].
    exists b. split; [exact Hb|]. exact (H Demo.terminal eq_refl).
  - destruct (H4 Demo.terminal _ [[104%Z]; [105%Z]] eq_refl eq_refl)
      as (Hall & sched & p' & He & Hr).
    exists sched, p'. split; [exact He|]. split; [exact Hr|].
    exact (proj2 (Hall sched p' He) Hr).
Defined.

Lemma close_hands_on_every_time_witness :
  calls (run_ops Demo.ext (repeat op_close 2) Demo.idle)
    = calls Demo.idle ++ repeat (Zmq_close (ref (Demo.zmq_layer 0))) 2
  /\ endpoint (self (run_ops Demo.ext (repeat op_close 2) Demo.idle))
     = Some (Demo.zmq_layer 0)
  /\ _stack (self (run_ops Demo.ext (repeat op_close 2) Demo.idle))
     = _stack (self Demo.idle)
  /\ sys_stdout (run_ops Demo.ext (repeat op_close 2) Demo.idle)
     = sys_stdout Demo.idle.
Proof.
  apply (close_hands_on_every_time Demo.ext 2 Demo.idle (Demo.zmq_layer 0)).
  reflexivity.
Defined.

End RelayMore.
